(** * KeyDrive: layer engine, capture state machines and dispatcher

    A shallow embedding of the parts of KeyDrive that decide the behaviour
    of the remapper:

    - [layout_manager.cpp]: the symbol decoder [stringToChar32], the state
      and layout loaders, [processKeyEvent], [handleKeyRelease],
      [getCurrentLayer], [getLayerForKey], [cleanChar];
    - the output handler's [utf32ToUtf8];
    - [input_handler.cpp]: [checkEmergencyExit], [checkKeyRepeat],
      [triggerKeyRepeat], [processInputEvent] and the device scoring and
      ordering of [findPhysicalKeyboard];
    - [main.cpp]: the body of the dispatch loop;
    - further on: [layerTypeToString] and the first report of
      [verifyLayerKeys]; [getEvent] and [isModifierActive]; the output
      handler's [sendUnicode] with [isControlChar], [sendControlChar],
      [sendUnicodeWtype] and [sendUnicodeXdotool], [releaseAllModifiers],
      and the splitting of a command line in [executeCommand].

    Conventions.  A [std::string] is a [string] (a list of 8-bit
    characters); [char32_t], [int] and key codes are [Z]; positions in the
    layout ([size_t]) are [nat].  The endpoint and the score of a device
    are [int]s that come from text and sums: they are [Z]s kept in the range
    of [int] by [to_int].  The [std::unordered_map]s that are only
    looked up are [gmap]s; the toggle map, which [getCurrentLayer] iterates,
    is an association list whose order stands for the container's iteration
    order.  Clock readings are integers counting nanoseconds, and the
    [double] delays of the capture loop are the same quantities in
    nanoseconds. *)

From Stdlib Require Import ZArith Ascii String List Bool Lia.
From Stdlib Require OrderedTypeEx.
From stdpp Require Import base option list strings gmap sorting.

(** ** Bytes, characters and bit patterns *)

Module Bytes.

Local Open Scope Z_scope.

(** [static_cast<unsigned char>(ch)]: the value of a character, 0..255. *)
Definition uchar (ch : ascii) : Z := Z.of_N (N_of_ascii ch).

(** [static_cast<char>(z)]: the low eight bits of [z]. *)
Definition to_char (z : Z) : ascii := ascii_of_N (Z.to_N (z mod 256)).

(** [str[i]] read as an unsigned char.  Every use below is guarded by a
    test on [str.size()]; outside the string the value 0 is returned. *)
Definition at_uchar (str : string) (i : nat) : Z :=
  match String.get i str with
  | Some ch => uchar ch
  | None => 0
  end.

(** [str.size()] *)
Definition str_size (str : string) : Z := Z.of_nat (String.length str).

End Bytes.

(** ** The symbol decoder and the encoder *)

Module Utf8.

Import Bytes.
Local Open Scope Z_scope.

(** [stringToChar32] of layout_manager.cpp.  The C++ literals ["\\n"],
    ["\\t"], ["\\b"] and ["\\x1b"] are the two- and four-character strings
    that start with a backslash. *)
Definition stringToChar32 (str : string) : option Z :=
  if String.eqb str "" then None
  else if String.eqb str "\n" then Some 10
  else if String.eqb str "\t" then Some 9
  else if String.eqb str "\b" then Some 8
  else if String.eqb str "\x1b" then Some 27
  else if String.eqb str " " then Some 32
  else
    let firstByte := at_uchar str 0 in
    if Z.land firstByte 0x80 =? 0x00 then Some firstByte
    else if (Z.land firstByte 0xE0 =? 0xC0) && (2 <=? str_size str) then
      let secondByte := at_uchar str 1 in
      if Z.land secondByte 0xC0 =? 0x80 then
        Some (Z.lor (Z.shiftl (Z.land firstByte 0x1F) 6)
                    (Z.land secondByte 0x3F))
      else None
    else if (Z.land firstByte 0xF0 =? 0xE0) && (3 <=? str_size str) then
      let secondByte := at_uchar str 1 in
      let thirdByte := at_uchar str 2 in
      if (Z.land secondByte 0xC0 =? 0x80) && (Z.land thirdByte 0xC0 =? 0x80)
      then
        Some (Z.lor (Z.lor (Z.shiftl (Z.land firstByte 0x0F) 12)
                           (Z.shiftl (Z.land secondByte 0x3F) 6))
                    (Z.land thirdByte 0x3F))
      else None
    else if (Z.land firstByte 0xF8 =? 0xF0) && (4 <=? str_size str) then
      let secondByte := at_uchar str 1 in
      let thirdByte := at_uchar str 2 in
      let fourthByte := at_uchar str 3 in
      if (Z.land secondByte 0xC0 =? 0x80) && (Z.land thirdByte 0xC0 =? 0x80)
         && (Z.land fourthByte 0xC0 =? 0x80)
      then
        Some (Z.lor (Z.lor (Z.lor (Z.shiftl (Z.land firstByte 0x07) 18)
                                  (Z.shiftl (Z.land secondByte 0x3F) 12))
                           (Z.shiftl (Z.land thirdByte 0x3F) 6))
                    (Z.land fourthByte 0x3F))
      else None
    else None.

(** [utf32ToUtf8] of the output handler; [c] is a [char32_t]. *)
Definition utf32ToUtf8 (c : Z) : string :=
  if c <=? 0x7F then
    String (to_char c) ""
  else if c <=? 0x7FF then
    String (to_char (Z.lor 0xC0 (Z.land (Z.shiftr c 6) 0x1F)))
   (String (to_char (Z.lor 0x80 (Z.land c 0x3F))) "")
  else if c <=? 0xFFFF then
    String (to_char (Z.lor 0xE0 (Z.land (Z.shiftr c 12) 0x0F)))
   (String (to_char (Z.lor 0x80 (Z.land (Z.shiftr c 6) 0x3F)))
   (String (to_char (Z.lor 0x80 (Z.land c 0x3F))) ""))
  else if c <=? 0x10FFFF then
    String (to_char (Z.lor 0xF0 (Z.land (Z.shiftr c 18) 0x07)))
   (String (to_char (Z.lor 0x80 (Z.land (Z.shiftr c 12) 0x3F)))
   (String (to_char (Z.lor 0x80 (Z.land (Z.shiftr c 6) 0x3F)))
   (String (to_char (Z.lor 0x80 (Z.land c 0x3F))) "")))
  else "".

End Utf8.

(** ** The layout manager *)

Module Layout.

Import Bytes Utf8.

(** *** Small string helpers of layout_manager.cpp *)

(** [std::tolower] in the C locale. *)
Definition tolower (ch : ascii) : ascii :=
  let n := N_of_ascii ch in
  if ((65 <=? n) && (n <=? 90))%N then ascii_of_N (n + 32) else ch.

Fixpoint toLower (str : string) : string :=
  match str with
  | EmptyString => EmptyString
  | String ch rest => String (tolower ch) (toLower rest)
  end.

(** [str.size() >= prefix.size() && str.compare(0, prefix.size(), prefix) == 0] *)
Definition startsWith (str prefix : string) : bool :=
  (String.length prefix <=? String.length str)%nat
  && String.eqb (String.substring 0 (String.length prefix) str) prefix.

(** [::isspace] in the C locale: space, \t, \n, \v, \f, \r. *)
Definition isspace (ch : ascii) : bool :=
  let n := N_of_ascii ch in
  ((n =? 32) || ((9 <=? n) && (n <=? 13)))%N.

(** [result.erase(std::remove_if(..., p), result.end())] *)
Fixpoint erase_if (p : ascii -> bool) (str : string) : string :=
  match str with
  | EmptyString => EmptyString
  | String ch rest =>
      if p ch then erase_if p rest else String ch (erase_if p rest)
  end.

(** The characters 34 and 39: the double and the single quote. *)
Definition dquote : ascii := ascii_of_N 34.
Definition squote : ascii := ascii_of_N 39.

(** [LayoutManager::cleanChar]: drop double quotes, single quotes, then
    white space. *)
Definition cleanChar (charStr : string) : string :=
  let result := charStr in
  let result := erase_if (Ascii.eqb dquote) result in
  let result := erase_if (Ascii.eqb squote) result in
  let result := erase_if isspace result in
  result.

(** *** Types of layout_manager.hpp *)

Inductive LayerType := Hold | Toggle | Onetime.

Record LayerKeyConfig := mkLayerKeyConfig {
  targetLayer : string;
  type : LayerType
}.

(** [LayerKeyConfig{}]: an empty name and the first enumerator. *)
Definition LayerKeyConfig_default : LayerKeyConfig := mkLayerKeyConfig "" Hold.

Record LayerState := mkLayerState {
  current : string;
  toggles : list (string * bool);
  oneTime : string;
  hold : string;
  holdKey : Z
}.

Definition parseLayerType (typeStr : string) : LayerType :=
  let lowerType := toLower typeStr in
  if String.eqb lowerType "hold" then Hold
  else if String.eqb lowerType "toggle" then Toggle
  else if String.eqb lowerType "onetime" then Onetime
  else Hold.

(** *** The toggle map

    [std::unordered_map<std::string, bool>].  Assigning to a key that is
    present changes its value in place and leaves the iteration order
    alone.  Where the container would put a new key is unspecified; the
    model puts it last. *)

Fixpoint toggles_assign (k : string) (v : bool) (ts : list (string * bool))
  : list (string * bool) :=
  match ts with
  | [] => [(k, v)]
  | (k', v') :: rest =>
      if String.eqb k' k then (k', v) :: rest
      else (k', v') :: toggles_assign k v rest
  end.

Fixpoint toggles_find (k : string) (ts : list (string * bool)) : option bool :=
  match ts with
  | [] => None
  | (k', v') :: rest => if String.eqb k' k then Some v' else toggles_find k rest
  end.

(** Reading [toggles[k]]; a key that is absent reads as [false]. *)
Definition toggles_read (k : string) (ts : list (string * bool)) : bool :=
  default false (toggles_find k ts).

(** *** YAML documents

    A YAML map is the sequence of its pairs, in document order, and
    [node[key]] is the first pair with that key.  Layer entries are held
    as the strings [yamlNodeToString] makes of them. *)

Fixpoint yaml_lookup {A} (k : string) (d : list (string * A)) : option A :=
  match d with
  | [] => None
  | (k', v) :: rest => if String.eqb k' k then Some v else yaml_lookup k rest
  end.

(** [node[k] = v] *)
Fixpoint yaml_assign {A} (k : string) (v : A) (d : list (string * A))
  : list (string * A) :=
  match d with
  | [] => [(k, v)]
  | (k', v') :: rest =>
      if String.eqb k' k then (k', v) :: rest
      else (k', v') :: yaml_assign k v rest
  end.

(** A value of the state file: a scalar, or a node on which
    [as<std::string>()] throws. *)
Inductive YamlValue := YScalar (s : string) | YNonScalar.

(** The state file as [loadState] finds it. *)
Inductive StateFile :=
| FileMissing                                  (* the stream does not open *)
| FileCorrupt                                  (* [YAML::Load] throws *)
| FileDoc (d : list (string * YamlValue)).

(** The file behind the path [stateFile], and whether opening it for
    writing succeeds. *)
Record Disk := mkDisk {
  content : StateFile;
  writable : bool
}.

(** One entry of the [layer_keys] map: the strings
    [yamlNodeToStringVector] makes of [config["key"]], and the scalar under
    [config["type"]] when there is one. *)
Record KeyConfigDoc := mkKeyConfigDoc {
  cfg_key : list string;
  cfg_type : option string
}.

(** A parsed layout document.  [None] stands for a section that is
    missing or has the wrong shape; a layer that is not a sequence is
    [None] as well. *)
Record LayoutDoc := mkLayoutDoc {
  doc_source : option (list string);
  doc_layers : option (list (string * option (list string)));
  doc_layer_keys : option (list (string * KeyConfigDoc))
}.

(** What is found at [layoutsDir/<name>.kbd]. *)
Inductive LayoutFile :=
| LayoutNotFound
| LayoutUnreadable
| LayoutUnparsable
| LayoutParsed (doc : LayoutDoc).

Inductive LoadError :=
| ErrNotFound | ErrOpen | ErrParse | ErrSource | ErrLayerNotSequence | ErrLayers.

(** *** The manager *)

Record LayoutManager := mkLayoutManager {
  stateFile : Disk;
  state : gmap string string;
  layers : list (string * list string);      (* [layout["layers"]] *)
  keyPositions : gmap string nat;
  layerState : LayerState;
  layerKeys : gmap string LayerKeyConfig
}.

Definition DEFAULT_LAYOUT : string := "default".
Definition DEFAULT_LAYER : string := "base".

(** *** Loading *)

(** [LayoutManager::loadState].  The defaults are stored first; a document
    that parses overrides [layout] and [layer], one after the other, and an
    exception on the way keeps what was stored so far.  No other key of the
    document is read. *)
Definition loadState (file : StateFile) : gmap string string :=
  let state := <["layer" := DEFAULT_LAYER]> (<["layout" := DEFAULT_LAYOUT]> ∅) in
  match file with
  | FileMissing => state
  | FileCorrupt => state
  | FileDoc stateNode =>
      match yaml_lookup "layout" stateNode with
      | Some YNonScalar => state
      | Some (YScalar l) =>
          let state := <["layout" := l]> state in
          match yaml_lookup "layer" stateNode with
          | Some (YScalar y) => <["layer" := y]> state
          | _ => state
          end
      | None =>
          match yaml_lookup "layer" stateNode with
          | Some (YScalar y) => <["layer" := y]> state
          | _ => state
          end
      end
  end.

(** The first loop of [loadLayout]: [keyPositions[key] = i]. *)
Fixpoint buildKeyPositions (source : list string) (i : nat)
    (keyPositions : gmap string nat) : gmap string nat :=
  match source with
  | [] => keyPositions
  | key :: rest => buildKeyPositions rest (S i) (<[key := i]> keyPositions)
  end.

(** A layer brought to [sourceLength]: filled up with empty strings, or
    its first [sourceLength] entries. *)
Definition fitLayer (sourceLength : nat) (layer : list string) : list string :=
  if (length layer =? sourceLength)%nat then layer
  else if (length layer <? sourceLength)%nat
       then layer ++ replicate (sourceLength - length layer) ""
       else take sourceLength layer.

(** The second loop, over the entries of [layout["layers"]] in document
    order.  It works on the document itself.  A layer that is no sequence
    makes the load fail.  A short layer is filled up in place
    ([layer.push_back("")]).  A long layer is copied up to [sourceLength]
    and the copy is stored with [layout["layers"][layerName] = newLayer]:
    under the name, that is, in the first entry of that name. *)
Definition fitEntry (sourceLength i : nat)
    (layers : list (string * option (list string)))
  : option (list (string * option (list string))) :=
  match layers !! i with
  | None => Some layers
  | Some (layerName, None) => None
  | Some (layerName, Some layer) =>
      if (length layer =? sourceLength)%nat then Some layers
      else if (length layer <? sourceLength)%nat
           then Some (<[i := (layerName, Some (fitLayer sourceLength layer))]>
                        layers)
           else Some (yaml_assign layerName
                        (Some (fitLayer sourceLength layer)) layers)
  end.

(** [count] turns of the loop, from the entry at index [i] on. *)
Fixpoint validateFrom (sourceLength count i : nat)
    (layers : list (string * option (list string)))
  : option (list (string * option (list string))) :=
  match count with
  | O => Some layers
  | S count' =>
      match fitEntry sourceLength i layers with
      | Some layers' => validateFrom sourceLength count' (S i) layers'
      | None => None
      end
  end.

(** The layers of a document all of whose layers are sequences. *)
Fixpoint sequences (layers : list (string * option (list string)))
  : option (list (string * list string)) :=
  match layers with
  | [] => Some []
  | (layerName, None) :: _ => None
  | (layerName, Some layer) :: rest =>
      match sequences rest with
      | Some rest' => Some ((layerName, layer) :: rest')
      | None => None
      end
  end.

Definition validateLayers (sourceLength : nat)
    (ls : list (string * option (list string)))
  : option (list (string * list string)) :=
  match validateFrom sourceLength (length ls) 0 ls with
  | Some layers => sequences layers
  | None => None
  end.

(** The third loop: [layerKeys[key] = {layerName, layerType}]. *)
Definition registerKeys (layerName : string) (layerType : LayerType)
    (keyList : list string) (layerKeys : gmap string LayerKeyConfig)
  : gmap string LayerKeyConfig :=
  fold_left (fun lk key => <[key := mkLayerKeyConfig layerName layerType]> lk)
            keyList layerKeys.

Fixpoint buildLayerKeys (layer_keys : list (string * KeyConfigDoc))
    (layerKeys : gmap string LayerKeyConfig) : gmap string LayerKeyConfig :=
  match layer_keys with
  | [] => layerKeys
  | (layerName, config) :: rest =>
      if String.eqb layerName "base" then buildLayerKeys rest layerKeys
      else
        let layerType :=
          match cfg_type config with
          | Some t => parseLayerType t
          | None => Hold
          end in
        buildLayerKeys rest
          (registerKeys layerName layerType (cfg_key config) layerKeys)
  end.

(** The last loop: the toggle of every toggle-type entry is set to the
    value found in [state], or to [false]. *)
Fixpoint initToggles (state : gmap string string)
    (layer_keys : list (string * KeyConfigDoc)) (toggles : list (string * bool))
  : list (string * bool) :=
  match layer_keys with
  | [] => toggles
  | (layerName, config) :: rest =>
      match cfg_type config with
      | Some t =>
          match parseLayerType t with
          | Toggle =>
              let stateKey := ("toggle_" ++ layerName)%string in
              let savedState :=
                match state !! stateKey with
                | Some v => String.eqb v "true"
                | None => false
                end in
              initToggles state rest (toggles_assign layerName savedState toggles)
          | _ => initToggles state rest toggles
          end
      | None => initToggles state rest toggles
      end
  end.

(** [LayoutManager::loadLayout], given what [loadState] left in [state]. *)
Definition loadLayout (disk : Disk) (state : gmap string string)
    (layoutsDir : string -> LayoutFile) : LoadError + LayoutManager :=
  match layoutsDir (default "" (state !! "layout")) with
  | LayoutNotFound => inl ErrNotFound
  | LayoutUnreadable => inl ErrOpen
  | LayoutUnparsable => inl ErrParse
  | LayoutParsed layout =>
      match doc_source layout with
      | None => inl ErrSource
      | Some source =>
          let keyPositions := buildKeyPositions source 0 ∅ in
          let sourceLength := size keyPositions in
          match doc_layers layout with
          | None => inl ErrLayers
          | Some ls =>
              match validateLayers sourceLength ls with
              | None => inl ErrLayerNotSequence
              | Some layers =>
                  let layer_keys := default [] (doc_layer_keys layout) in
                  let layerKeys := buildLayerKeys layer_keys ∅ in
                  let layerState :=
                    mkLayerState (default "" (state !! "layer")) [] "" "" (-1) in
                  let layerState :=
                    mkLayerState (current layerState)
                                 (initToggles state layer_keys (toggles layerState))
                                 (oneTime layerState) (hold layerState)
                                 (holdKey layerState) in
                  inr (mkLayoutManager disk state layers keyPositions
                                       layerState layerKeys)
              end
          end
      end
  end.

(** The constructor: [loadState(); loadLayout();]. *)
Definition LayoutManager_new (disk : Disk) (layoutsDir : string -> LayoutFile)
  : LoadError + LayoutManager :=
  loadLayout disk (loadState (content disk)) layoutsDir.

(** *** Saving *)

Definition bool_text (b : bool) : string := if b then "true" else "false".

(** The document [saveState] builds; [state.at] fails on a missing key. *)
Definition stateDocument (state : gmap string string) (ls : LayerState)
  : option (list (string * YamlValue)) :=
  match state !! "layout", state !! "layer" with
  | Some l, Some y =>
      Some (fold_left
              (fun stateNode '(layer, active) =>
                 yaml_assign ("toggle_" ++ layer)%string
                             (YScalar (bool_text active)) stateNode)
              (toggles ls)
              [("layout", YScalar l); ("layer", YScalar y)])
  | _, _ => None
  end.

(** [LayoutManager::saveState]: [None] when [state.at] throws; otherwise
    the disk after the attempt to write. *)
Definition saveState (m : LayoutManager) : option Disk :=
  match stateDocument (state m) (layerState m) with
  | Some stateNode =>
      if writable (stateFile m)
      then Some (mkDisk (FileDoc stateNode) true)
      else Some (stateFile m)
  | None => None
  end.

(** *** Layer resolution and key events *)

Definition with_layerState (m : LayoutManager) (ls : LayerState) : LayoutManager :=
  mkLayoutManager (stateFile m) (state m) (layers m) (keyPositions m) ls
                  (layerKeys m).

(** The first toggle that is on, in iteration order. *)
Fixpoint firstActiveToggle (ts : list (string * bool)) : option string :=
  match ts with
  | [] => None
  | (layer, active) :: rest =>
      if active then Some layer else firstActiveToggle rest
  end.

(** [LayoutManager::getCurrentLayer] *)
Definition getCurrentLayer (ls : LayerState) : string :=
  if negb (String.eqb (oneTime ls) "") then oneTime ls
  else if negb (String.eqb (hold ls) "") then hold ls
  else match firstActiveToggle (toggles ls) with
       | Some layer => layer
       | None => "base"
       end.

(** [LayoutManager::shouldForwardKey] *)
Definition shouldForwardKey (shiftActive ctrlActive altActive superActive : bool)
  : bool :=
  ctrlActive || altActive || superActive.

(** [LayoutManager::getLayerForKey] *)
Definition getLayerForKey (layerKeys : gmap string LayerKeyConfig)
    (keyName baseChar : string) : bool * LayerKeyConfig :=
  let clean_char := cleanChar baseChar in
  if negb (String.eqb clean_char "") && startsWith clean_char "ly" then
    match layerKeys !! clean_char with
    | Some cfg => (true, cfg)
    | None => (false, LayerKeyConfig_default)
    end
  else (false, LayerKeyConfig_default).

(** How a call ends: with a value, or with an exception on its way out. *)
Inductive Outcome (A : Type) :=
| Returned (a : A)
| Thrown.
Arguments Returned {A} a.
Arguments Thrown {A}.

(** The character step of [processKeyEvent]: the part after the layer-key
    test. *)
Definition resolveCharacter (pos : nat) (m : LayoutManager)
  : Outcome (option Z) * LayoutManager :=
  let ls := layerState m in
  let currentLayer := getCurrentLayer ls in
  match yaml_lookup currentLayer (layers m) with
  | None => (Returned None, m)
  | Some layerNode =>
      if (length layerNode <=? pos)%nat then (Returned None, m)
      else
        let charStr := nth pos layerNode "" in
        let m :=
          if negb (String.eqb (oneTime ls) "")
          then with_layerState m
                 (mkLayerState (current ls) (toggles ls) "" (hold ls) (holdKey ls))
          else m in
        (Returned (stringToChar32 charStr), m)
  end.

(** The layer step of [processKeyEvent]: what a layer key does. *)
Definition activateLayer (layerConfig : LayerKeyConfig) (keyCode : Z)
    (m : LayoutManager) : Outcome (option Z) * LayoutManager :=
  let ls := layerState m in
  let layerName := targetLayer layerConfig in
  match type layerConfig with
  | Hold =>
      (Returned None,
       with_layerState m
         (mkLayerState (current ls) (toggles ls) (oneTime ls) layerName keyCode))
  | Toggle =>
      let currentLayer := getCurrentLayer ls in
      let is_active := String.eqb currentLayer layerName in
      let toggles' :=
        if is_active then toggles_assign layerName false (toggles ls)
        else toggles_assign layerName true (toggles ls) in
      let ls' :=
        mkLayerState (current ls) toggles' (oneTime ls) (hold ls) (holdKey ls) in
      let state' :=
        <[("toggle_" ++ layerName)%string :=
            bool_text (toggles_read layerName toggles')]> (state m) in
      let m' :=
        mkLayoutManager (stateFile m) state' (layers m) (keyPositions m) ls'
                        (layerKeys m) in
      match saveState m' with
      | Some disk' =>
          (Returned None,
           mkLayoutManager disk' state' (layers m) (keyPositions m) ls'
                           (layerKeys m))
      | None => (Thrown, m')
      end
  | Onetime =>
      (Returned None,
       with_layerState m
         (mkLayerState (current ls) (toggles ls) layerName (hold ls) (holdKey ls)))
  end.

(** [LayoutManager::processKeyEvent] *)
Definition processKeyEvent (keyName : string) (keyCode : Z) (eventType : string)
    (m : LayoutManager) : Outcome (option Z) * LayoutManager :=
  if negb (String.eqb eventType "press") && negb (String.eqb eventType "repeat")
  then (Returned None, m)
  else
    match keyPositions m !! keyName with
    | None => (Returned None, m)
    | Some pos =>
        match yaml_lookup "base" (layers m) with
        | None => (Returned None, m)
        | Some base =>
            if (length base <=? pos)%nat then (Returned None, m)
            else
              let baseChar := nth pos base "" in
              let '(isLayerKey, layerConfig) :=
                getLayerForKey (layerKeys m) keyName baseChar in
              if isLayerKey then activateLayer layerConfig keyCode m
              else resolveCharacter pos m
        end
    end.

(** [LayoutManager::handleKeyRelease] *)
Definition handleKeyRelease (keyCode : Z) (m : LayoutManager) : LayoutManager :=
  let ls := layerState m in
  if (holdKey ls =? keyCode)%Z
  then with_layerState m
         (mkLayerState (current ls) (toggles ls) (oneTime ls) "" (-1))
  else m.

End Layout.

(** ** The capture loop *)

(** [enum class EventType] and [enum class Modifier] of input_handler.hpp;
    each keeps its enumerators in a name space of its own, as in C++. *)
Module EventType.
Inductive t := Press | Release | Repeat | Modifier | RawKey.
End EventType.

Module Modifier.
Inductive t := Shift | Ctrl | Alt | Super.
End Modifier.

Module Input.

Local Open Scope Z_scope.

(** Key codes of [<linux/input-event-codes.h>]. *)
Definition KEY_ESC : Z := 1.
Definition KEY_BACKSPACE : Z := 14.
Definition KEY_LEFTCTRL : Z := 29.
Definition KEY_A : Z := 30.
Definition KEY_LEFTSHIFT : Z := 42.
Definition KEY_RIGHTSHIFT : Z := 54.
Definition KEY_LEFTALT : Z := 56.
Definition KEY_RIGHTCTRL : Z := 97.
Definition KEY_RIGHTALT : Z := 100.
Definition KEY_DELETE : Z := 111.
Definition KEY_LEFTMETA : Z := 125.
Definition KEY_RIGHTMETA : Z := 126.

(** [MODIFIER_MAP.find(code)] *)
Definition MODIFIER_MAP (code : Z) : option Modifier.t :=
  if code =? KEY_LEFTSHIFT then Some Modifier.Shift
  else if code =? KEY_RIGHTSHIFT then Some Modifier.Shift
  else if code =? KEY_LEFTCTRL then Some Modifier.Ctrl
  else if code =? KEY_RIGHTCTRL then Some Modifier.Ctrl
  else if code =? KEY_LEFTALT then Some Modifier.Alt
  else if code =? KEY_RIGHTALT then Some Modifier.Alt
  else if code =? KEY_LEFTMETA then Some Modifier.Super
  else if code =? KEY_RIGHTMETA then Some Modifier.Super
  else None.

Definition EMERGENCY_EXIT : list Z := [KEY_LEFTCTRL; KEY_LEFTALT; KEY_ESC].

(** One second, and the delays of [KeyRepeatState], in nanoseconds.  The
    program keeps the delays as [double]s of seconds; the numbers here are
    the decimal values of its constants, from which the binary values the
    program computes with differ by rounding, by far less than a
    nanosecond. *)
Definition second : Z := 1000000000.
Definition ms (n : Z) : Z := n * 1000000.

(** [struct InputEvent]; the member [type] is [ev_type] here. *)
Record InputEvent := mkInputEvent {
  ev_type : EventType.t;
  keyName : string;
  keyCode : Z;
  active : bool;
  timestamp : Z;
  value : Z
}.

(** [count] is an [int] that only grows, by one for a repeat; it is the
    number it stands for. *)
Record KeyRepeatState := mkKeyRepeatState {
  activeKeyCode : Z;
  count : Z;
  lastTime : Z;
  initialDelay : Z;
  repeatDelay : Z
}.

(** The member initialisers of [KeyRepeatState]: [initialDelay = 0.5] and
    [repeatDelay = 0.06]. *)
Definition KeyRepeatState_init : KeyRepeatState :=
  mkKeyRepeatState (-1) 0 0 (ms 500) (ms 60).

(** [std::unordered_map<Modifier, bool> modifiers], one flag per key. *)
Record Modifiers := mkModifiers {
  shift : bool;
  ctrl : bool;
  alt : bool;
  super : bool
}.

Definition set_modifier (md : Modifier.t) (b : bool) (mods : Modifiers) : Modifiers :=
  match md with
  | Modifier.Shift => mkModifiers b (ctrl mods) (alt mods) (super mods)
  | Modifier.Ctrl => mkModifiers (shift mods) b (alt mods) (super mods)
  | Modifier.Alt => mkModifiers (shift mods) (ctrl mods) b (super mods)
  | Modifier.Super => mkModifiers (shift mods) (ctrl mods) (alt mods) b
  end.

(** The members of [InputHandlerImpl] that the capture loop updates.  The
    stuck-key table [keyState] only feeds a diagnostic and is left out. *)
Record Capture := mkCapture {
  modifiers : Modifiers;
  keyRepeat : KeyRepeatState;
  exitSequence : list Z;
  exitTimeout : Z;
  eventQueue : list InputEvent
}.

Definition Capture_init : Capture :=
  mkCapture (mkModifiers false false false false) KeyRepeatState_init [] 0 [].

Definition with_keyRepeat (s : Capture) (kr : KeyRepeatState) : Capture :=
  mkCapture (modifiers s) kr (exitSequence s) (exitTimeout s) (eventQueue s).

Definition with_exit (s : Capture) (seq : list Z) (timeout : Z) : Capture :=
  mkCapture (modifiers s) (keyRepeat s) seq timeout (eventQueue s).

(** [enqueueEvent]: the queue grows at its back. *)
Definition enqueueEvent (e : InputEvent) (s : Capture) : Capture :=
  mkCapture (modifiers s) (keyRepeat s) (exitSequence s) (exitTimeout s)
            (eventQueue s ++ [e]).

(** [exitSequence == EMERGENCY_EXIT] *)
Definition seq_eqb (a b : list Z) : bool := bool_decide (a = b).

(** [exitSequence.empty() || exitSequence.back() != code] *)
Definition may_append (seq : list Z) (code : Z) : bool :=
  match last seq with
  | None => true
  | Some back => negb (back =? code)
  end.

(** [InputHandlerImpl::checkEmergencyExit] at the steady-clock reading
    [currentTime].  [None] is the call of [_exit(0)]. *)
Definition checkEmergencyExit (code value : Z) (currentTime : Z) (s : Capture)
  : option Capture :=
  let elapsed := currentTime - exitTimeout s in
  let s := if second <? elapsed then with_exit s [] (exitTimeout s) else s in
  if negb (value =? 1) then Some s
  else if existsb (Z.eqb code) EMERGENCY_EXIT then
    let seq := if may_append (exitSequence s) code
               then exitSequence s ++ [code] else exitSequence s in
    let s := with_exit s seq currentTime in
    if seq_eqb (exitSequence s) EMERGENCY_EXIT then None else Some s
  else Some s.

(** [InputHandlerImpl::triggerKeyRepeat] at the system-clock reading [now]. *)
Section WithNames.

(** [keyCodeToName], which asks libevdev for the name of a code. *)
Variable keyCodeToName : Z -> string.

Definition triggerKeyRepeat (now : Z) (s : Capture) : Capture :=
  let kr := keyRepeat s in
  let s := enqueueEvent
             (mkInputEvent EventType.Repeat (keyCodeToName (activeKeyCode kr))
                           (activeKeyCode kr) true now 0) s in
  let kr := mkKeyRepeatState (activeKeyCode kr) (count kr + 1) now
                             (initialDelay kr) (repeatDelay kr) in
  let kr :=
    if (activeKeyCode kr =? KEY_BACKSPACE) || (activeKeyCode kr =? KEY_DELETE)
    then mkKeyRepeatState (activeKeyCode kr) (count kr) (lastTime kr)
                          (initialDelay kr)
                          (Z.max (ms 10) (ms 50 - count kr * ms 5))
    else kr in
  with_keyRepeat s kr.

(** [InputHandlerImpl::checkKeyRepeat] *)
Definition checkKeyRepeat (currentTime : Z) (s : Capture) : Capture :=
  let kr := keyRepeat s in
  if activeKeyCode kr =? -1 then s
  else
    let elapsed := currentTime - lastTime kr in
    if count kr =? 0 then
      if initialDelay kr <=? elapsed then triggerKeyRepeat currentTime s else s
    else
      if repeatDelay kr <=? elapsed then triggerKeyRepeat currentTime s else s.

(** The reset both key-up paths of [processInputEvent] perform. *)
Definition stopRepeat (code : Z) (s : Capture) : Capture :=
  let kr := keyRepeat s in
  if activeKeyCode kr =? code
  then with_keyRepeat s
         (mkKeyRepeatState (-1) 0 (lastTime kr) (initialDelay kr) (repeatDelay kr))
  else s.

(** [InputHandlerImpl::processInputEvent] for an [EV_KEY] event, with the
    readings [now] of the system clock and [steady] of the steady clock.
    [None]: the process has exited. *)
Definition processInputEvent (code value : Z) (now steady : Z) (s : Capture)
  : option Capture :=
  let s := if value =? 1 then s
           else if value =? 0 then stopRepeat code s
           else s in
  match checkEmergencyExit code value steady s with
  | None => None
  | Some s =>
      match MODIFIER_MAP code with
      | Some md =>
          let s :=
            mkCapture (set_modifier md (0 <? value) (modifiers s)) (keyRepeat s)
                      (exitSequence s) (exitTimeout s) (eventQueue s) in
          let s := enqueueEvent
                     (mkInputEvent EventType.Modifier (keyCodeToName code) code
                                   (0 <? value) now 0) s in
          let s := enqueueEvent
                     (mkInputEvent EventType.RawKey (keyCodeToName code) code
                                   false now value) s in
          Some s
      | None =>
          let keyName := keyCodeToName code in
          if value =? 1 then
            let kr := keyRepeat s in
            let s := with_keyRepeat s
                       (mkKeyRepeatState code 0 now (initialDelay kr)
                                         (repeatDelay kr)) in
            Some (enqueueEvent
                    (mkInputEvent EventType.Press keyName code true now 0) s)
          else if value =? 0 then
            let s := stopRepeat code s in
            Some (enqueueEvent
                    (mkInputEvent EventType.Release keyName code false now 0) s)
          else Some s
      end
  end.

(** What the capture thread does, one action at a time: an [EV_KEY] event
    read from the device, or the timer check of one cycle. *)
Inductive Action :=
| Key (code value : Z) (now steady : Z)
| Tick (now : Z).

Definition step (a : Action) (s : Capture) : option Capture :=
  match a with
  | Key code value now steady => processInputEvent code value now steady s
  | Tick now => Some (checkKeyRepeat now s)
  end.

Fixpoint run (acts : list Action) (s : Capture) : option Capture :=
  match acts with
  | [] => Some s
  | a :: rest =>
      match step a s with
      | Some s' => run rest s'
      | None => None
      end
  end.

End WithNames.

End Input.

(** ** Choosing the keyboard *)

Module DeviceSelector.

Import Layout.
Local Open Scope Z_scope.

(** [PHYSICAL_KEYS]: the letters, the digits, both Ctrl, Shift and Alt
    keys, Tab, Esc and Backspace, by their codes. *)
Definition PHYSICAL_KEYS : list Z :=
  [30; 48; 46; 32; 18;
   33; 34; 35; 23; 36;
   37; 38; 50; 49; 24;
   25; 16; 19; 31; 20;
   22; 47; 17; 45; 21;
   44; 2; 3; 4; 5;
   6; 7; 8; 9; 10;
   11; 29; 97;
   42; 54; 56;
   100; 15; 1; 14].

(** [std::strstr(haystack, needle) != nullptr] *)
Fixpoint strstr (haystack needle : string) : bool :=
  String.prefix needle haystack
  || match haystack with
     | EmptyString => false
     | String _ rest => strstr rest needle
     end.

(** *** The type [int]

    An [int] has 32 bits.  [to_int z] is the value an [int] holds when the
    exact result is [z]: the low 32 bits of [z], read in two's complement.
    For a result outside the range of [int] the C++ standard leaves the
    behaviour of the program undefined; the value taken here is the one
    the compiled program's arithmetic leaves in the variable. *)
Definition INT_MIN : Z := - 2 ^ 31.
Definition INT_MAX : Z := 2 ^ 31 - 1.
Definition LONG_MIN : Z := - 2 ^ 63.
Definition LONG_MAX : Z := 2 ^ 63 - 1.

Definition to_int (z : Z) : Z := (z + 2 ^ 31) mod 2 ^ 32 - 2 ^ 31.

Definition int_add (a b : Z) : Z := to_int (a + b).
Definition int_sub (a b : Z) : Z := to_int (a - b).

(** *** [sscanf(phys, "input%d", &endpoint)] *)

Definition is_digit (ch : ascii) : bool :=
  let n := N_of_ascii ch in ((48 <=? n) && (n <=? 57))%N.

Definition digit_value (ch : ascii) : Z := Z.of_N (N_of_ascii ch) - 48.

Fixpoint skip_space (str : string) : string :=
  match str with
  | String ch rest => if isspace ch then skip_space rest else str
  | EmptyString => str
  end.

(** The value of the longest run of digits at the front of [str]. *)
Fixpoint read_digits (str : string) (acc : Z) : Z :=
  match str with
  | String ch rest =>
      if is_digit ch then read_digits rest (acc * 10 + digit_value ch) else acc
  | EmptyString => acc
  end.

Definition starts_with_digit (str : string) : bool :=
  match str with
  | String ch _ => is_digit ch
  | EmptyString => false
  end.

(** The number the C library makes of the digits read: it converts them
    as [strtol] does, which stops at the ends of [long], and stores the
    result in the [int], of which the low 32 bits remain. *)
Definition stored_int (z : Z) : Z :=
  to_int (Z.max LONG_MIN (Z.min LONG_MAX z)).

(** The conversion [%d]: white space, an optional sign, at least one
    digit. *)
Definition scan_d (str : string) : option Z :=
  let str := skip_space str in
  match str with
  | String ch rest =>
      if Ascii.eqb ch "-"%char then
        if starts_with_digit rest
        then Some (stored_int (- read_digits rest 0)) else None
      else if Ascii.eqb ch "+"%char then
        if starts_with_digit rest
        then Some (stored_int (read_digits rest 0)) else None
      else if is_digit ch then Some (stored_int (read_digits str 0))
      else None
  | EmptyString => None
  end.

(** The literal part of the format has to match the front of the input. *)
Fixpoint scan_literal (lit str : string) : option string :=
  match lit, str with
  | EmptyString, _ => Some str
  | String a lit', String b str' =>
      if Ascii.eqb a b then scan_literal lit' str' else None
  | String _ _, EmptyString => None
  end.

(** The endpoint left in [endpoint] after the [sscanf] step: the number
    read, or -1 when the call does not return 1. *)
Definition scanEndpoint (phys : option string) : Z :=
  match phys with
  | Some p =>
      match scan_literal "input" p with
      | Some rest =>
          match scan_d rest with
          | Some e => e
          | None => -1
          end
      | None => -1
      end
  | None => -1
  end.

(** What libevdev reports about one device node. *)
Record Device := mkDevice {
  has_key : bool;              (* EV_KEY *)
  has_led : bool;              (* EV_LED *)
  has_rel : bool;              (* EV_REL *)
  has_abs : bool;              (* EV_ABS *)
  has_code : Z -> bool;        (* libevdev_has_event_code(dev, EV_KEY, key) *)
  phys : option string;        (* libevdev_get_phys *)
  devname : option string;     (* libevdev_get_name *)
  devfd : Z
}.

Record KeyboardCandidate := mkKeyboardCandidate {
  score : Z;
  endpoint : Z;
  name : string;
  fd : Z
}.

(** Tests 1 to 4 of [findPhysicalKeyboard]. *)
Definition qualifies (d : Device) : bool :=
  has_key d && has_led d && negb (has_rel d || has_abs d)
  && (30 <=? Z.of_nat (length (filter (fun key => has_code d key = true) PHYSICAL_KEYS))).

(** Steps 5 and 6: the endpoint and the priority score. *)
Definition makeCandidate (d : Device) : KeyboardCandidate :=
  let endpoint := scanEndpoint (phys d) in
  let score := 0 in
  let score :=
    if endpoint =? 0 then int_add score 100
    else if negb (endpoint =? -1) then int_add score (int_sub 50 endpoint)
    else score in
  let score :=
    match devname d with
    | Some name => if strstr name "keyboard" then int_add score 10 else score
    | None => score
    end in
  mkKeyboardCandidate score endpoint (default "Unknown" (devname d)) (devfd d).

(** The comparison handed to [std::sort]. *)
Definition before (a b : KeyboardCandidate) : bool :=
  if negb (score a =? score b) then score b <? score a
  else if negb (endpoint a =? endpoint b) then
    if endpoint a =? -1 then false
    else if endpoint b =? -1 then true
    else endpoint a <? endpoint b
  else String.ltb (name a) (name b).

(** [std::sort] as a sort by insertion.  The standard fixes the result
    up to the order of candidates that the comparison does not tell apart;
    the insertion sort is one sort that meets it. *)
Fixpoint insert_candidate (c : KeyboardCandidate) (l : list KeyboardCandidate)
  : list KeyboardCandidate :=
  match l with
  | [] => [c]
  | x :: rest => if before x c then x :: insert_candidate c rest else c :: l
  end.

Fixpoint sort_candidates (l : list KeyboardCandidate) : list KeyboardCandidate :=
  match l with
  | [] => []
  | c :: rest => insert_candidate c (sort_candidates rest)
  end.

Inductive SelectError := NoKeyboardFound | GrabFailed.

(** [findPhysicalKeyboard] over the devices that open, in directory order;
    [grab] tells whether [libevdev_grab] succeeds on a descriptor. *)
Definition findPhysicalKeyboard (devices : list Device) (grab : Z -> bool)
  : SelectError + KeyboardCandidate :=
  let candidates := map makeCandidate (filter (fun d => qualifies d = true) devices) in
  match sort_candidates candidates with
  | [] => inl NoKeyboardFound
  | best :: _ => if grab (fd best) then inr best else inl GrabFailed
  end.

End DeviceSelector.

(** ** The dispatch loop *)

Module Dispatcher.

Import Layout Input.
Local Open Scope Z_scope.

(** The calls made on the output handler. *)
Inductive SinkCall :=
| ForwardEvent (keyCode value : Z)
| SendUnicode (c : Z).

(** One turn of the loop of [main] on an event taken from the queue:
    the calls on the output handler, the manager afterwards, and whether
    an exception left the loop. *)
Record Turn := mkTurn {
  calls : list SinkCall;
  manager : LayoutManager;
  left_loop : bool
}.

Definition is_type (a b : EventType.t) : bool :=
  match a, b with
  | EventType.Press, EventType.Press
  | EventType.Release, EventType.Release
  | EventType.Repeat, EventType.Repeat
  | EventType.Modifier, EventType.Modifier
  | EventType.RawKey, EventType.RawKey => true
  | _, _ => false
  end.

Definition dispatch (event : InputEvent) (modifierState : Modifiers)
    (layoutManager : LayoutManager) : Turn :=
  let layoutManager :=
    if is_type (ev_type event) EventType.Release
    then handleKeyRelease (keyCode event) layoutManager
    else layoutManager in
  if is_type (ev_type event) EventType.RawKey then
    mkTurn [ForwardEvent (keyCode event) (value event)] layoutManager false
  else
    let shiftActive := shift modifierState in
    let ctrlActive := ctrl modifierState in
    let altActive := alt modifierState in
    let superActive := super modifierState in
    let bypassRemapping := ctrlActive || altActive || superActive in
    if is_type (ev_type event) EventType.Press
       || is_type (ev_type event) EventType.Repeat then
      let '(result, layoutManager) :=
        processKeyEvent (keyName event) (keyCode event)
          (if is_type (ev_type event) EventType.Press then "press" else "repeat")
          layoutManager in
      match result with
      | Thrown => mkTurn [] layoutManager true
      | Returned maybeCharacter =>
          if bypassRemapping then mkTurn [] layoutManager false
          else
            match maybeCharacter with
            | Some c => mkTurn [SendUnicode c] layoutManager false
            | None => mkTurn [] layoutManager false
            end
      end
    else mkTurn [] layoutManager false.

(** The loop over a run of events, each with the modifier snapshot read
    when it is handled. *)
Fixpoint dispatch_all (events : list (InputEvent * Modifiers))
    (layoutManager : LayoutManager) : list SinkCall * LayoutManager :=
  match events with
  | [] => ([], layoutManager)
  | (event, modifierState) :: rest =>
      let t := dispatch event modifierState layoutManager in
      if left_loop t then (calls t, manager t)
      else
        let '(cs, m) := dispatch_all rest (manager t) in
        (calls t ++ cs, m)
  end.

End Dispatcher.

(** ** Further helpers of layout_manager.cpp *)

Module LayoutAux.

Import Layout.

(** [layerTypeToString] *)
Definition layerTypeToString (type : LayerType) : string :=
  match type with
  | Hold => "hold"
  | Toggle => "toggle"
  | Onetime => "onetime"
  end.

(** One line of the first report of [verifyLayerKeys]: a position of the
    base layer whose cleaned symbol starts with [ly], with the
    configuration found for it, if any. *)
Record KeyReport := mkKeyReport {
  rep_position : nat;
  rep_symbol : string;
  rep_clean : string;
  rep_config : option LayerKeyConfig
}.

Fixpoint reportBase (layerKeys : gmap string LayerKeyConfig)
    (baseLayer : list string) (i : nat) : list KeyReport :=
  match baseLayer with
  | [] => []
  | charStr :: rest =>
      let clean_char := cleanChar charStr in
      if negb (String.eqb clean_char "") && startsWith clean_char "ly"
      then mkKeyReport i charStr clean_char (layerKeys !! clean_char)
           :: reportBase layerKeys rest (S i)
      else reportBase layerKeys rest (S i)
  end.

End LayoutAux.

(** ** Taking events from the queue *)

Module EventQueue.

Import Input.

(** [InputHandlerImpl::getEvent] at the moment its wait ends: the front of
    the queue is taken, or the call returns nothing because the queue is
    still empty (time-out or stop). *)
Definition getEvent (s : Capture) : option InputEvent * Capture :=
  match eventQueue s with
  | [] => (None, s)
  | event :: rest =>
      (Some event,
       mkCapture (modifiers s) (keyRepeat s) (exitSequence s) (exitTimeout s)
                 rest)
  end.

(** [isModifierActive] *)
Definition isModifierActive (md : Modifier.t) (s : Capture) : bool :=
  match md with
  | Modifier.Shift => shift (modifiers s)
  | Modifier.Ctrl => ctrl (modifiers s)
  | Modifier.Alt => alt (modifiers s)
  | Modifier.Super => super (modifiers s)
  end.

End EventQueue.

(** ** The output handler *)

Module Output.

Import Bytes Utf8 Layout Input.
Local Open Scope Z_scope.

(** Event types and codes of [<linux/input-event-codes.h>]. *)
Definition EV_SYN : Z := 0.
Definition EV_KEY : Z := 1.
Definition SYN_REPORT : Z := 0.
Definition KEY_TAB : Z := 15.
Definition KEY_ENTER : Z := 28.
Definition KEY_SPACE : Z := 57.

(** [token.c_str()] as [strdup] copies it: the characters before the first
    null character. *)
Fixpoint c_str (token : string) : string :=
  match token with
  | EmptyString => EmptyString
  | String ch rest =>
      if (N_of_ascii ch =? 0)%N then EmptyString else String ch (c_str rest)
  end.

(** The loop [while (iss >> token)] of [executeCommand], with the token
    read so far: white space ends a token and is skipped before one. *)
Fixpoint tokens_from (command token : string) : list string :=
  match command with
  | EmptyString => if String.eqb token "" then [] else [token]
  | String ch rest =>
      if isspace ch
      then if String.eqb token "" then tokens_from rest ""
           else token :: tokens_from rest ""
      else tokens_from rest (token ++ String ch "")
  end.

(** The argument vector [executeCommand] hands to [execvp]. *)
Definition args (command : string) : list string :=
  map c_str (tokens_from command "").

(** What the handler does to the outside: an event written to the virtual
    keyboard, or a command handed to [executeCommand]. *)
Inductive Effect :=
| WriteEvent (type code value : Z)
| Execute (command : string).

(** [syncEvent] *)
Definition syncEvent : list Effect := [WriteEvent EV_SYN SYN_REPORT 0].

(** [OutputHandler::releaseAllModifiers] *)
Definition releaseAllModifiers : list Effect :=
  map (fun modifier => WriteEvent EV_KEY modifier 0)
      [KEY_LEFTCTRL; KEY_RIGHTCTRL; KEY_LEFTSHIFT; KEY_RIGHTSHIFT;
       KEY_LEFTALT; KEY_RIGHTALT; KEY_LEFTMETA; KEY_RIGHTMETA]
  ++ syncEvent.

(** [OutputHandler::isControlChar] *)
Definition isControlChar (c : Z) : bool :=
  (c =? 10) || (c =? 32) || (c =? 8) || (c =? 9) || (c =? 27).

(** [OutputHandler::sendControlChar] *)
Definition sendControlChar (c : Z) : list Effect :=
  let key :=
    if c =? 10 then Some KEY_ENTER
    else if c =? 32 then Some KEY_SPACE
    else if c =? 8 then Some KEY_BACKSPACE
    else if c =? 9 then Some KEY_TAB
    else if c =? 27 then Some KEY_ESC
    else None in
  match key with
  | Some key => [WriteEvent EV_KEY key 1; WriteEvent EV_KEY key 0] ++ syncEvent
  | None => []
  end.

(** [OutputHandler::sendUnicodeWtype]; [exitCode] is what
    [executeCommand] returns for a command. *)
Definition sendUnicodeWtype (exitCode : string -> Z) (c : Z)
  : bool * list Effect :=
  let charStr := utf32ToUtf8 c in
  let command := ("wtype -- " ++ charStr)%string in
  (exitCode command =? 0, [Execute command]).

(** [OutputHandler::sendUnicodeXdotool] *)
Definition sendUnicodeXdotool (exitCode : string -> Z) (c : Z)
  : bool * list Effect :=
  let charStr := utf32ToUtf8 c in
  let command := ("xdotool type --clearmodifiers " ++ charStr)%string in
  (exitCode command =? 0, [Execute "setxkbmap"; Execute command]).

(** The command [getActiveWindowInfo] runs to ask the compositor for the
    active window. *)
Definition windowQuery : string := "hyprctl activewindow -j".

(** [OutputHandler::sendUnicode].  [isElectron] is the flag
    [getActiveWindowInfo] derives from the answer to its query, and
    [hasXdotool] tells whether xdotool is installed.  The lines written to
    the terminal are left out. *)
Definition sendUnicode (isElectron hasXdotool : bool) (exitCode : string -> Z)
    (character : Z) : bool * list Effect :=
  let windowInfo := [Execute windowQuery] in
  if isControlChar character
  then (true, windowInfo ++ sendControlChar character)
  else
    let '(sent, effects) :=
      if isElectron && hasXdotool
      then sendUnicodeXdotool exitCode character
      else sendUnicodeWtype exitCode character in
    (sent, windowInfo ++ effects).

End Output.

(** * Vocabulary of the statements *)

(** ** Byte sequences *)

Module Utf8Spec.

Import Bytes Utf8.
Local Open Scope Z_scope.

(** A Unicode scalar value: a code point that is not a surrogate. *)
Definition unicode_scalar (c : Z) : Prop :=
  0 <= c <= 0x10FFFF /\ ~ (0xD800 <= c <= 0xDFFF).

(** The number of bytes a leading byte announces in standard UTF-8; [None]
    for a byte that cannot lead a well-formed sequence: 80..BF, the bytes
    C0 and C1 of overlong forms, and F5..FF. *)
Definition announced (b : Z) : option nat :=
  if b <? 0x80 then Some 1%nat
  else if b <? 0xC2 then None
  else if b <? 0xE0 then Some 2%nat
  else if b <? 0xF0 then Some 3%nat
  else if b <? 0xF5 then Some 4%nat
  else None.

(** The number of bytes the bit pattern of a leading byte stands for:
    0xxxxxxx one, 110xxxxx two, 1110xxxx three, 11110xxx four; [None] for
    10xxxxxx and 11111xxx. *)
Definition pattern_length (b : Z) : option nat :=
  if b <? 0x80 then Some 1%nat
  else if b <? 0xC0 then None
  else if b <? 0xE0 then Some 2%nat
  else if b <? 0xF0 then Some 3%nat
  else if b <? 0xF8 then Some 4%nat
  else None.

(** A continuation byte has the form 10xxxxxx. *)
Definition continuation (b : Z) : Prop := 0x80 <= b < 0xC0.

(** The byte at index [i], when the string has one. *)
Definition byte_at (str : string) (i : nat) : option Z :=
  uchar <$> String.get i str.

(** A byte sequence is broken, with respect to a reading [len] of leading
    bytes, when it is empty, when its leading byte has no length, or when
    a continuation byte the leading byte calls for is missing or is not a
    continuation byte. *)
Definition broken (len : Z -> option nat) (str : string) : Prop :=
  str = EmptyString
  \/ (exists b, byte_at str 0 = Some b /\ len b = None)
  \/ (exists b n i, byte_at str 0 = Some b /\ len b = Some n
        /\ (1 <= i < n)%nat
        /\ forall x, byte_at str i = Some x -> ~ continuation x).

(** Malformed: a bad leading byte or a failed continuation byte, by the
    leading bytes of standard UTF-8. *)
Definition malformed (str : string) : Prop := broken announced str.

(** What the decoder takes for malformed: the same, by the bit patterns
    of the leading byte alone. *)
Definition rejected (str : string) : Prop := broken pattern_length str.

End Utf8Spec.

(** ** Vocabulary for the statements about the layout manager *)

Module LayoutSpec.

Import Layout.

(** The state a manager is in once its constructor has run and however
    many events have been handled: [state] holds the two keys [loadState]
    stores, no layer is listed twice in the toggle map, the target of
    every toggle-type layer key has its entry there, and no layer key
    targets the base layer. *)
Definition well_formed (m : LayoutManager) : Prop :=
  is_Some (state m !! "layout")
  /\ is_Some (state m !! "layer")
  /\ NoDup (toggles (layerState m)).*1
  /\ (forall key cfg, layerKeys m !! key = Some cfg -> type cfg = Toggle ->
        is_Some (toggles_find (targetLayer cfg) (toggles (layerState m))))
  /\ (forall key cfg, layerKeys m !! key = Some cfg -> targetLayer cfg <> "base").

(** The activation type [loadLayout] gives to an entry of [layer_keys]. *)
Definition entry_type (config : KeyConfigDoc) : LayerType :=
  match cfg_type config with
  | Some t => parseLayerType t
  | None => Hold
  end.

(** [eventType] is one of the two strings the dispatcher passes. *)
Definition press_or_repeat (eventType : string) : Prop :=
  eventType = "press" \/ eventType = "repeat".

(** The key [keyName] sits at a position of the base layer whose cleaned
    symbol is registered as a layer key with configuration [cfg]. *)
Definition layer_key (m : LayoutManager) (keyName : string) (cfg : LayerKeyConfig)
  : Prop :=
  exists pos base,
    keyPositions m !! keyName = Some pos
    /\ yaml_lookup "base" (layers m) = Some base
    /\ (pos < length base)%nat
    /\ getLayerForKey (layerKeys m) keyName (nth pos base "") = (true, cfg).

(** The layer state a press of a toggle key for [layerName] leaves: the
    toggle is on afterwards unless [layerName] was the current layer. *)
Definition toggled (layerName : string) (ls : LayerState) : LayerState :=
  mkLayerState (current ls)
    (toggles_assign layerName
       (negb (String.eqb (getCurrentLayer ls) layerName)) (toggles ls))
    (oneTime ls) (hold ls) (holdKey ls).

(** The toggle part of [getCurrentLayer]. *)
Definition toggleLayer (ts : list (string * bool)) : string :=
  match firstActiveToggle ts with
  | Some layer => layer
  | None => "base"
  end.

(** No toggle other than [layerName] is on. *)
Definition no_other_toggle (layerName : string) (ts : list (string * bool)) : Prop :=
  forall l, l <> layerName -> toggles_find l ts <> Some true.

(** What the dispatcher hands to the manager, one event at a time. *)
Inductive KeyEvent :=
| Down (keyName : string) (keyCode : Z) (eventType : string)
| Up (keyCode : Z).

Definition handle (e : KeyEvent) (m : LayoutManager) : LayoutManager :=
  match e with
  | Down keyName keyCode eventType =>
      snd (processKeyEvent keyName keyCode eventType m)
  | Up keyCode => handleKeyRelease keyCode m
  end.

Definition handle_all (es : list KeyEvent) (m : LayoutManager) : LayoutManager :=
  fold_left (fun m e => handle e m) es m.

(** The event is a press or repeat of a hold-type layer key for [layerName],
    sent with key code [keyCode]. *)
Definition hold_press (m : LayoutManager) (e : KeyEvent) (layerName : string)
    (keyCode : Z) : Prop :=
  exists keyName eventType,
    e = Down keyName keyCode eventType
    /\ press_or_repeat eventType
    /\ layer_key m keyName (mkLayerKeyConfig layerName Hold).

Definition is_hold_press (m : LayoutManager) (e : KeyEvent) : Prop :=
  exists layerName keyCode, hold_press m e layerName keyCode.

(** In the run [es], a hold key for [layerName] went down with code
    [keyCode], and since then that code was not released and no other hold
    key went down. *)
Definition held (m : LayoutManager) (es : list KeyEvent) (layerName : string)
    (keyCode : Z) : Prop :=
  exists before e after,
    es = before ++ e :: after
    /\ hold_press m e layerName keyCode
    /\ Forall (fun e' => e' <> Up keyCode /\ ~ is_hold_press m e') after.

(** A manager right after construction: no layer is held or armed. *)
Definition fresh (m : LayoutManager) : Prop :=
  hold (layerState m) = "" /\ holdKey (layerState m) = (-1)%Z
  /\ oneTime (layerState m) = "".

End LayoutSpec.

(** ** Worked examples *)

Module Example.

Import Layout.

(** Four keys; the last three carry the layer keys [ly1] (toggle [sym]),
    [ly2] (hold [nav]) and [ly3] (onetime [fn]). *)
Definition demo_keys : list (string * KeyConfigDoc) :=
  [("sym", mkKeyConfigDoc ["ly1"] (Some "toggle"));
   ("nav", mkKeyConfigDoc ["ly2"] (Some "hold"));
   ("fn", mkKeyConfigDoc ["ly3"] (Some "onetime"))].

Definition demo_doc : LayoutDoc :=
  mkLayoutDoc
    (Some ["key_a"; "key_b"; "key_c"; "key_d"])
    (Some [("base", Some ["x"; "ly1"; "ly2"; "ly3"]);
           ("sym", Some ["y"; ""; ""; ""]);
           ("nav", Some ["n"; ""; ""; ""]);
           ("fn", Some ["f"; ""; ""; ""])])
    (Some demo_keys).

(** The same layout without the table of the layer [fn]. *)
Definition demo_doc_without_fn : LayoutDoc :=
  mkLayoutDoc
    (Some ["key_a"; "key_b"; "key_c"; "key_d"])
    (Some [("base", Some ["x"; "ly1"; "ly2"; "ly3"]);
           ("sym", Some ["y"; ""; ""; ""]);
           ("nav", Some ["n"; ""; ""; ""])])
    (Some demo_keys).

(** A layout whose layer key [x] lacks the prefix [ly]. *)
Definition demo_doc_unprefixed : LayoutDoc :=
  mkLayoutDoc
    (Some ["key_a"; "key_b"])
    (Some [("base", Some ["x"; "b"]); ("sym", Some ["y"; "z"])])
    (Some [("sym", mkKeyConfigDoc ["x"] (Some "hold"))]).

Definition layouts_with (doc : LayoutDoc) (name : string) : LayoutFile :=
  if String.eqb name "default" then LayoutParsed doc else LayoutNotFound.

(** A manager that stands in when a load fails. *)
Definition no_manager : LayoutManager :=
  mkLayoutManager (mkDisk FileMissing false) ∅ [] ∅
                  (mkLayerState "" [] "" "" (-1)) ∅.

Definition started (disk : Disk) (doc : LayoutDoc) : LayoutManager :=
  match LayoutManager_new disk (layouts_with doc) with
  | inr m => m
  | inl _ => no_manager
  end.

(** First start: no state file yet. *)
Definition demo : LayoutManager := started (mkDisk FileMissing true) demo_doc.

Definition demo_without_fn : LayoutManager :=
  started (mkDisk FileMissing true) demo_doc_without_fn.

Definition demo_unprefixed : LayoutManager :=
  started (mkDisk FileMissing true) demo_doc_unprefixed.

(** A layout whose hold key [ly1] is registered for a layer of the empty
    name. *)
Definition demo_doc_unnamed : LayoutDoc :=
  mkLayoutDoc
    (Some ["key_a"; "key_b"])
    (Some [("base", Some ["x"; "ly1"])])
    (Some [("", mkKeyConfigDoc ["ly1"] (Some "hold"))]).

Definition demo_unnamed : LayoutManager :=
  started (mkDisk FileMissing true) demo_doc_unnamed.

Definition press (keyName : string) (keyCode : Z) (m : LayoutManager)
  : LayoutManager :=
  snd (processKeyEvent keyName keyCode "press" m).

End Example.

(** ** Vocabulary for the statements about the capture loop *)

Module InputSpec.

Import Input.
Local Open Scope Z_scope.

(** The emergency-exit tracker as the specification words it: the matched
    codes and the time of the last match. *)
Record Tracker := mkTracker {
  matched : list Z;
  lastMatch : Z
}.

(** A key-down of a chord key at time [now]: reset after more than a
    second, append unless the code repeats the last entry, and stop the
    process ([None]) when the chord is complete. *)
Definition tracker_down (code now : Z) (tr : Tracker) : option Tracker :=
  let seq := if second <? now - lastMatch tr then [] else matched tr in
  let seq := if decide (last seq = Some code) then seq else seq ++ [code] in
  if decide (seq = EMERGENCY_EXIT) then None else Some (mkTracker seq now).

(** A raw key event: code, value and the steady-clock reading. *)
Definition RawEvent : Type := Z * Z * Z.

Definition is_chord_down (e : RawEvent) : bool :=
  let '(code, value, _) := e in
  (value =? 1) && bool_decide (code ∈ EMERGENCY_EXIT).

(** The tracker of the specification looks at key-downs of chord keys and
    at nothing else. *)
Fixpoint tracker_run (es : list RawEvent) (tr : Tracker) : option Tracker :=
  match es with
  | [] => Some tr
  | (code, value, now) :: rest =>
      if is_chord_down (code, value, now) then
        match tracker_down code now tr with
        | Some tr' => tracker_run rest tr'
        | None => None
        end
      else tracker_run rest tr
  end.

(** The code's tracker sees every key event. *)
Fixpoint exit_run (es : list RawEvent) (s : Capture) : option Capture :=
  match es with
  | [] => Some s
  | (code, value, now) :: rest =>
      match checkEmergencyExit code value now s with
      | Some s' => exit_run rest s'
      | None => None
      end
  end.

(** The readings of the steady clock never go back, starting from [t]. *)
Fixpoint monotone_from (t : Z) (es : list RawEvent) : Prop :=
  match es with
  | [] => True
  | (_, _, now) :: rest => t <= now /\ monotone_from now rest
  end.

(** The code's tracker state stands for the tracker [tr] at time [t]: the
    same last match, and the same sequence unless the code has already
    dropped one that [tr] will drop at its next match. *)
Definition tracks (t : Z) (s : Capture) (tr : Tracker) : Prop :=
  exitTimeout s = lastMatch tr
  /\ (exitSequence s = matched tr
      \/ (exitSequence s = [] /\ second < t - lastMatch tr)).

(** The tracker fields of the capture state. *)
Definition tracker_of (s : Capture) : Tracker :=
  mkTracker (exitSequence s) (exitTimeout s).

(** Names for the keys of the examples. *)
Definition key_names (code : Z) : string :=
  if code =? KEY_A then "key_a"
  else if code =? KEY_BACKSPACE then "key_backspace"
  else "key".

(** The timer checks of the cycles from [start], [n] of them, 5ms apart. *)
Fixpoint ticks (n : nat) (start : Z) : list Action :=
  match n with
  | O => []
  | S n' => Tick start :: ticks n' (start + ms 5)
  end.

(** The times at which Repeat events for [code] were queued. *)
Definition repeat_times (code : Z) (s : Capture) : list Z :=
  omap (fun e =>
          match ev_type e with
          | EventType.Repeat =>
              if keyCode e =? code then Some (timestamp e) else None
          | _ => None
          end)
       (eventQueue s).

(** The key A held down from time 0, with the timer checked every 5ms for
    700ms. *)
Definition hold_a : list Action :=
  Key KEY_A 1 0 0 :: ticks 140 (ms 5).

(** Backspace held for a second and released, then the key A held down
    from 1100ms on, with the timer checked every 5ms throughout. *)
Definition backspace_then_a : list Action :=
  Key KEY_BACKSPACE 1 0 0 :: ticks 199 (ms 5)
  ++ Key KEY_BACKSPACE 0 (ms 1000) (ms 1000) :: ticks 19 (ms 1005)
  ++ Key KEY_A 1 (ms 1100) (ms 1100) :: ticks 110 (ms 1105).

Definition final (acts : list Action) : Capture :=
  default Capture_init (run key_names acts Capture_init).

End InputSpec.

(** ** Vocabulary for the statements about the device selector *)

Module DeviceSpec.

Import Layout DeviceSelector.
Local Open Scope Z_scope.

(** The name contains [keyboard] in any mix of upper and lower case. *)
Definition mentions_keyboard (name : string) : bool :=
  strstr (toLower name) "keyboard".

(** A device that passes the four tests, with the given physical address,
    name and descriptor. *)
Definition keyboard_device (phys : string) (name : string) (fd : Z) : Device :=
  mkDevice true true false false (fun _ => true) (Some phys) (Some name) fd.

(** Endpoint 0, no [keyboard] in the name. *)
Definition plain_device : Device := keyboard_device "input0" "Generic HID" 3.

(** Endpoint 2, [Keyboard] with a capital in the name. *)
Definition named_device : Device := keyboard_device "input2" "USB Keyboard" 4.

End DeviceSpec.

(** ** Vocabulary for the statements about loading *)

Module LoadSpec.

Import Layout.

(** The entry of [layer_keys] does not register [key]: it is the entry of
    the base layer, or its key list lacks [key]. *)
Definition skips (key : string) (entry : string * KeyConfigDoc) : Prop :=
  entry.1 = "base" \/ key ∉ cfg_key entry.2.

(** [f] is the index of the first entry of the name [k]: the entry that
    [node[k]] stands for. *)
Definition first_entry (names : list string) (k : string) (f : nat) : Prop :=
  names !! f = Some k /\ forall j, (j < f)%nat -> names !! j <> Some k.

(** What holds of the layers [st] before the turn of the second loop on
    the entry at index [i], for the layers [ls] of the document: the names
    are those of the document; every entry is one of the document or the
    fitted form of one of that name; the first entries of the names met so
    far have the length [sourceLength]. *)
Definition visited (sourceLength : nat)
    (ls : list (string * option (list string))) (i : nat)
    (st : list (string * option (list string))) : Prop :=
  st.*1 = ls.*1
  /\ (forall j k v, st !! j = Some (k, v) ->
        (k, v) ∈ ls
        \/ exists layer, (k, Some layer) ∈ ls
             /\ v = Some (fitLayer sourceLength layer))
  /\ (forall f k, (f < i)%nat -> first_entry ls.*1 k f ->
        exists layer, st !! f = Some (k, Some layer)
                      /\ length layer = sourceLength).

(** Without a repeated name, the entries before [i] are fitted and the
    others are as in the document. *)
Definition plain (sourceLength : nat)
    (ls : list (string * option (list string))) (i : nat)
    (st : list (string * option (list string))) : Prop :=
  forall j,
    ((j < i)%nat ->
       forall entry, ls !! j = Some entry ->
         exists layer, entry.2 = Some layer
           /\ st !! j = Some (entry.1, Some (fitLayer sourceLength layer)))
    /\ ((i <= j)%nat -> st !! j = ls !! j).

End LoadSpec.

(** ** Further examples *)

Module LoadExample.

Import Layout Example.

(** A layout whose [source] lists [key_a] twice. *)
Definition doc_repeated_key : LayoutDoc :=
  mkLayoutDoc
    (Some ["key_a"; "key_a"; "key_b"])
    (Some [("base", Some ["a"; "b"; "c"])])
    None.

Definition repeated_key : LayoutManager :=
  started (mkDisk FileMissing true) doc_repeated_key.

(** A layout with two layers of the name [base], a short one and then a
    long one. *)
Definition doc_repeated_layer : LayoutDoc :=
  mkLayoutDoc
    (Some ["key_a"; "key_b"])
    (Some [("base", Some ["a"]); ("base", Some ["x"; "y"; "z"])])
    None.

Definition repeated_layer : LayoutManager :=
  started (mkDisk FileMissing true) doc_repeated_layer.

End LoadExample.

(** ** Vocabulary for the statements about the event queue *)

Module CaptureSpec.

Import Input EventQueue.
Local Open Scope Z_scope.

(** The kind of a queued event agrees with its key: Modifier and RawKey
    events carry a modifier key, the other kinds a key that is none. *)
Definition kind_matches_code (e : InputEvent) : Prop :=
  match ev_type e with
  | EventType.Modifier | EventType.RawKey => is_Some (MODIFIER_MAP (keyCode e))
  | _ => MODIFIER_MAP (keyCode e) = None
  end.

(** The times [ts] start no earlier than [bound] and lie at least [gap]
    apart. *)
Fixpoint spaced (bound gap : Z) (ts : list Z) : Prop :=
  match ts with
  | [] => True
  | t :: rest => bound <= t /\ spaced (t + gap) gap rest
  end.

(** [n] calls of [getEvent], one after the other: the events they return
    and the state they leave. *)
Fixpoint take_events (n : nat) (s : Capture) : list InputEvent * Capture :=
  match n with
  | O => ([], s)
  | S n' =>
      match getEvent s with
      | (Some event, s') =>
          let '(events, s'') := take_events n' s' in (event :: events, s'')
      | (None, s') => ([], s')
      end
  end.

End CaptureSpec.

(** ** Further devices *)

Module SelectorExample.

Import DeviceSelector DeviceSpec.
Local Open Scope Z_scope.

(** A keyboard whose physical address is the path the kernel gives to a
    USB device. *)
Definition usb_device : Device :=
  keyboard_device "usb-0000:00:14.0-1/input0" "Generic USB keyboard" 5.

End SelectorExample.

(** ** Vocabulary for the statements about the dispatch loop *)

Module DispatchSpec.

Import Layout Input Dispatcher.

(** The key and the value a call forwards to the virtual keyboard. *)
Definition forwarded (c : SinkCall) : option (Z * Z) :=
  match c with
  | ForwardEvent keyCode value => Some (keyCode, value)
  | SendUnicode _ => None
  end.

(** The key and the value of a RawKey event. *)
Definition raw_key (e : InputEvent * Modifiers) : option (Z * Z) :=
  match ev_type e.1 with
  | EventType.RawKey => Some (keyCode e.1, value e.1)
  | _ => None
  end.

(** What an event of the queue means to the layout manager. *)
Definition key_event (e : InputEvent * Modifiers) : option LayoutSpec.KeyEvent :=
  match ev_type e.1 with
  | EventType.Press => Some (LayoutSpec.Down (keyName e.1) (keyCode e.1) "press")
  | EventType.Repeat => Some (LayoutSpec.Down (keyName e.1) (keyCode e.1) "repeat")
  | EventType.Release => Some (LayoutSpec.Up (keyCode e.1))
  | _ => None
  end.

End DispatchSpec.

(** * Properties *)

(** ** The decoder *)

Module Utf8Facts.

Import Bytes Utf8 Utf8Spec.
Local Open Scope Z_scope.

Lemma uchar_range ch : 0 <= uchar ch < 256.
Proof.
  unfold uchar. pose proof (N_ascii_bounded ch). lia.
Qed.

Lemma uchar_to_char z : 0 <= z < 256 -> uchar (to_char z) = z.
Proof.
  intros Hz. unfold uchar, to_char.
  rewrite Z.mod_small by lia.
  rewrite N_ascii_embedding by lia. lia.
Qed.

(** The mask tests of the decoder, read as ranges of the byte. *)
Lemma mask_tests_char ch :
  let b := uchar ch in
  (Z.land b 0x80 =? 0x00) = (b <? 0x80)
  /\ (Z.land b 0xE0 =? 0xC0) = ((0xC0 <=? b) && (b <? 0xE0))
  /\ (Z.land b 0xF0 =? 0xE0) = ((0xE0 <=? b) && (b <? 0xF0))
  /\ (Z.land b 0xF8 =? 0xF0) = ((0xF0 <=? b) && (b <? 0xF8))
  /\ (Z.land b 0xC0 =? 0x80) = ((0x80 <=? b) && (b <? 0xC0)).
Proof.
  destruct ch as [[] [] [] [] [] [] [] []]; vm_compute; repeat split.
Qed.

Lemma mask_tests b :
  0 <= b < 256 ->
  (Z.land b 0x80 =? 0x00) = (b <? 0x80)
  /\ (Z.land b 0xE0 =? 0xC0) = ((0xC0 <=? b) && (b <? 0xE0))
  /\ (Z.land b 0xF0 =? 0xE0) = ((0xE0 <=? b) && (b <? 0xF0))
  /\ (Z.land b 0xF8 =? 0xF0) = ((0xF0 <=? b) && (b <? 0xF8))
  /\ (Z.land b 0xC0 =? 0x80) = ((0x80 <=? b) && (b <? 0xC0)).
Proof.
  intros Hb. rewrite <- (uchar_to_char b Hb). apply mask_tests_char.
Qed.

(** Bits that do not overlap add up. *)
Lemma lor_shiftl_low x y k :
  0 <= k -> 0 <= y < 2 ^ k -> Z.lor (Z.shiftl x k) y = x * 2 ^ k + y.
Proof.
  intros Hk Hy.
  rewrite Z.shiftl_mul_pow2 by assumption.
  assert (Hland : Z.land (x * 2 ^ k) y = 0).
  { apply Z.bits_inj'. intros n Hn.
    rewrite Z.land_spec, Z.bits_0.
    destruct (Z.lt_ge_cases n k) as [Hlt | Hge].
    - rewrite Z.mul_pow2_bits_low by lia. reflexivity.
    - destruct (Z.eq_dec y 0) as [-> | Hy0].
      + rewrite Z.bits_0. apply andb_false_r.
      + assert (Hlog : Z.log2 y < k) by (apply Z.log2_lt_pow2; lia).
        rewrite (Z.bits_above_log2 y n) by lia. apply andb_false_r. }
  rewrite <- Z.lxor_lor by assumption.
  symmetry. apply Z.add_nocarry_lxor. assumption.
Qed.

Lemma lor_low hi x k :
  0 <= k -> hi mod 2 ^ k = 0 -> 0 <= x < 2 ^ k -> Z.lor hi x = hi + x.
Proof.
  intros Hk Hhi Hx.
  assert (Hpos : 0 < 2 ^ k) by (apply Z.pow_pos_nonneg; lia).
  pose proof (Z.div_mod hi (2 ^ k) ltac:(lia)) as Hdm.
  rewrite Hhi, Z.add_0_r in Hdm.
  rewrite Hdm at 1. rewrite Z.mul_comm, <- Z.shiftl_mul_pow2 by assumption.
  rewrite lor_shiftl_low by assumption. lia.
Qed.

Lemma land_low b k : 0 <= k -> Z.land b (Z.ones k) = b mod 2 ^ k.
Proof. intros Hk. apply Z.land_ones. assumption. Qed.

(** The fields the encoder cuts out of a code point. *)
Lemma field6 c k : 0 <= k -> Z.land (Z.shiftr c k) 0x3F = (c / 2 ^ k) mod 64.
Proof.
  intros Hk. change 0x3F with (Z.ones 6).
  rewrite land_low, Z.shiftr_div_pow2 by lia. reflexivity.
Qed.

Lemma field6_0 c : Z.land c 0x3F = c mod 64.
Proof. change 0x3F with (Z.ones 6). rewrite land_low by lia. reflexivity. Qed.

(** A continuation byte as the encoder builds it. *)
Lemma continuation_byte y :
  0 <= y < 64 ->
  let b := Z.lor 0x80 y in
  b = 128 + y /\ 0 <= b < 256
  /\ (Z.land b 0xC0 =? 0x80) = true /\ Z.land b 0x3F = y.
Proof.
  intros Hy b.
  assert (Hb : b = 128 + y).
  { unfold b. apply (lor_low 0x80 y 6); [lia | reflexivity | exact Hy]. }
  assert (Hr : 0 <= b < 256) by lia.
  destruct (mask_tests b Hr) as (_ & _ & _ & _ & Hc).
  split; [exact Hb |]. split; [exact Hr |]. split.
  - rewrite Hc. apply andb_true_intro. split; [apply Z.leb_le | apply Z.ltb_lt]; lia.
  - rewrite field6_0, Hb. Z.div_mod_to_equations. lia.
Qed.

(** A string whose first character differs from that of a literal is not
    that literal. *)
Lemma eqb_first_differs a rest x lit :
  uchar a <> uchar x -> String.eqb (String a rest) (String x lit) = false.
Proof.
  intros Hne. cbn [String.eqb].
  destruct (Ascii.eqb_spec a x) as [-> | _]; [contradiction | reflexivity].
Qed.

(** Decide the comparisons left in the goal from the bounds at hand. *)
Ltac decide_tests :=
  repeat match goal with
    | |- context [?x <? ?y] =>
        first [ rewrite (proj2 (Z.ltb_lt x y)) by lia
              | rewrite (proj2 (Z.ltb_ge x y)) by lia ]
    | |- context [?x <=? ?y] =>
        first [ rewrite (proj2 (Z.leb_le x y)) by lia
              | rewrite (proj2 (Z.leb_gt x y)) by lia ]
    end;
  cbn [andb orb negb].

(** Past the escapes: a string that starts with neither a backslash nor a
    space is decoded as UTF-8. *)
Ltac skip_escapes :=
  unfold stringToChar32;
  change (String.eqb (String ?a ?r) "") with false; cbv iota;
  rewrite !eqb_first_differs by (vm_compute uchar at 2; lia).

Lemma roundtrip_1 c : 0 <= c <= 0x7F -> stringToChar32 (utf32ToUtf8 c) = Some c.
Proof.
  intros Hc. unfold utf32ToUtf8.
  destruct (Z.leb_spec c 0x7F); [| lia].
  pose proof (uchar_to_char c ltac:(lia)) as Hu.
  set (a := to_char c) in *.
  unfold stringToChar32.
  change (String.eqb (String a "") "") with false. cbv iota.
  change (String.eqb (String a "") "\n") with (Ascii.eqb a "\" && false).
  change (String.eqb (String a "") "\t") with (Ascii.eqb a "\" && false).
  change (String.eqb (String a "") "\b") with (Ascii.eqb a "\" && false).
  change (String.eqb (String a "") "\x1b") with (Ascii.eqb a "\" && false).
  rewrite !andb_false_r.
  change (String.eqb (String a "") " ") with (Ascii.eqb a " " && true).
  rewrite andb_true_r.
  destruct (Ascii.eqb_spec a " ") as [Heq | _].
  - rewrite Heq in Hu. vm_compute in Hu. congruence.
  - cbn [at_uchar String.get]. rewrite Hu.
    destruct (mask_tests c ltac:(lia)) as (M & _). rewrite M.
    decide_tests. reflexivity.
Qed.

(** A leading byte as the encoder builds it: the marker [hi], whose low
    [k] bits are clear, with the field [y] below it. *)
Lemma leading_byte hi k y :
  0 <= k -> hi mod 2 ^ k = 0 -> 0 <= y < 2 ^ k -> 0 <= hi -> hi + 2 ^ k <= 256 ->
  let b := Z.lor hi y in
  b = hi + y /\ 0 <= b < 256 /\ Z.land b (Z.ones k) = y.
Proof.
  intros Hk Hhi Hy Hpos Hmax b.
  assert (Hb : b = hi + y) by (unfold b; apply (lor_low hi y k); assumption).
  split; [exact Hb |]. split; [lia |].
  rewrite land_low, Hb by assumption.
  assert (Hp : 0 < 2 ^ k) by (apply Z.pow_pos_nonneg; lia).
  pose proof (Z.div_mod hi (2 ^ k) ltac:(lia)) as Hdm.
  rewrite Hhi, Z.add_0_r in Hdm.
  rewrite Hdm, Z.add_comm, Z.mul_comm, Z_mod_plus_full.
  apply Z.mod_small. exact Hy.
Qed.

Lemma roundtrip_2 c :
  0x80 <= c <= 0x7FF -> stringToChar32 (utf32ToUtf8 c) = Some c.
Proof.
  intros Hc. unfold utf32ToUtf8.
  destruct (Z.leb_spec c 0x7F); [lia |].
  destruct (Z.leb_spec c 0x7FF); [| lia].
  rewrite field6_0. change 0x1F with (Z.ones 5).
  rewrite land_low, Z.shiftr_div_pow2 by lia.
  change (2 ^ 6) with 64. change (2 ^ 5) with 32.
  set (y1 := (c / 64) mod 32). set (y2 := c mod 64).
  assert (H1 : 0 <= y1 < 32) by (apply Z.mod_pos_bound; lia).
  assert (H2 : 0 <= y2 < 64) by (apply Z.mod_pos_bound; lia).
  destruct (leading_byte 0xC0 5 y1) as (B1 & R1 & L1); try (reflexivity || lia).
  destruct (continuation_byte y2 H2) as (B2 & R2 & C2 & L2).
  set (b1 := Z.lor 0xC0 y1) in *. set (b2 := Z.lor 0x80 y2) in *.
  pose proof (uchar_to_char b1 R1) as U1. pose proof (uchar_to_char b2 R2) as U2.
  unfold stringToChar32.
  change (String.eqb (String ?a ?r) "") with false. cbv iota.
  rewrite !eqb_first_differs by (rewrite U1; vm_compute uchar; lia).
  cbn [at_uchar String.get]. simpl (str_size _). rewrite U1, U2.
  destruct (mask_tests b1 R1) as (M1 & M2 & _). rewrite M1, M2, C2.
  change (Z.land b1 31) with (Z.land b1 (Z.ones 5)). rewrite L1, L2.
  decide_tests.
  rewrite lor_shiftl_low by lia. f_equal.
  unfold y1, y2. change (2 ^ 6) with 64. Z.div_mod_to_equations. lia.
Qed.

Lemma roundtrip_3 c :
  0x800 <= c <= 0xFFFF -> stringToChar32 (utf32ToUtf8 c) = Some c.
Proof.
  intros Hc. unfold utf32ToUtf8.
  destruct (Z.leb_spec c 0x7F) as [? | _]; [lia |].
  destruct (Z.leb_spec c 0x7FF) as [? | _]; [lia |].
  destruct (Z.leb_spec c 0xFFFF) as [_ | ?]; [| lia].
  rewrite field6, field6_0 by lia. change 0x0F with (Z.ones 4).
  rewrite land_low, Z.shiftr_div_pow2 by lia.
  change (2 ^ 12) with 4096. change (2 ^ 6) with 64. change (2 ^ 4) with 16.
  set (y1 := (c / 4096) mod 16). set (y2 := (c / 64) mod 64).
  set (y3 := c mod 64).
  assert (H1 : 0 <= y1 < 16) by (apply Z.mod_pos_bound; lia).
  assert (H2 : 0 <= y2 < 64) by (apply Z.mod_pos_bound; lia).
  assert (H3 : 0 <= y3 < 64) by (apply Z.mod_pos_bound; lia).
  destruct (leading_byte 0xE0 4 y1) as (B1 & R1 & L1); try (reflexivity || lia).
  destruct (continuation_byte y2 H2) as (B2 & R2 & C2 & L2).
  destruct (continuation_byte y3 H3) as (B3 & R3 & C3 & L3).
  set (b1 := Z.lor 0xE0 y1) in *. set (b2 := Z.lor 0x80 y2) in *.
  set (b3 := Z.lor 0x80 y3) in *.
  pose proof (uchar_to_char b1 R1) as U1. pose proof (uchar_to_char b2 R2) as U2.
  pose proof (uchar_to_char b3 R3) as U3.
  unfold stringToChar32.
  change (String.eqb (String ?a ?r) "") with false. cbv iota.
  rewrite !eqb_first_differs by (rewrite U1; vm_compute uchar; lia).
  cbn [at_uchar String.get]. simpl (str_size _). rewrite U1, U2, U3.
  destruct (mask_tests b1 R1) as (M1 & M2 & M3 & _). rewrite M1, M2, M3, C2, C3.
  change (Z.land b1 15) with (Z.land b1 (Z.ones 4)). rewrite L1, L2, L3.
  decide_tests.
  rewrite (Z.shiftl_mul_pow2 y2) by lia.
  rewrite lor_shiftl_low by (change (2 ^ 12) with 4096; change (2 ^ 6) with 64; lia).
  change (2 ^ 12) with 4096. change (2 ^ 6) with 64.
  rewrite (lor_low _ y3 6);
    [| lia | change (2 ^ 6) with 64; Z.div_mod_to_equations; lia
     | change (2 ^ 6) with 64; lia ].
  f_equal. unfold y1, y2, y3. Z.div_mod_to_equations. lia.
Qed.

Lemma roundtrip_4 c :
  0x10000 <= c <= 0x10FFFF -> stringToChar32 (utf32ToUtf8 c) = Some c.
Proof.
  intros Hc. unfold utf32ToUtf8.
  destruct (Z.leb_spec c 0x7F) as [? | _]; [lia |].
  destruct (Z.leb_spec c 0x7FF) as [? | _]; [lia |].
  destruct (Z.leb_spec c 0xFFFF) as [? | _]; [lia |].
  destruct (Z.leb_spec c 0x10FFFF) as [_ | ?]; [| lia].
  rewrite !field6, field6_0 by lia. change 0x07 with (Z.ones 3).
  rewrite land_low, Z.shiftr_div_pow2 by lia.
  change (2 ^ 18) with 262144. change (2 ^ 12) with 4096.
  change (2 ^ 6) with 64. change (2 ^ 3) with 8.
  set (y1 := (c / 262144) mod 8). set (y2 := (c / 4096) mod 64).
  set (y3 := (c / 64) mod 64). set (y4 := c mod 64).
  assert (H1 : 0 <= y1 < 8) by (apply Z.mod_pos_bound; lia).
  assert (H2 : 0 <= y2 < 64) by (apply Z.mod_pos_bound; lia).
  assert (H3 : 0 <= y3 < 64) by (apply Z.mod_pos_bound; lia).
  assert (H4 : 0 <= y4 < 64) by (apply Z.mod_pos_bound; lia).
  destruct (leading_byte 0xF0 3 y1) as (B1 & R1 & L1); try (reflexivity || lia).
  destruct (continuation_byte y2 H2) as (B2 & R2 & C2 & L2).
  destruct (continuation_byte y3 H3) as (B3 & R3 & C3 & L3).
  destruct (continuation_byte y4 H4) as (B4 & R4 & C4 & L4).
  set (b1 := Z.lor 0xF0 y1) in *. set (b2 := Z.lor 0x80 y2) in *.
  set (b3 := Z.lor 0x80 y3) in *. set (b4 := Z.lor 0x80 y4) in *.
  pose proof (uchar_to_char b1 R1) as U1. pose proof (uchar_to_char b2 R2) as U2.
  pose proof (uchar_to_char b3 R3) as U3. pose proof (uchar_to_char b4 R4) as U4.
  unfold stringToChar32.
  change (String.eqb (String ?a ?r) "") with false. cbv iota.
  rewrite !eqb_first_differs by (rewrite U1; vm_compute uchar; lia).
  cbn [at_uchar String.get]. simpl (str_size _). rewrite U1, U2, U3, U4.
  destruct (mask_tests b1 R1) as (M1 & M2 & M3 & M4 & _).
  rewrite M1, M2, M3, M4, C2, C3, C4.
  change (Z.land b1 7) with (Z.land b1 (Z.ones 3)). rewrite L1, L2, L3, L4.
  decide_tests.
  rewrite (Z.shiftl_mul_pow2 y2), (Z.shiftl_mul_pow2 y3) by lia.
  rewrite lor_shiftl_low
    by (change (2 ^ 18) with 262144; change (2 ^ 12) with 4096; lia).
  change (2 ^ 18) with 262144. change (2 ^ 12) with 4096. change (2 ^ 6) with 64.
  rewrite (lor_low _ (y3 * 64) 12);
    [| lia | change (2 ^ 12) with 4096; Z.div_mod_to_equations; lia
     | change (2 ^ 12) with 4096; lia ].
  rewrite (lor_low _ y4 6);
    [| lia | change (2 ^ 6) with 64; Z.div_mod_to_equations; lia
     | change (2 ^ 6) with 64; lia ].
  f_equal. unfold y1, y2, y3, y4. Z.div_mod_to_equations. lia.
Qed.

(** Decoding undoes encoding on every code point up to U+10FFFF. *)
Lemma roundtrip c :
  0 <= c <= 0x10FFFF -> stringToChar32 (utf32ToUtf8 c) = Some c.
Proof.
  intros Hc.
  destruct (Z.le_gt_cases c 0x7F); [apply roundtrip_1; lia |].
  destruct (Z.le_gt_cases c 0x7FF); [apply roundtrip_2; lia |].
  destruct (Z.le_gt_cases c 0xFFFF); [apply roundtrip_3; lia |].
  apply roundtrip_4; lia.
Qed.

(** Replace every mask test on a character by the range test it stands for. *)
Ltac range_tests :=
  repeat match goal with
    | |- context [Z.land (uchar ?a) _ =? _] =>
        let M1 := fresh in let M2 := fresh in let M3 := fresh in
        let M4 := fresh in let M5 := fresh in
        destruct (mask_tests (uchar a) (uchar_range a)) as (M1 & M2 & M3 & M4 & M5);
        rewrite ?M1, ?M2, ?M3, ?M4, ?M5; clear M1 M2 M3 M4 M5
    end.

Ltac split_tests :=
  repeat (match goal with
          | |- context [?x <? ?y] => destruct (Z.ltb_spec x y)
          | |- context [?x <=? ?y] => destruct (Z.leb_spec x y)
          end; cbn [andb]);
  try reflexivity; try (exfalso; lia).

Lemma bad_leading_byte a rest :
  pattern_length (uchar a) = None -> stringToChar32 (String a rest) = None.
Proof.
  unfold pattern_length. intros Hb.
  assert (Hr : 0x80 <= uchar a < 0xC0 \/ 0xF8 <= uchar a).
  { revert Hb. repeat match goal with
      | |- context [?x <? ?y] => destruct (Z.ltb_spec x y) end;
      intros; try discriminate; lia. }
  clear Hb.
  unfold stringToChar32.
  change (String.eqb (String ?a ?r) "") with false. cbv iota.
  rewrite !eqb_first_differs by (vm_compute (uchar "\"); vm_compute (uchar " "); lia).
  cbn [at_uchar String.get].
  range_tests. destruct Hr; decide_tests; reflexivity.
Qed.

Lemma byte_at_0 str b :
  byte_at str 0 = Some b -> exists a rest, str = String a rest /\ b = uchar a.
Proof.
  destruct str as [| a rest]; cbn; [discriminate |].
  intros [= <-]. eauto.
Qed.

Lemma bad_continuation a rest n i :
  pattern_length (uchar a) = Some n -> (1 <= i < n)%nat ->
  (forall x, byte_at (String a rest) i = Some x -> ~ continuation x) ->
  stringToChar32 (String a rest) = None.
Proof.
  unfold pattern_length, continuation. intros Hn Hi Hbad.
  assert (Hr : uchar a < 0x80 /\ n = 1%nat
               \/ 0xC0 <= uchar a < 0xE0 /\ n = 2%nat
               \/ 0xE0 <= uchar a < 0xF0 /\ n = 3%nat
               \/ 0xF0 <= uchar a < 0xF8 /\ n = 4%nat).
  { revert Hn. repeat match goal with
      | |- context [?x <? ?y] => destruct (Z.ltb_spec x y) end;
      intros [= <-]; lia. }
  clear Hn.
  unfold stringToChar32.
  change (String.eqb (String ?a ?r) "") with false. cbv iota.
  rewrite !eqb_first_differs by (vm_compute (uchar "\"); vm_compute (uchar " "); lia).
  destruct rest as [| b [| c [| d r]]];
    cbn [at_uchar String.get]; simpl (str_size _); cbn [byte_at String.get fmap option_fmap option_map] in Hbad.
  all: range_tests.
  all: destruct Hr as [[Ha ->] | [[Ha ->] | [[Ha ->] | [Ha ->]]]]; [lia | ..].
  all: decide_tests; try reflexivity.
  all: assert (Hi' : i = 1%nat \/ i = 2%nat \/ i = 3%nat) by lia;
       destruct Hi' as [-> | [-> | ->]]; try lia;
       specialize (Hbad _ eq_refl); split_tests.
Qed.

Lemma rejected_gives_none str : rejected str -> stringToChar32 str = None.
Proof.
  intros [-> | [(b & Hb & Hbad) | (b & n & i & Hb & Hn & Hi & Hbad)]].
  - reflexivity.
  - apply byte_at_0 in Hb as (a & rest & -> & ->).
    apply bad_leading_byte. exact Hbad.
  - apply byte_at_0 in Hb as (a & rest & -> & ->).
    apply (bad_continuation a rest n i); assumption.
Qed.

(** The decoder's way out of a sequence it does not decode: name the
    leading byte's length [n] and the index [i] of the failing byte. *)
Ltac reject_lead a :=
  right; left; exists (uchar a);
  split; [reflexivity | unfold pattern_length; decide_tests; reflexivity].

Ltac reject_at a n i :=
  right; right; exists (uchar a), n, i;
  split; [reflexivity |];
  split; [unfold pattern_length; decide_tests; reflexivity |];
  split; [lia |];
  cbn [byte_at String.get fmap option_fmap option_map];
  let x := fresh "x" in let Hx := fresh "Hx" in
  intros x Hx;
  first [ discriminate Hx
        | injection Hx as <-; unfold continuation; lia ].

Ltac reject a :=
  first [ solve [reject_lead a]
        | solve [reject_at a 2%nat 1%nat]
        | solve [reject_at a 3%nat 1%nat] | solve [reject_at a 3%nat 2%nat]
        | solve [reject_at a 4%nat 1%nat] | solve [reject_at a 4%nat 2%nat]
        | solve [reject_at a 4%nat 3%nat] ].

Ltac case_tests :=
  repeat (match goal with
          | |- context [?x <? ?y] => destruct (Z.ltb_spec x y)
          | |- context [?x <=? ?y] => destruct (Z.leb_spec x y)
          end; cbn [andb]).

Lemma none_is_rejected str : stringToChar32 str = None -> rejected str.
Proof.
  destruct str as [| a rest]; [intros _; left; reflexivity |].
  unfold stringToChar32.
  change (String.eqb (String a rest) "") with false. cbv iota.
  repeat match goal with
         | |- context [String.eqb (String a rest) ?lit] =>
             destruct (String.eqb (String a rest) lit); [discriminate |]
         end.
  unfold rejected, broken.
  destruct rest as [| b [| c [| d r]]];
    cbn [at_uchar String.get]; simpl (str_size _);
    range_tests; case_tests;
    let H := fresh "Hnone" in
    intros H; try discriminate H; clear H;
    unfold str_size in *; cbn [String.length] in *;
    try (exfalso; lia); reject a.
Qed.

Ltac lead_cases :=
  unfold pattern_length, announced;
  repeat match goal with
         | |- context [?x <? ?y] => destruct (Z.ltb_spec x y)
         end;
  intros; try discriminate; try reflexivity; try assumption; try lia.

Lemma announced_pattern b n :
  announced b = Some n -> pattern_length b = Some n.
Proof. lead_cases. Qed.

Lemma pattern_none b : pattern_length b = None -> announced b = None.
Proof. lead_cases. Qed.

Lemma extra_leads b n :
  announced b = None -> pattern_length b = Some n ->
  b = 0xC0 \/ b = 0xC1 \/ 0xF5 <= b <= 0xF7.
Proof. lead_cases. Qed.

(** C8, as the specification states it, fails: the bytes C0 80 are malformed
    UTF-8, since no well-formed sequence starts with C0, and so are F5 80
    80 80; the decoder returns the characters 0 and 0x140000 for them. *)
Lemma overlong_form_is_decoded :
  let overlong := String (ascii_of_N 0xC0) (String (ascii_of_N 0x80) "") in
  let beyond :=
    String (ascii_of_N 0xF5)
      (String (ascii_of_N 0x80)
         (String (ascii_of_N 0x80) (String (ascii_of_N 0x80) ""))) in
  malformed overlong /\ stringToChar32 overlong = Some 0
  /\ malformed beyond /\ stringToChar32 beyond = Some 0x140000.
Proof.
  cbv zeta. split; [| split; [| split]].
  - right. left. exists 0xC0. split; reflexivity.
  - reflexivity.
  - right. left. exists 0xF5. split; reflexivity.
  - reflexivity.
Qed.

(** C8, amended.  The decoder maps the escapes \n, \t, \b, \x1b and the
    single space to the characters 10, 9, 8, 27 and 32, and it returns
    every Unicode scalar value from the one to four bytes [utf32ToUtf8]
    encodes it in.  It returns no character, as a value of its result
    type, exactly on the sequences that are broken by the bit pattern of
    the leading byte: the empty string, a leading byte 10xxxxxx or
    11111xxx, and a continuation byte that is missing or fails the 10xxxxxx
    test.  Each of these is malformed UTF-8; the malformed sequences it
    does decode are those led by C0, C1 or F5..F7 whose continuation bytes
    are in place. *)
Theorem stringToChar32_decodes :
  (stringToChar32 "\n" = Some 10
   /\ stringToChar32 "\t" = Some 9
   /\ stringToChar32 "\b" = Some 8
   /\ stringToChar32 "\x1b" = Some 27
   /\ stringToChar32 " " = Some 32)
  /\ (forall c, unicode_scalar c ->
        (1 <= String.length (utf32ToUtf8 c) <= 4)%nat
        /\ stringToChar32 (utf32ToUtf8 c) = Some c)
  /\ (forall str, stringToChar32 str = None <-> rejected str)
  /\ (forall str, rejected str -> malformed str)
  /\ (forall str, malformed str -> ~ rejected str ->
        exists b c,
          byte_at str 0 = Some b
          /\ (b = 0xC0 \/ b = 0xC1 \/ 0xF5 <= b <= 0xF7)
          /\ stringToChar32 str = Some c).
Proof.
  split; [repeat split; reflexivity |]. split; [| split; [| split]].
  - intros c [Hc _]. split; [| apply roundtrip; exact Hc].
    unfold utf32ToUtf8.
    repeat match goal with
      | |- context [?x <=? ?y] => destruct (Z.leb_spec x y)
      end; cbn [String.length]; lia.
  - intros str. split; [apply none_is_rejected | apply rejected_gives_none].
  - intros str [-> | [(b & Hb & Hbad) | (b & n & i & Hb & Hn & Hi & Hbad)]].
    + left. reflexivity.
    + right. left. exists b. split; [exact Hb | apply pattern_none; exact Hbad].
    + destruct (announced b) as [n' |] eqn:Ha.
      * apply announced_pattern in Ha as Hp. rewrite Hn in Hp.
        injection Hp as <-.
        right. right. exists b, n, i.
        split; [exact Hb |]. split; [exact Ha |]. split; [exact Hi | exact Hbad].
      * right. left. exists b. split; assumption.
  - intros str Hmal Hnot.
    destruct (stringToChar32 str) as [c |] eqn:Hdec;
      [| exfalso; apply Hnot, none_is_rejected; exact Hdec].
    destruct Hmal as [-> | [(b & Hb & Hbad) | (b & n & i & Hb & Hn & Hi & Hbad)]].
    + discriminate.
    + exists b, c. split; [exact Hb |]. split; [| reflexivity].
      destruct (pattern_length b) as [n |] eqn:Hp;
        [exact (extra_leads b n Hbad Hp) |].
      exfalso. apply Hnot. right. left. exists b. split; assumption.
    + exfalso. apply Hnot. right. right. exists b, n, i.
      apply announced_pattern in Hn.
      split; [exact Hb |]. split; [exact Hn |]. split; [exact Hi | exact Hbad].
Qed.

(** The euro sign goes through the encoder and back, and a two-byte
    leader followed by an ASCII character is rejected. *)
Lemma stringToChar32_decodes_witness :
  (unicode_scalar 0x20AC /\ stringToChar32 (utf32ToUtf8 0x20AC) = Some 0x20AC)
  /\ (rejected (String (ascii_of_N 195) (String "("%char EmptyString))
      /\ stringToChar32 (String (ascii_of_N 195) (String "("%char EmptyString))
         = None).
Proof.
  assert (Hs : unicode_scalar 0x20AC) by (split; [lia | intros [? ?]; lia]).
  assert (Hm : rejected (String (ascii_of_N 195) (String "("%char EmptyString))).
  { right. right. exists 195, 2%nat, 1%nat.
    split; [reflexivity |]. split; [reflexivity |]. split; [lia |].
    intros x [= <-]. unfold continuation. vm_compute.
    intros [H _]. apply H. reflexivity. }
  split; split; try assumption.
  - apply (proj1 (proj2 stringToChar32_decodes)). exact Hs.
  - apply (proj1 (proj2 (proj2 stringToChar32_decodes))). exact Hm.
Defined.

End Utf8Facts.

(** ** The layout manager: loading and saving *)

Module LayoutFacts.

Import Bytes Utf8 Layout LayoutSpec Example.

(** *** The toggle map *)

Lemma toggles_find_assign_eq k v ts :
  toggles_find k (toggles_assign k v ts) = Some v.
Proof.
  induction ts as [| [k' v'] rest IH]; cbn.
  - rewrite String.eqb_refl. reflexivity.
  - destruct (String.eqb_spec k' k) as [-> | Hne]; cbn.
    + rewrite String.eqb_refl. reflexivity.
    + destruct (String.eqb_spec k' k); [contradiction | exact IH].
Qed.

Lemma toggles_find_assign_ne k k' v ts :
  k' <> k -> toggles_find k' (toggles_assign k v ts) = toggles_find k' ts.
Proof.
  intros Hne. induction ts as [| [k0 v0] rest IH]; cbn.
  - destruct (String.eqb_spec k k'); [congruence | reflexivity].
  - destruct (String.eqb_spec k0 k) as [-> | Hk0]; cbn.
    + destruct (String.eqb_spec k k'); [congruence | reflexivity].
    + destruct (String.eqb_spec k0 k'); [reflexivity | exact IH].
Qed.

Lemma toggles_find_elem k ts :
  is_Some (toggles_find k ts) <-> k ∈ ts.*1.
Proof.
  induction ts as [| [k' v'] rest IH]; cbn.
  - split; [intros [? [=]] | intros H; inversion H].
  - destruct (String.eqb_spec k' k) as [-> | Hne].
    + split; [intros _; left | eauto].
    + rewrite IH. split; [right; assumption |].
      intros H. inversion H; subst; [contradiction | assumption].
Qed.

Lemma toggles_assign_keys k v ts :
  (toggles_assign k v ts).*1
  = if decide (k ∈ ts.*1) then ts.*1 else ts.*1 ++ [k].
Proof.
  induction ts as [| [k' v'] rest IH]; cbn.
  - destruct (decide (k ∈ [])) as [H | _]; [inversion H | reflexivity].
  - destruct (String.eqb_spec k' k) as [-> | Hne]; cbn.
    + destruct (decide (k ∈ k :: rest.*1)) as [_ | H]; [reflexivity |].
      exfalso. apply H. left.
    + rewrite IH.
      destruct (decide (k ∈ rest.*1)) as [Hin | Hout],
               (decide (k ∈ k' :: rest.*1)) as [Hin' | Hout']; try reflexivity.
      * exfalso. apply Hout'. right. exact Hin.
      * exfalso. inversion Hin'; subst; [congruence | contradiction].
Qed.

Lemma toggles_assign_NoDup k v ts :
  NoDup ts.*1 -> NoDup (toggles_assign k v ts).*1.
Proof.
  intros Hnd. rewrite toggles_assign_keys. case_decide as Hin; [exact Hnd |].
  apply NoDup_app. split; [exact Hnd |]. split.
  - intros x Hx Hk. apply list_elem_of_singleton in Hk. subst. contradiction.
  - apply NoDup_singleton.
Qed.

Lemma toggles_assign_elem l b k v ts :
  (l, b) ∈ toggles_assign k v ts -> (l, b) = (k, v) \/ (l, b) ∈ ts.
Proof.
  induction ts as [| [k' v'] rest IH]; cbn.
  - intros H. apply list_elem_of_singleton in H. left. exact H.
  - destruct (String.eqb_spec k' k) as [-> | Hne]; intros H.
    + inversion H; subst; [left; reflexivity | right; right; assumption].
    + inversion H; subst; [right; left |].
      destruct (IH ltac:(assumption)) as [? | ?]; [left | right; right]; assumption.
Qed.

(** *** [loadState] reads two keys *)

Lemma loadState_has_layout file : is_Some (loadState file !! "layout").
Proof.
  unfold loadState.
  destruct file as [| | d]; repeat case_match; simplify_map_eq; eauto.
Qed.

Lemma loadState_has_layer file : is_Some (loadState file !! "layer").
Proof.
  unfold loadState.
  destruct file as [| | d]; repeat case_match; simplify_map_eq; eauto.
Qed.

Lemma loadState_other_keys file k :
  k <> "layout" -> k <> "layer" -> loadState file !! k = None.
Proof.
  intros H1 H2. unfold loadState.
  destruct file as [| | d]; repeat case_match; simplify_map_eq; reflexivity.
Qed.

(** A missing or corrupt file leaves the defaults. *)
Lemma loadState_fallback file :
  file = FileMissing \/ file = FileCorrupt ->
  loadState file !! "layout" = Some "default"
  /\ loadState file !! "layer" = Some "base".
Proof.
  intros [-> | ->]; cbn; simplify_map_eq; split; reflexivity.
Qed.

Lemma initToggles_false state layer_keys ts :
  (forall l, state !! ("toggle_" ++ l)%string = None) ->
  (forall l b, (l, b) ∈ ts -> b = false) ->
  forall l b, (l, b) ∈ initToggles state layer_keys ts -> b = false.
Proof.
  intros Hstate. revert ts.
  induction layer_keys as [| [layerName config] rest IH]; intros ts Hts l b; cbn.
  - apply Hts.
  - destruct (cfg_type config) as [t |]; [| apply IH; exact Hts].
    destruct (parseLayerType t); try (apply IH; exact Hts).
    rewrite Hstate. apply IH.
    intros l' b' Hin. apply toggles_assign_elem in Hin as [[= -> ->] | Hin];
      [reflexivity | eapply Hts; exact Hin].
Qed.

(** Whatever the state file holds, every toggle is off after the
    constructor has run. *)
Lemma startup_toggles_false disk layoutsDir m :
  LayoutManager_new disk layoutsDir = inr m ->
  forall l b, (l, b) ∈ toggles (layerState m) -> b = false.
Proof.
  unfold LayoutManager_new, loadLayout. intros Hnew l b.
  repeat case_match; try discriminate. injection Hnew as <-. cbn.
  apply initToggles_false.
  - intros l'. apply loadState_other_keys; discriminate.
  - intros l' b' Hin. inversion Hin.
Qed.

(** C1.  First start without a state file; a press of the toggle key
    turns [sym] on and [saveState] writes [toggle_sym: true].  The next
    start reads that file and comes up with the toggle off. *)
Theorem restart_loses_toggle :
  let m := press "key_b" 48 demo in
  toggles (layerState m) = [("sym", true)]
  /\ content (stateFile m)
     = FileDoc [("layout", YScalar "default"); ("layer", YScalar "base");
                ("toggle_sym", YScalar "true")]
  /\ loadState (content (stateFile m)) !! "toggle_sym" = None
  /\ toggles (layerState (started (stateFile m) demo_doc)) = [("sym", false)]
  /\ getCurrentLayer (layerState (started (stateFile m) demo_doc)) = "base".
Proof. vm_compute. repeat split. Qed.

(** *** The constructor yields a well-formed manager *)

Lemma registerKeys_origin layerName layerType keyList acc key cfg :
  registerKeys layerName layerType keyList acc !! key = Some cfg ->
  acc !! key = Some cfg \/ cfg = mkLayerKeyConfig layerName layerType.
Proof.
  unfold registerKeys. revert acc.
  induction keyList as [| k rest IH]; intros acc; cbn; [auto |].
  intros H. apply IH in H as [H | H]; [| auto].
  destruct (decide (k = key)) as [-> | Hne].
  - rewrite lookup_insert_eq in H. injection H as <-. auto.
  - rewrite lookup_insert_ne in H by assumption. auto.
Qed.

Lemma buildLayerKeys_origin layer_keys acc key cfg :
  buildLayerKeys layer_keys acc !! key = Some cfg ->
  acc !! key = Some cfg
  \/ exists config, (targetLayer cfg, config) ∈ layer_keys
       /\ targetLayer cfg <> "base" /\ type cfg = entry_type config.
Proof.
  revert acc. induction layer_keys as [| [layerName config] rest IH];
    intros acc; cbn; [auto |].
  destruct (String.eqb_spec layerName "base") as [-> | Hnb]; intros H.
  - apply IH in H as [H | (c & Hin & Hb & Ht)]; [auto |].
    right. exists c. split; [right; exact Hin | auto].
  - apply IH in H as [H | (c & Hin & Hb & Ht)].
    + apply registerKeys_origin in H as [H | ->]; [auto |].
      right. exists config. cbn. split; [left | auto].
    + right. exists c. split; [right; exact Hin | auto].
Qed.

Lemma initToggles_mono state layer_keys ts k :
  is_Some (toggles_find k ts) ->
  is_Some (toggles_find k (initToggles state layer_keys ts)).
Proof.
  revert ts. induction layer_keys as [| [layerName config] rest IH];
    intros ts Hk; cbn; [exact Hk |].
  destruct (cfg_type config) as [t |]; [| apply IH; exact Hk].
  destruct (parseLayerType t); try (apply IH; exact Hk).
  apply IH. destruct (decide (k = layerName)) as [-> | Hne].
  - rewrite toggles_find_assign_eq. eauto.
  - rewrite toggles_find_assign_ne by assumption. exact Hk.
Qed.

Lemma initToggles_covers state layer_keys ts layerName config :
  (layerName, config) ∈ layer_keys -> entry_type config = Toggle ->
  is_Some (toggles_find layerName (initToggles state layer_keys ts)).
Proof.
  unfold entry_type. revert ts.
  induction layer_keys as [| [name c] rest IH]; intros ts Hin Ht.
  - inversion Hin.
  - cbn. apply elem_of_cons in Hin as [[= <- <-] | Hin'].
    + destruct (cfg_type config) as [t |]; [| discriminate].
      rewrite Ht. apply initToggles_mono.
      rewrite toggles_find_assign_eq. eauto.
    + destruct (cfg_type c) as [t |]; [| apply IH; assumption].
      destruct (parseLayerType t); apply IH; assumption.
Qed.

Lemma initToggles_NoDup state layer_keys ts :
  NoDup ts.*1 -> NoDup (initToggles state layer_keys ts).*1.
Proof.
  revert ts. induction layer_keys as [| [layerName config] rest IH];
    intros ts Hnd; cbn; [exact Hnd |].
  destruct (cfg_type config) as [t |]; [| apply IH; exact Hnd].
  destruct (parseLayerType t); try (apply IH; exact Hnd).
  apply IH. apply toggles_assign_NoDup. exact Hnd.
Qed.

Lemma LayoutManager_new_well_formed disk layoutsDir m :
  LayoutManager_new disk layoutsDir = inr m -> well_formed m.
Proof.
  unfold LayoutManager_new, loadLayout. intros Hnew.
  repeat case_match; try discriminate. injection Hnew as <-.
  unfold well_formed. cbn.
  split; [apply loadState_has_layout |].
  split; [apply loadState_has_layer |].
  split; [apply initToggles_NoDup; constructor |].
  split.
  - intros key cfg Hk Ht.
    apply buildLayerKeys_origin in Hk as [Hk | (c & Hin & _ & Hty)];
      [rewrite lookup_empty in Hk; discriminate |].
    eapply initToggles_covers; [exact Hin | congruence].
  - intros key cfg Hk.
    apply buildLayerKeys_origin in Hk as [Hk | (c & _ & Hb & _)];
      [rewrite lookup_empty in Hk; discriminate | exact Hb].
Qed.

Lemma LayoutManager_new_fresh disk layoutsDir m :
  LayoutManager_new disk layoutsDir = inr m -> fresh m.
Proof.
  unfold LayoutManager_new, loadLayout. intros Hnew.
  repeat case_match; try discriminate. injection Hnew as <-.
  repeat split.
Qed.

(** *** What an event leaves alone *)

(** Open [processKeyEvent] and follow every branch. *)
Ltac open_event :=
  unfold processKeyEvent, activateLayer, resolveCharacter, saveState,
         handleKeyRelease, with_layerState;
  repeat case_match; cbn.

Lemma processKeyEvent_static keyName keyCode eventType m :
  let m' := snd (processKeyEvent keyName keyCode eventType m) in
  layers m' = layers m /\ keyPositions m' = keyPositions m
  /\ layerKeys m' = layerKeys m.
Proof. open_event; repeat split. Qed.

Lemma handleKeyRelease_static keyCode m :
  let m' := handleKeyRelease keyCode m in
  layers m' = layers m /\ keyPositions m' = keyPositions m
  /\ layerKeys m' = layerKeys m.
Proof. open_event; repeat split. Qed.

Lemma toggle_key_not_reserved layerName :
  ("toggle_" ++ layerName)%string <> "layout"
  /\ ("toggle_" ++ layerName)%string <> "layer".
Proof. split; discriminate. Qed.

Lemma activateLayer_well_formed cfg keyCode m :
  well_formed m -> well_formed (snd (activateLayer cfg keyCode m)).
Proof.
  intros (Hl & Hy & Hnd & Hcov & Hbase).
  assert (Hkeep : forall v,
    let ts := toggles_assign (targetLayer cfg) v (toggles (layerState m)) in
    NoDup ts.*1
    /\ forall key c, layerKeys m !! key = Some c -> type c = Toggle ->
         is_Some (toggles_find (targetLayer c) ts)).
  { intros v. split; [apply toggles_assign_NoDup; exact Hnd |].
    intros key c Hk Ht. destruct (decide (targetLayer c = targetLayer cfg)) as [-> | Hne].
    - rewrite toggles_find_assign_eq. eauto.
    - rewrite toggles_find_assign_ne by assumption. eauto. }
  destruct (toggle_key_not_reserved (targetLayer cfg)) as [Hn1 Hn2].
  unfold activateLayer, saveState, with_layerState, well_formed.
  repeat case_match; cbn; rewrite ?lookup_insert_ne by assumption;
    repeat split; try assumption; try apply Hkeep.
Qed.

Lemma processKeyEvent_well_formed keyName keyCode eventType m :
  well_formed m -> well_formed (snd (processKeyEvent keyName keyCode eventType m)).
Proof.
  intros Hwf. unfold processKeyEvent.
  repeat case_match; try exact Hwf.
  - apply activateLayer_well_formed. exact Hwf.
  - destruct Hwf as (? & ? & ? & ? & ?).
    unfold resolveCharacter, with_layerState.
    repeat case_match; cbn; repeat split; assumption.
Qed.

Lemma handleKeyRelease_well_formed keyCode m :
  well_formed m -> well_formed (handleKeyRelease keyCode m).
Proof.
  intros (? & ? & ? & ? & ?). unfold handleKeyRelease, with_layerState.
  case_match; cbn; repeat split; assumption.
Qed.

Lemma handle_all_well_formed es m :
  well_formed m -> well_formed (handle_all es m).
Proof.
  unfold handle_all. revert m.
  induction es as [| e rest IH]; intros m Hwf; cbn; [exact Hwf |].
  apply IH. destruct e; cbn;
    [apply processKeyEvent_well_formed | apply handleKeyRelease_well_formed];
    exact Hwf.
Qed.

(** *** Toggle keys *)

Lemma processKeyEvent_layer_key keyName keyCode eventType m cfg :
  press_or_repeat eventType -> layer_key m keyName cfg ->
  processKeyEvent keyName keyCode eventType m = activateLayer cfg keyCode m.
Proof.
  intros Het (pos & base & Hpos & Hbase & Hlt & Hkey).
  unfold processKeyEvent. rewrite Hpos, Hbase, Hkey.
  destruct Het as [-> | ->]; cbn [String.eqb Ascii.eqb Bool.eqb negb andb];
    (destruct (Nat.leb_spec (length base) pos); [lia | reflexivity]).
Qed.

Lemma yaml_lookup_assign_eq {A} k (v : A) d :
  yaml_lookup k (yaml_assign k v d) = Some v.
Proof.
  induction d as [| [k' v'] rest IH]; cbn.
  - rewrite String.eqb_refl. reflexivity.
  - destruct (String.eqb_spec k' k) as [-> | Hne]; cbn.
    + rewrite String.eqb_refl. reflexivity.
    + destruct (String.eqb_spec k' k); [contradiction | exact IH].
Qed.

Lemma yaml_lookup_assign_ne {A} k k' (v : A) d :
  k' <> k -> yaml_lookup k' (yaml_assign k v d) = yaml_lookup k' d.
Proof.
  intros Hne. induction d as [| [k0 v0] rest IH]; cbn.
  - destruct (String.eqb_spec k k'); [congruence | reflexivity].
  - destruct (String.eqb_spec k0 k) as [-> | Hk0]; cbn.
    + destruct (String.eqb_spec k k'); [congruence | reflexivity].
    + destruct (String.eqb_spec k0 k'); [reflexivity | exact IH].
Qed.

Lemma toggle_key_inj l l' :
  ("toggle_" ++ l)%string = ("toggle_" ++ l')%string -> l = l'.
Proof. cbn. intros [= H]. exact H. Qed.

(** The document [saveState] writes records every toggle as it is stored. *)
Lemma stateDocument_records ts doc layerName v :
  NoDup ts.*1 -> toggles_find layerName ts = Some v ->
  yaml_lookup ("toggle_" ++ layerName)%string
    (fold_left
       (fun stateNode '(layer, active) =>
          yaml_assign ("toggle_" ++ layer)%string (YScalar (bool_text active))
                      stateNode)
       ts doc)
  = Some (YScalar (bool_text v)).
Proof.
  set (f := fun stateNode '(layer, active) =>
              yaml_assign ("toggle_" ++ layer)%string
                          (YScalar (bool_text active)) stateNode).
  assert (Hout : forall ts doc, layerName ∉ ts.*1 ->
            yaml_lookup ("toggle_" ++ layerName)%string (fold_left f ts doc)
            = yaml_lookup ("toggle_" ++ layerName)%string doc).
  { clear. intros ts. induction ts as [| [k b] rest IH]; intros doc Hnin; cbn;
      [reflexivity |].
    apply not_elem_of_cons in Hnin as [Hne Hnin].
    rewrite IH by exact Hnin. unfold f. cbn.
    apply yaml_lookup_assign_ne. intros Heq. apply Hne.
    apply toggle_key_inj. exact Heq. }
  revert doc. induction ts as [| [k b] rest IH]; intros doc Hnd Hfind;
    [discriminate |].
  cbn in Hnd, Hfind |- *. apply NoDup_cons in Hnd as [Hk Hnd].
  destruct (String.eqb_spec k layerName) as [-> | Hne].
  - injection Hfind as ->. rewrite Hout by exact Hk.
    unfold f. cbn. apply yaml_lookup_assign_eq.
  - apply IH; assumption.
Qed.

(** *** The current layer across two presses of a toggle key *)

Lemma toggles_assign_same k v ts :
  toggles_find k ts = Some v -> toggles_assign k v ts = ts.
Proof.
  induction ts as [| [k' v'] rest IH]; cbn; [discriminate |].
  destruct (String.eqb_spec k' k) as [-> | Hne].
  - intros [= ->]. reflexivity.
  - intros H. rewrite IH by exact H. reflexivity.
Qed.

Lemma toggles_assign_twice k v1 v2 ts :
  toggles_assign k v2 (toggles_assign k v1 ts) = toggles_assign k v2 ts.
Proof.
  induction ts as [| [k' v'] rest IH]; cbn.
  - rewrite String.eqb_refl. reflexivity.
  - destruct (String.eqb_spec k' k) as [-> | Hne]; cbn.
    + rewrite String.eqb_refl. reflexivity.
    + destruct (String.eqb_spec k' k); [contradiction |]. rewrite IH. reflexivity.
Qed.

Lemma firstActiveToggle_elem ts l :
  firstActiveToggle ts = Some l -> (l, true) ∈ ts.
Proof.
  induction ts as [| [k b] rest IH]; cbn; [discriminate |].
  destruct b; [intros [= ->]; left | intros H; right; apply IH; exact H].
Qed.

Lemma toggles_find_of_elem ts l b :
  NoDup ts.*1 -> (l, b) ∈ ts -> toggles_find l ts = Some b.
Proof.
  induction ts as [| [k v] rest IH]; intros Hnd Hin; [inversion Hin |].
  cbn in Hnd |- *. apply NoDup_cons in Hnd as [Hk Hnd].
  apply elem_of_cons in Hin as [[= -> ->] | Hin].
  - rewrite String.eqb_refl. reflexivity.
  - destruct (String.eqb_spec k l) as [-> | Hne]; [| apply IH; assumption].
    exfalso. apply Hk. apply (list_elem_of_fmap_2 fst) in Hin. exact Hin.
Qed.

(** Turning a toggle on either makes it the first active one or leaves
    the first active one as it was. *)
Lemma firstActiveToggle_assign_true k ts :
  firstActiveToggle (toggles_assign k true ts) = Some k
  \/ firstActiveToggle (toggles_assign k true ts) = firstActiveToggle ts.
Proof.
  induction ts as [| [k' v'] rest IH]; cbn; [left; reflexivity |].
  destruct (String.eqb_spec k' k) as [-> | Hne]; cbn.
  - left. reflexivity.
  - destruct v'; [right; reflexivity | exact IH].
Qed.

Lemma firstActiveToggle_assign_false k ts :
  NoDup ts.*1 -> firstActiveToggle (toggles_assign k false ts) <> Some k.
Proof.
  intros Hnd Hf. apply firstActiveToggle_elem in Hf.
  apply (toggles_find_of_elem _ _ _ (toggles_assign_NoDup k false ts Hnd)) in Hf.
  rewrite toggles_find_assign_eq in Hf. discriminate.
Qed.

Lemma firstActiveToggle_none_assign_false k ts :
  firstActiveToggle ts = None ->
  firstActiveToggle (toggles_assign k false ts) = None.
Proof.
  induction ts as [| [k' v'] rest IH]; cbn; [reflexivity |].
  destruct v'; [discriminate |]. intros H.
  destruct (String.eqb_spec k' k); cbn; [exact H | apply IH; exact H].
Qed.

Lemma toggleLayer_double layerName ts :
  NoDup ts.*1 -> is_Some (toggles_find layerName ts) ->
  let ts1 := toggles_assign layerName
               (negb (String.eqb (toggleLayer ts) layerName)) ts in
  let ts2 := toggles_assign layerName
               (negb (String.eqb (toggleLayer ts1) layerName)) ts1 in
  toggleLayer ts2 = toggleLayer ts.
Proof.
  intros Hnd [v Hv]. cbn zeta.
  destruct (String.eqb_spec (toggleLayer ts) layerName) as [Hc0 | Hc0]; cbn [negb].
  - (* the layer was current: it is switched off first *)
    destruct (String.eqb_spec (toggleLayer (toggles_assign layerName false ts))
                              layerName) as [Hc1 | Hc1]; cbn [negb].
    + rewrite toggles_assign_twice. congruence.
    + rewrite toggles_assign_twice.
      unfold toggleLayer in Hc0.
      destruct (firstActiveToggle ts) as [l |] eqn:Hf.
      * subst l. apply firstActiveToggle_elem in Hf.
        apply (toggles_find_of_elem _ _ _ Hnd) in Hf.
        rewrite (toggles_assign_same _ _ _ Hf). reflexivity.
      * exfalso. apply Hc1. unfold toggleLayer.
        rewrite firstActiveToggle_none_assign_false by exact Hf. exact Hc0.
  - (* the layer was not current: it is switched on first *)
    destruct (String.eqb_spec (toggleLayer (toggles_assign layerName true ts))
                              layerName) as [Hc1 | Hc1]; cbn [negb].
    + rewrite toggles_assign_twice. destruct v.
      * rewrite (toggles_assign_same _ _ _ Hv) in Hc1. contradiction.
      * rewrite (toggles_assign_same _ _ _ Hv). reflexivity.
    + rewrite toggles_assign_twice.
      unfold toggleLayer in Hc1 |- *.
      destruct (firstActiveToggle_assign_true layerName ts) as [H | H];
        rewrite H in Hc1 |- *; [contradiction | reflexivity].
Qed.

Lemma getCurrentLayer_toggles ls :
  oneTime ls = "" -> hold ls = "" -> getCurrentLayer ls = toggleLayer (toggles ls).
Proof. unfold getCurrentLayer. intros -> ->. reflexivity. Qed.

(** Two presses of a toggle key bring the current layer back. *)
Lemma toggled_twice_current layerName ls :
  NoDup (toggles ls).*1 -> is_Some (toggles_find layerName (toggles ls)) ->
  getCurrentLayer (toggled layerName (toggled layerName ls)) = getCurrentLayer ls.
Proof.
  intros Hnd Hin.
  destruct (String.eqb_spec (oneTime ls) "") as [Ho | Ho].
  - destruct (String.eqb_spec (hold ls) "") as [Hh | Hh].
    + rewrite !getCurrentLayer_toggles by assumption.
      unfold toggled at 1. cbn [toggles].
      rewrite (getCurrentLayer_toggles (toggled layerName ls)) by assumption.
      unfold toggled. cbn [toggles].
      rewrite (getCurrentLayer_toggles ls) by assumption.
      apply toggleLayer_double; assumption.
    + unfold getCurrentLayer, toggled. cbn. rewrite Ho. cbn.
      destruct (String.eqb_spec (hold ls) ""); [contradiction | reflexivity].
  - unfold getCurrentLayer, toggled. cbn.
    destruct (String.eqb_spec (oneTime ls) ""); [contradiction | reflexivity].
Qed.

(** With nothing held or armed and no other toggle on, the stored value
    tells whether the layer is current. *)
Lemma current_is_stored layerName ls v :
  oneTime ls = "" -> hold ls = "" -> layerName <> "base" ->
  NoDup (toggles ls).*1 ->
  no_other_toggle layerName (toggles ls) ->
  toggles_find layerName (toggles ls) = Some v ->
  String.eqb (getCurrentLayer ls) layerName = v.
Proof.
  intros Ho Hh Hb Hnd Hother Hv.
  rewrite getCurrentLayer_toggles by assumption. unfold toggleLayer.
  destruct (firstActiveToggle (toggles ls)) as [l |] eqn:Hf.
  - apply firstActiveToggle_elem in Hf.
    apply (toggles_find_of_elem _ _ _ Hnd) in Hf.
    destruct (String.eqb_spec l layerName) as [-> | Hne]; [congruence |].
    exfalso. exact (Hother l Hne Hf).
  - destruct (String.eqb_spec "base" layerName) as [<- | _]; [contradiction |].
    destruct v; [| reflexivity]. exfalso.
    assert (Hin : (layerName, true) ∈ toggles ls).
    { clear -Hv. induction (toggles ls) as [| [k b] rest IH]; [discriminate |].
      cbn in Hv. destruct (String.eqb_spec k layerName) as [-> | _].
      - injection Hv as ->. left.
      - right. apply IH. exact Hv. }
    clear -Hf Hin. induction (toggles ls) as [| [k b] rest IH]; [inversion Hin |].
    cbn in Hf. destruct b; [discriminate |].
    apply elem_of_cons in Hin as [[=] | Hin]. auto.
Qed.

(** The press of a toggle key, step by step. *)
Lemma activateLayer_toggle cfg keyCode m :
  well_formed m -> type cfg = Toggle ->
  exists disk',
    activateLayer cfg keyCode m
    = (Returned None,
       mkLayoutManager disk'
         (<[("toggle_" ++ targetLayer cfg)%string :=
              bool_text (negb (String.eqb (getCurrentLayer (layerState m))
                                          (targetLayer cfg)))]> (state m))
         (layers m) (keyPositions m)
         (toggled (targetLayer cfg) (layerState m)) (layerKeys m))
    /\ (writable (stateFile m) = true ->
        exists doc, content disk' = FileDoc doc
          /\ yaml_lookup ("toggle_" ++ targetLayer cfg)%string doc
             = Some (YScalar (bool_text
                 (negb (String.eqb (getCurrentLayer (layerState m))
                                   (targetLayer cfg)))))).
Proof.
  intros (Hl & Hy & Hnd & _ & _) Ht.
  destruct (toggle_key_not_reserved (targetLayer cfg)) as [Hn1 Hn2].
  destruct Hl as [l Hl], Hy as [y Hy].
  unfold activateLayer. rewrite Ht.
  set (is_active := String.eqb (getCurrentLayer (layerState m)) (targetLayer cfg)).
  replace (if is_active
           then toggles_assign (targetLayer cfg) false (toggles (layerState m))
           else toggles_assign (targetLayer cfg) true (toggles (layerState m)))
    with (toggles_assign (targetLayer cfg) (negb is_active)
                         (toggles (layerState m)))
    by (destruct is_active; reflexivity).
  unfold toggles_read. rewrite toggles_find_assign_eq. cbn [default].
  unfold saveState, stateDocument. cbn [state layerState stateFile toggles].
  rewrite !lookup_insert_ne by assumption. rewrite Hl, Hy.
  destruct (writable (stateFile m)) eqn:Hw.
  - eexists. split; [reflexivity |]. intros _. eexists. split; [reflexivity |].
    apply stateDocument_records.
    + apply toggles_assign_NoDup. exact Hnd.
    + apply toggles_find_assign_eq.
  - eexists. split; [reflexivity |]. discriminate.
Qed.

Lemma getLayerForKey_true layerKeys keyName baseChar cfg :
  getLayerForKey layerKeys keyName baseChar = (true, cfg) ->
  startsWith (cleanChar baseChar) "ly" = true
  /\ layerKeys !! cleanChar baseChar = Some cfg.
Proof.
  unfold getLayerForKey.
  destruct (negb (String.eqb (cleanChar baseChar) "")); cbn [andb];
    [| discriminate].
  destruct (startsWith (cleanChar baseChar) "ly"); [| discriminate].
  destruct (layerKeys !! cleanChar baseChar); [| discriminate].
  intros [= ->]. split; reflexivity.
Qed.

Lemma layer_key_registered m keyName cfg :
  layer_key m keyName cfg -> exists key, layerKeys m !! key = Some cfg.
Proof.
  intros (pos & base & _ & _ & _ & Hkey).
  apply getLayerForKey_true in Hkey as [_ Hkey]. eauto.
Qed.

Lemma layer_key_functional m keyName cfg cfg' :
  layer_key m keyName cfg -> layer_key m keyName cfg' -> cfg = cfg'.
Proof.
  intros (pos & base & Hp & Hb & _ & Hk) (pos' & base' & Hp' & Hb' & _ & Hk').
  congruence.
Qed.

Lemma layer_key_static m m' keyName cfg :
  layers m' = layers m -> keyPositions m' = keyPositions m ->
  layerKeys m' = layerKeys m ->
  layer_key m' keyName cfg <-> layer_key m keyName cfg.
Proof. unfold layer_key. intros -> -> ->. reflexivity. Qed.

(** C5, as the specification states it, fails: with [sym] on and [nav] held, a
    press of the toggle key for [sym] stores [true] again. *)
Lemma toggle_press_keeps_value :
  let m := press "key_c" 46 (press "key_b" 48 demo) in
  let m' := press "key_b" 48 m in
  layer_key m "key_b" (mkLayerKeyConfig "sym" Toggle)
  /\ hold (layerState m) = "nav"
  /\ toggles_read "sym" (toggles (layerState m)) = true
  /\ toggles_read "sym" (toggles (layerState m')) = true
  /\ toggles_read "sym" (toggles (layerState m'))
     <> negb (toggles_read "sym" (toggles (layerState m))).
Proof.
  cbv zeta. split.
  - exists 1%nat, ["x"; "ly1"; "ly2"; "ly3"].
    split; [vm_compute; reflexivity |]. split; [vm_compute; reflexivity |].
    split; [cbn; lia | vm_compute; reflexivity].
  - vm_compute. repeat split. discriminate.
Qed.

(** C5, amended.  A press of a toggle key for [layerName] stores [true]
    for that layer, unless the layer is the current one, in which case it
    stores [false]; the value goes to [state] and, when the file can be
    written, to the state file at once.  The stored value is negated when
    nothing is held or armed and no other toggle is on.  A second press
    brings back the layer that was current before the first. *)
Theorem toggle_press_sets_by_current m keyName keyCode eventType layerName :
  well_formed m -> press_or_repeat eventType ->
  layer_key m keyName (mkLayerKeyConfig layerName Toggle) ->
  exists m1 v,
    v = negb (String.eqb (getCurrentLayer (layerState m)) layerName)
    /\ processKeyEvent keyName keyCode eventType m = (Returned None, m1)
    /\ layerState m1 = toggled layerName (layerState m)
    /\ toggles_find layerName (toggles (layerState m1)) = Some v
    /\ state m1 !! ("toggle_" ++ layerName)%string = Some (bool_text v)
    /\ (writable (stateFile m) = true ->
        exists doc, content (stateFile m1) = FileDoc doc
          /\ yaml_lookup ("toggle_" ++ layerName)%string doc
             = Some (YScalar (bool_text v)))
    /\ (oneTime (layerState m) = "" -> hold (layerState m) = "" ->
        no_other_toggle layerName (toggles (layerState m)) ->
        v = negb (toggles_read layerName (toggles (layerState m))))
    /\ getCurrentLayer
         (layerState (snd (processKeyEvent keyName keyCode eventType m1)))
       = getCurrentLayer (layerState m).
Proof.
  intros Hwf Het Hkey.
  destruct (layer_key_registered _ _ _ Hkey) as [key Hreg].
  pose proof Hwf as (_ & _ & Hnd & Hcov & Hbase).
  specialize (Hcov key _ Hreg eq_refl). specialize (Hbase key _ Hreg).
  cbn [targetLayer] in Hcov, Hbase.
  destruct (activateLayer_toggle (mkLayerKeyConfig layerName Toggle) keyCode m
              Hwf eq_refl) as (disk' & Hact & Hdisk).
  cbn [targetLayer] in Hact, Hdisk.
  rewrite (processKeyEvent_layer_key _ keyCode _ _ _ Het Hkey), Hact.
  eexists. eexists. split; [reflexivity |]. split; [reflexivity |].
  cbn [layerState state stateFile].
  split; [reflexivity |].
  split; [unfold toggled; cbn [toggles]; apply toggles_find_assign_eq |].
  split; [apply lookup_insert_eq |].
  split; [exact Hdisk |].
  split.
  - intros Ho Hh Hother. destruct Hcov as [v Hv].
    unfold toggles_read. rewrite Hv. cbn [default].
    rewrite (current_is_stored layerName (layerState m) v); auto.
  - match goal with
    | |- context [processKeyEvent _ _ _ ?m1] => set (m1' := m1)
    end.
    assert (Hwf1 : well_formed m1').
    { pose proof (processKeyEvent_well_formed keyName keyCode eventType m Hwf) as H.
      rewrite (processKeyEvent_layer_key _ keyCode _ _ _ Het Hkey), Hact in H.
      exact H. }
    assert (Hkey1 : layer_key m1' keyName (mkLayerKeyConfig layerName Toggle)).
    { apply (layer_key_static m m1'); [reflexivity .. | exact Hkey]. }
    destruct (activateLayer_toggle (mkLayerKeyConfig layerName Toggle) keyCode
                m1' Hwf1 eq_refl) as (disk2 & Hact2 & _).
    rewrite (processKeyEvent_layer_key _ keyCode _ _ _ Het Hkey1), Hact2.
    cbn [snd layerState targetLayer]. unfold m1'. cbn [layerState].
    apply toggled_twice_current; assumption.
Qed.

Lemma demo_started : LayoutManager_new (mkDisk FileMissing true)
                       (layouts_with demo_doc) = inr demo.
Proof. vm_compute. reflexivity. Qed.

(** The first press of the toggle key after a first start. *)
Lemma toggle_press_sets_by_current_witness :
  well_formed demo /\ press_or_repeat "press"
  /\ layer_key demo "key_b" (mkLayerKeyConfig "sym" Toggle)
  /\ exists m1,
       processKeyEvent "key_b" 48 "press" demo = (Returned None, m1)
       /\ toggles_find "sym" (toggles (layerState m1)) = Some true.
Proof.
  assert (Hwf : well_formed demo)
    by exact (LayoutManager_new_well_formed _ _ _ demo_started).
  assert (Het : press_or_repeat "press") by (left; reflexivity).
  assert (Hkey : layer_key demo "key_b" (mkLayerKeyConfig "sym" Toggle)).
  { exists 1%nat, ["x"; "ly1"; "ly2"; "ly3"].
    split; [vm_compute; reflexivity |]. split; [vm_compute; reflexivity |].
    split; [cbn; lia | vm_compute; reflexivity]. }
  split; [exact Hwf |]. split; [exact Het |]. split; [exact Hkey |].
  destruct (toggle_press_sets_by_current demo "key_b" 48 "press" "sym"
              Hwf Het Hkey) as (m1 & v & Hv & Hrun & _ & Hfind & _).
  exists m1. split; [exact Hrun |]. rewrite Hfind, Hv. reflexivity.
Defined.

(** *** Onetime keys *)

(** Where the table of the current layer has the position, the
    resolution uses the armed layer and disarms it. *)
Lemma resolveCharacter_consumes pos m layerNode :
  yaml_lookup (getCurrentLayer (layerState m)) (layers m) = Some layerNode ->
  (pos < length layerNode)%nat ->
  resolveCharacter pos m
  = (Returned (stringToChar32 (nth pos layerNode "")),
     with_layerState m
       (mkLayerState (current (layerState m)) (toggles (layerState m)) ""
                     (hold (layerState m)) (holdKey (layerState m)))).
Proof.
  intros Hl Hp. unfold resolveCharacter. rewrite Hl.
  destruct (Nat.leb_spec (length layerNode) pos); [lia |].
  destruct (String.eqb_spec (oneTime (layerState m)) "") as [He | _];
    cbn [negb]; [| reflexivity].
  f_equal. destruct m as [? ? ? ? [? ? ? ? ?] ?]. cbn in *. subst. reflexivity.
Qed.

(** C6.  The layout names a onetime layer [fn] that has no table.  A
    press of its key arms it; the next press of an ordinary key yields no
    character and returns early, with the layer still armed and still the
    current one. *)
Theorem onetime_survives_failed_lookup :
  let m := press "key_d" 32 demo_without_fn in
  layerKeys demo_without_fn !! "ly3" = Some (mkLayerKeyConfig "fn" Onetime)
  /\ yaml_lookup "fn" (layers demo_without_fn) = None
  /\ oneTime (layerState m) = "fn"
  /\ processKeyEvent "key_a" 30 "press" m = (Returned None, m)
  /\ oneTime (layerState (press "key_a" 30 m)) = "fn"
  /\ getCurrentLayer (layerState (press "key_a" 30 m)) = "fn".
Proof. vm_compute. repeat split. Qed.

(** *** Keys without the prefix *)

(** C10.  A key is taken for a layer key only if its cleaned base symbol
    starts with [ly].  Where the prefix is missing, whatever [layerKeys]
    holds, the press is an ordinary resolution: the hold layer, its key
    code, the toggles, [state] and the state file stay as they are, the
    onetime layer is left alone or consumed, and the result is the decoded
    symbol of the current layer at the key's position, or no character. *)
Theorem layer_key_needs_prefix m keyName keyCode eventType pos base :
  press_or_repeat eventType ->
  keyPositions m !! keyName = Some pos ->
  yaml_lookup "base" (layers m) = Some base ->
  (pos < length base)%nat ->
  (forall baseChar cfg,
     getLayerForKey (layerKeys m) keyName baseChar = (true, cfg) ->
     startsWith (cleanChar baseChar) "ly" = true)
  /\ (startsWith (cleanChar (nth pos base "")) "ly" = false ->
      let r := processKeyEvent keyName keyCode eventType m in
      getLayerForKey (layerKeys m) keyName (nth pos base "")
      = (false, LayerKeyConfig_default)
      /\ r = resolveCharacter pos m
      /\ hold (layerState (snd r)) = hold (layerState m)
      /\ holdKey (layerState (snd r)) = holdKey (layerState m)
      /\ toggles (layerState (snd r)) = toggles (layerState m)
      /\ state (snd r) = state m
      /\ stateFile (snd r) = stateFile m
      /\ (oneTime (layerState (snd r)) = oneTime (layerState m)
          \/ oneTime (layerState (snd r)) = "")
      /\ fst r
         = Returned
             match yaml_lookup (getCurrentLayer (layerState m)) (layers m) with
             | Some layerNode =>
                 if (pos <? length layerNode)%nat
                 then stringToChar32 (nth pos layerNode "")
                 else None
             | None => None
             end).
Proof.
  intros Het Hpos Hbase Hlt. split.
  - intros baseChar cfg H. apply getLayerForKey_true in H as [H _]. exact H.
  - intros Hpre. cbv zeta.
    assert (Hnot : getLayerForKey (layerKeys m) keyName (nth pos base "")
                   = (false, LayerKeyConfig_default)).
    { unfold getLayerForKey. rewrite Hpre, andb_false_r. reflexivity. }
    assert (Hrun : processKeyEvent keyName keyCode eventType m
                   = resolveCharacter pos m).
    { unfold processKeyEvent. rewrite Hpos, Hbase, Hnot.
      destruct Het as [-> | ->]; cbn [String.eqb Ascii.eqb Bool.eqb negb andb];
        (destruct (Nat.leb_spec (length base) pos); [lia | reflexivity]). }
    split; [exact Hnot |]. split; [exact Hrun |]. rewrite Hrun.
    unfold resolveCharacter, with_layerState.
    destruct (yaml_lookup (getCurrentLayer (layerState m)) (layers m))
      as [layerNode |]; [| cbn; repeat split; auto].
    destruct (Nat.leb_spec (length layerNode) pos) as [Hge | Hin].
    + destruct (Nat.ltb_spec pos (length layerNode)); [lia |].
      cbn. repeat split; auto.
    + destruct (Nat.ltb_spec pos (length layerNode)); [| lia].
      destruct (negb (String.eqb (oneTime (layerState m)) ""));
        cbn; repeat split; auto.
Qed.

Lemma demo_unprefixed_started :
  LayoutManager_new (mkDisk FileMissing true) (layouts_with demo_doc_unprefixed)
  = inr demo_unprefixed.
Proof. vm_compute. reflexivity. Qed.

(** The key [key_a] carries the symbol [x], which [layer_keys] registers
    as the hold key of [sym]; pressing it gives the character x. *)
Lemma layer_key_needs_prefix_witness :
  layerKeys demo_unprefixed !! "x" = Some (mkLayerKeyConfig "sym" Hold)
  /\ startsWith (cleanChar "x") "ly" = false
  /\ processKeyEvent "key_a" 30 "press" demo_unprefixed
     = (Returned (Some 120%Z), demo_unprefixed).
Proof.
  split; [vm_compute; reflexivity |]. split; [vm_compute; reflexivity |].
  assert (Het : press_or_repeat "press") by (left; reflexivity).
  assert (Hpos : keyPositions demo_unprefixed !! "key_a" = Some 0%nat)
    by (vm_compute; reflexivity).
  assert (Hbase : yaml_lookup "base" (layers demo_unprefixed) = Some ["x"; "b"])
    by (vm_compute; reflexivity).
  assert (Hlt : (0 < length ["x"; "b"])%nat) by (cbn; lia).
  destruct (layer_key_needs_prefix demo_unprefixed "key_a" 30 "press" 0
              ["x"; "b"] Het Hpos Hbase Hlt) as [_ H].
  destruct (H eq_refl) as (_ & Hrun & _).
  rewrite Hrun. vm_compute. reflexivity.
Defined.

(** *** Hold keys *)

Lemma handle_all_snoc es e m :
  handle_all (es ++ [e]) m = handle e (handle_all es m).
Proof. unfold handle_all. rewrite fold_left_app. reflexivity. Qed.

Lemma handle_static e m :
  layers (handle e m) = layers m /\ keyPositions (handle e m) = keyPositions m
  /\ layerKeys (handle e m) = layerKeys m.
Proof.
  destruct e; cbn; [apply processKeyEvent_static | apply handleKeyRelease_static].
Qed.

Lemma handle_all_static es m :
  layers (handle_all es m) = layers m
  /\ keyPositions (handle_all es m) = keyPositions m
  /\ layerKeys (handle_all es m) = layerKeys m.
Proof.
  induction es as [| e es IH] using rev_ind; [repeat split |].
  rewrite handle_all_snoc.
  destruct (handle_static e (handle_all es m)) as (-> & -> & ->). exact IH.
Qed.

Lemma not_press_or_repeat eventType :
  negb (String.eqb eventType "press") && negb (String.eqb eventType "repeat")
  = true -> ~ press_or_repeat eventType.
Proof.
  intros H [-> | ->]; discriminate.
Qed.

(** A key event either is the press of a hold key, which sets the hold
    layer and its key code, or leaves both alone. *)
Lemma Down_hold_cases m keyName keyCode eventType :
  let m' := snd (processKeyEvent keyName keyCode eventType m) in
  (exists layerName,
      hold_press m (Down keyName keyCode eventType) layerName keyCode
      /\ hold (layerState m') = layerName /\ holdKey (layerState m') = keyCode)
  \/ (~ is_hold_press m (Down keyName keyCode eventType)
      /\ hold (layerState m') = hold (layerState m)
      /\ holdKey (layerState m') = holdKey (layerState m)).
Proof.
  cbv zeta. unfold processKeyEvent.
  destruct (negb (String.eqb eventType "press")
            && negb (String.eqb eventType "repeat")) eqn:Het.
  { right. split; [| split; reflexivity].
    intros (L & c & k & et & [= <- <- <-] & Hpr & _).
    exact (not_press_or_repeat _ Het Hpr). }
  assert (Hpr : press_or_repeat eventType).
  { apply andb_false_iff in Het as [Het | Het];
      apply negb_false_iff, String.eqb_eq in Het; [left | right]; exact Het. }
  destruct (keyPositions m !! keyName) as [pos |] eqn:Hpos.
  2:{ right. split; [| split; reflexivity].
      intros (L & c & k & et & [= <- <- <-] & _ & (p & b & Hp & _)). congruence. }
  destruct (yaml_lookup "base" (layers m)) as [base |] eqn:Hbase.
  2:{ right. split; [| split; reflexivity].
      intros (L & c & k & et & [= <- <- <-] & _ & (p & b & _ & Hb & _)).
      congruence. }
  destruct (Nat.leb_spec (length base) pos) as [Hge | Hlt].
  { right. split; [| split; reflexivity].
    intros (L & c & k & et & [= <- <- <-] & _ & (p & b & Hp & Hb & Hl & _)).
    rewrite Hpos in Hp. rewrite Hbase in Hb.
    injection Hp as <-. injection Hb as <-. lia. }
  destruct (getLayerForKey (layerKeys m) keyName (nth pos base ""))
    as [isLayerKey cfg] eqn:Hkey.
  assert (Hother : forall L,
            layer_key m keyName (mkLayerKeyConfig L Hold) ->
            isLayerKey = true /\ cfg = mkLayerKeyConfig L Hold).
  { intros L (p & b & Hp & Hb & _ & Hk).
    rewrite Hpos in Hp. rewrite Hbase in Hb.
    injection Hp as <-. injection Hb as <-.
    rewrite Hkey in Hk. injection Hk as -> ->. split; reflexivity. }
  destruct isLayerKey.
  - destruct cfg as [L ty]. destruct ty.
    + left. exists L. split; [| split; reflexivity].
      exists keyName, eventType. split; [reflexivity |]. split; [exact Hpr |].
      exists pos, base. repeat split; assumption.
    + right. split.
      * intros (L' & c & k & et & [= <- <- <-] & _ & Hk).
        apply Hother in Hk as [_ [=]].
      * unfold activateLayer, saveState. cbn [type].
        repeat case_match; split; reflexivity.
    + right. split.
      * intros (L' & c & k & et & [= <- <- <-] & _ & Hk).
        apply Hother in Hk as [_ [=]].
      * split; reflexivity.
  - right. split.
    + intros (L' & c & k & et & [= <- <- <-] & _ & Hk).
      apply Hother in Hk as [[=] _].
    + unfold resolveCharacter, with_layerState.
      repeat case_match; split; reflexivity.
Qed.

Lemma hold_press_functional m e layerName keyCode layerName' keyCode' :
  hold_press m e layerName keyCode -> hold_press m e layerName' keyCode' ->
  layerName = layerName' /\ keyCode = keyCode'.
Proof.
  intros (k & et & -> & _ & Hk) (k' & et' & [= <- <- <-] & _ & Hk').
  pose proof (layer_key_functional _ _ _ _ Hk Hk') as [= ->]. split; reflexivity.
Qed.

Lemma hold_press_static m m' e layerName keyCode :
  layers m' = layers m -> keyPositions m' = keyPositions m ->
  layerKeys m' = layerKeys m ->
  hold_press m' e layerName keyCode <-> hold_press m e layerName keyCode.
Proof.
  intros Hl Hp Hk. unfold hold_press.
  split; intros (k & et & ? & ? & H); exists k, et; (split; [assumption |]);
    (split; [assumption |]); apply (layer_key_static m m'); assumption.
Qed.

Lemma held_nil m layerName keyCode : ~ held m [] layerName keyCode.
Proof.
  intros (before & e & after & H & _). destruct before; discriminate.
Qed.

Lemma held_snoc_press m es e layerName keyCode :
  hold_press m e layerName keyCode -> held m (es ++ [e]) layerName keyCode.
Proof.
  intros H. exists es, e, []. split; [reflexivity |]. split; [exact H | constructor].
Qed.

Lemma held_snoc_keep m es e layerName keyCode :
  held m es layerName keyCode -> e <> Up keyCode -> ~ is_hold_press m e ->
  held m (es ++ [e]) layerName keyCode.
Proof.
  intros (before & e0 & after & -> & Hp & Hall) Hne Hnp.
  exists before, e0, (after ++ [e]).
  split; [rewrite <- app_assoc; reflexivity |]. split; [exact Hp |].
  apply Forall_app. split; [exact Hall |]. constructor; [| constructor].
  split; assumption.
Qed.

Lemma held_snoc_inv m es e layerName keyCode :
  held m (es ++ [e]) layerName keyCode ->
  hold_press m e layerName keyCode
  \/ (held m es layerName keyCode /\ e <> Up keyCode /\ ~ is_hold_press m e).
Proof.
  intros (before & e0 & after & Heq & Hp & Hall).
  destruct after as [| a after' _] using rev_ind.
  - apply app_inj_tail in Heq as [_ <-]. left. exact Hp.
  - rewrite app_comm_cons, app_assoc in Heq.
    apply app_inj_tail in Heq as [-> <-].
    apply Forall_app in Hall as [Hall Ha].
    apply Forall_cons in Ha as [[Hne Hnp] _].
    right. split; [| split; assumption].
    exists before, e0, after'. split; [reflexivity |]. split; assumption.
Qed.

(** No hold key is down, and the hold layer is empty with the code -1; or
    the hold layer and its code are those of the one hold key that is
    down. *)
Lemma hold_invariant m es :
  hold (layerState m) = "" -> holdKey (layerState m) = (-1)%Z ->
  let ls := layerState (handle_all es m) in
  (hold ls = "" /\ holdKey ls = (-1)%Z
   /\ forall layerName keyCode, ~ held m es layerName keyCode)
  \/ (held m es (hold ls) (holdKey ls)
      /\ forall layerName keyCode, held m es layerName keyCode ->
           layerName = hold ls /\ keyCode = holdKey ls).
Proof.
  intros Hfresh Hcode. cbv zeta.
  induction es as [| e es IH] using rev_ind.
  { left. split; [exact Hfresh |]. split; [exact Hcode |].
    intros L c; apply held_nil. }
  rewrite handle_all_snoc.
  destruct (handle_all_static es m) as (Hl & Hp & Hk).
  set (m' := handle_all es m) in *.
  destruct e as [keyName keyCode eventType | keyCode]; cbn [handle].
  - (* a key goes down *)
    destruct (Down_hold_cases m' keyName keyCode eventType)
      as [(L & Hpress & HL & Hc) | (Hnot & HL & Hc)]; rewrite HL, Hc.
    + apply (hold_press_static m m') in Hpress; [| assumption ..].
      right. split; [apply held_snoc_press; exact Hpress |].
      intros L' c' Hheld. apply held_snoc_inv in Hheld as [H | (_ & _ & H)].
      * destruct (hold_press_functional _ _ _ _ _ _ H Hpress). auto.
      * exfalso. apply H. exists L, keyCode. exact Hpress.
    + assert (Hnot' : ~ is_hold_press m (Down keyName keyCode eventType)).
      { intros (L & c & H). apply Hnot. exists L, c.
        apply (hold_press_static m m'); assumption. }
      destruct IH as [(Hempty & Hminus & Hnone) | (Hheld & Huniq)].
      * left. split; [exact Hempty |]. split; [exact Hminus |].
        intros L c H. apply held_snoc_inv in H as [H | (H & _)].
        -- apply Hnot'. exists L, c. exact H.
        -- exact (Hnone _ _ H).
      * right. split.
        -- apply held_snoc_keep; [exact Hheld | discriminate | exact Hnot'].
        -- intros L c H. apply held_snoc_inv in H as [H | (H & _)].
           ++ exfalso. apply Hnot'. exists L, c. exact H.
           ++ exact (Huniq _ _ H).
  - (* a key goes up *)
    assert (Hup : forall L c, ~ hold_press m (Up keyCode) L c).
    { intros L c (k & et & [=] & _). }
    unfold handleKeyRelease.
    destruct (Z.eqb_spec (holdKey (layerState m')) keyCode) as [Heq | Hne];
      cbn [with_layerState layerState hold holdKey].
    + left. split; [reflexivity |]. split; [reflexivity |].
      intros L c H. apply held_snoc_inv in H as [H | (H & Hc & _)].
      * exact (Hup _ _ H).
      * destruct IH as [(_ & _ & Hnone) | (_ & Huniq)]; [exact (Hnone _ _ H) |].
        apply Huniq in H as [_ ->]. congruence.
    + destruct IH as [(Hempty & Hminus & Hnone) | (Hheld & Huniq)].
      * left. split; [exact Hempty |]. split; [exact Hminus |].
        intros L c H. apply held_snoc_inv in H as [H | (H & _)].
        -- exact (Hup _ _ H).
        -- exact (Hnone _ _ H).
      * right. split.
        -- apply held_snoc_keep; [exact Hheld | congruence |].
           intros (L & c & H). exact (Hup _ _ H).
        -- intros L c H. apply held_snoc_inv in H as [H | (H & _)].
           ++ exfalso. exact (Hup _ _ H).
           ++ exact (Huniq _ _ H).
Qed.

(** With the constructor's state, no call of [processKeyEvent] throws. *)
Lemma processKeyEvent_returns keyName keyCode eventType m :
  well_formed m ->
  exists r, fst (processKeyEvent keyName keyCode eventType m) = Returned r.
Proof.
  intros Hwf. unfold processKeyEvent.
  repeat case_match; cbn [fst]; eauto.
  - match goal with
    | |- context [activateLayer ?cfg _ _] => destruct (type cfg) eqn:Ht
    end.
    + unfold activateLayer. rewrite Ht. cbn. eauto.
    + destruct (activateLayer_toggle _ keyCode m Hwf Ht) as (d & -> & _).
      cbn. eauto.
    + unfold activateLayer. rewrite Ht. cbn. eauto.
  - unfold resolveCharacter. repeat case_match; cbn; eauto.
Qed.

(** C7, as the specification states it, fails: with the hold key of [nav] down and
    not released, a press of the onetime key makes [fn] the current
    layer. *)
Lemma held_layer_yields_to_onetime :
  let es := [Down "key_c" 46 "press"; Down "key_d" 32 "press"] in
  let ls := layerState (handle_all es demo) in
  held demo es "nav" 46
  /\ hold ls = "nav"
  /\ getCurrentLayer ls = "fn"
  /\ getCurrentLayer ls <> hold ls.
Proof.
  cbv zeta. split.
  - exists [], (Down "key_c" 46 "press"), [Down "key_d" 32 "press"].
    split; [reflexivity |]. split.
    + exists "key_c", "press". split; [reflexivity |].
      split; [left; reflexivity |].
      exists 2%nat, ["x"; "ly1"; "ly2"; "ly3"].
      split; [vm_compute; reflexivity |]. split; [vm_compute; reflexivity |].
      split; [cbn; lia | vm_compute; reflexivity].
    + constructor; [| constructor]. split; [discriminate |].
      intros (L & c & k & et & [= <- <- <-] & _ & (p & b & Hp & Hb & _ & Hk)).
      vm_compute in Hp. injection Hp as <-.
      vm_compute in Hb. injection Hb as <-.
      vm_compute in Hk. discriminate.
  - vm_compute. repeat split. discriminate.
Qed.

(** A hold key registered for a layer of the empty name: while it is down
    the manager remembers its code, and the layer reads as no hold
    layer. *)
Lemma unnamed_hold_layer :
  let es := [Down "key_b" 48 "press"] in
  let ls := layerState (handle_all es demo_unnamed) in
  LayoutManager_new (mkDisk FileMissing true) (layouts_with demo_doc_unnamed)
  = inr demo_unnamed
  /\ held demo_unnamed es "" 48
  /\ hold ls = "" /\ holdKey ls = 48%Z
  /\ getCurrentLayer ls = "base".
Proof.
  cbv zeta. split; [vm_compute; reflexivity |]. split.
  - apply (held_snoc_press demo_unnamed []).
    exists "key_b", "press". split; [reflexivity |].
    split; [left; reflexivity |].
    exists 1%nat, ["x"; "ly1"].
    split; [vm_compute; reflexivity |]. split; [vm_compute; reflexivity |].
    split; [cbn; lia | vm_compute; reflexivity].
  - vm_compute. repeat split.
Qed.

(** C7, amended.  After any run of events on a manager that the
    constructor has built, the hold layer and its originating code are
    those of the hold key that went down last, as long as neither that
    code was released nor another hold key went down since; with no such
    key the hold layer is empty and the code is -1.  So the hold layer is
    set exactly when such a key is down and its layer has a name; it is
    then the current layer unless a onetime layer is armed, which comes
    first; with neither, the current layer is the first toggle that is on,
    or [base].  [handleKeyRelease] empties the hold layer when its
    argument is the remembered code and changes nothing for any other
    code. *)
Theorem hold_layer_follows_key disk layoutsDir m es :
  LayoutManager_new disk layoutsDir = inr m ->
  let ls := layerState (handle_all es m) in
  (forall layerName keyCode, held m es layerName keyCode ->
     hold ls = layerName /\ holdKey ls = keyCode)
  /\ ((forall layerName keyCode, ~ held m es layerName keyCode) ->
      hold ls = "" /\ holdKey ls = (-1)%Z)
  /\ (hold ls <> ""
      <-> exists layerName keyCode,
            layerName <> "" /\ held m es layerName keyCode)
  /\ (hold ls <> "" -> oneTime ls = "" -> getCurrentLayer ls = hold ls)
  /\ (oneTime ls <> "" -> getCurrentLayer ls = oneTime ls)
  /\ (hold ls = "" -> oneTime ls = "" ->
      getCurrentLayer ls = toggleLayer (toggles ls))
  /\ (forall keyCode m0,
        (keyCode = holdKey (layerState m0) ->
         handleKeyRelease keyCode m0
         = with_layerState m0
             (mkLayerState (current (layerState m0)) (toggles (layerState m0))
                           (oneTime (layerState m0)) "" (-1)))
        /\ (keyCode <> holdKey (layerState m0) ->
            handleKeyRelease keyCode m0 = m0)).
Proof.
  intros Hnew. destruct (LayoutManager_new_fresh _ _ _ Hnew) as (Hfresh & Hcode & _).
  cbv zeta.
  pose proof (hold_invariant m es Hfresh Hcode) as Hinv. cbv zeta in Hinv.
  split; [| split; [| split; [| split; [| split; [| split]]]]].
  - intros L c H. destruct Hinv as [(_ & _ & Hnone) | (_ & Huniq)].
    + exfalso. exact (Hnone _ _ H).
    + apply Huniq in H as [-> ->]. split; reflexivity.
  - intros Hnone. destruct Hinv as [(Hempty & Hminus & _) | (Hheld & _)].
    + split; assumption.
    + exfalso. exact (Hnone _ _ Hheld).
  - destruct Hinv as [(Hempty & _ & Hnone) | (Hheld & Huniq)].
    + split; [intros H; contradiction |].
      intros (L & c & _ & H). exfalso. exact (Hnone _ _ H).
    + split; [intros Hset; eauto |].
      intros (L & c & Hname & H). apply Huniq in H as [<- _]. exact Hname.
  - intros Hset Hone. unfold getCurrentLayer. rewrite Hone. cbn.
    destruct (String.eqb_spec (hold (layerState (handle_all es m))) "");
      [contradiction | reflexivity].
  - intros Hone. unfold getCurrentLayer.
    destruct (String.eqb_spec (oneTime (layerState (handle_all es m))) "");
      [contradiction | reflexivity].
  - intros Hempty Hone. unfold getCurrentLayer, toggleLayer.
    rewrite Hone, Hempty. reflexivity.
  - intros keyCode m0. unfold handleKeyRelease. split.
    + intros ->. rewrite Z.eqb_refl. reflexivity.
    + intros Hne. destruct (Z.eqb_spec (holdKey (layerState m0)) keyCode);
        [congruence | reflexivity].
Qed.

(** The hold key of [nav] goes down after a first start. *)
Lemma hold_layer_follows_key_witness :
  LayoutManager_new (mkDisk FileMissing true) (layouts_with demo_doc) = inr demo
  /\ held demo [Down "key_c" 46 "press"] "nav" 46
  /\ hold (layerState (handle_all [Down "key_c" 46 "press"] demo)) = "nav"
  /\ holdKey (layerState (handle_all [Down "key_c" 46 "press"] demo)) = 46%Z.
Proof.
  assert (Hheld : held demo [Down "key_c" 46 "press"] "nav" 46).
  { apply (held_snoc_press demo []).
    exists "key_c", "press". split; [reflexivity |].
    split; [left; reflexivity |].
    exists 2%nat, ["x"; "ly1"; "ly2"; "ly3"].
    split; [vm_compute; reflexivity |]. split; [vm_compute; reflexivity |].
    split; [cbn; lia | vm_compute; reflexivity]. }
  split; [exact demo_started |]. split; [exact Hheld |].
  destruct (hold_layer_follows_key _ _ demo [Down "key_c" 46 "press"]
              demo_started) as (H & _).
  exact (H _ _ Hheld).
Defined.

End LayoutFacts.

(** ** The dispatch loop *)

Module DispatcherFacts.

Import Layout LayoutSpec Example Input Dispatcher.

(** The manager after a turn, and whether the turn leaves the loop, do not
    depend on the modifier snapshot. *)
Lemma dispatch_manager_independent event ms1 ms2 m :
  manager (dispatch event ms1 m) = manager (dispatch event ms2 m)
  /\ left_loop (dispatch event ms1 m) = left_loop (dispatch event ms2 m).
Proof.
  unfold dispatch.
  destruct (is_type (ev_type event) EventType.RawKey); [split; reflexivity |].
  destruct (is_type (ev_type event) EventType.Press
            || is_type (ev_type event) EventType.Repeat); [| split; reflexivity].
  destruct (processKeyEvent _ _ _ _) as [[[c |] |] m'];
    repeat match goal with
      | |- context [if ?b then _ else _] => destruct b
      end; split; reflexivity.
Qed.

Lemma dispatch_all_manager_independent es1 es2 m :
  es1.*1 = es2.*1 -> snd (dispatch_all es1 m) = snd (dispatch_all es2 m).
Proof.
  revert es2 m. induction es1 as [| [e ms1] es1 IH]; intros [| [e' ms2] es2] m;
    cbn; try discriminate; [reflexivity |].
  intros [= <- Hrest].
  destruct (dispatch_manager_independent e ms1 ms2 m) as [Hm Hl].
  rewrite <- Hl. destruct (left_loop (dispatch e ms1 m)); cbn; [exact Hm |].
  rewrite <- Hm. specialize (IH es2 (manager (dispatch e ms1 m)) Hrest).
  destruct (dispatch_all es1 _), (dispatch_all es2 _). exact IH.
Qed.

(** C9.  On a Press or Repeat event the loop calls [processKeyEvent]
    whatever the modifiers are, so the manager afterwards is the one that
    call leaves, and over a whole run the manager does not depend on the
    modifier snapshots.  The character the call returns is dropped exactly
    when Ctrl, Alt or Super is active; otherwise it is sent.  Shift has no
    part in the decision. *)
Theorem dispatch_press_or_repeat event modifierState m :
  ev_type event = EventType.Press \/ ev_type event = EventType.Repeat ->
  let eventType :=
    match ev_type event with EventType.Press => "press" | _ => "repeat" end in
  let r := processKeyEvent (keyName event) (keyCode event) eventType m in
  let t := dispatch event modifierState m in
  let bypass := ctrl modifierState || alt modifierState || super modifierState in
  manager t = snd r
  /\ (left_loop t = true <-> fst r = Thrown)
  /\ bypass = shouldForwardKey (shift modifierState) (ctrl modifierState)
                               (alt modifierState) (super modifierState)
  /\ (bypass = true -> calls t = [])
  /\ (bypass = false ->
      forall c, fst r = Returned (Some c) -> calls t = [SendUnicode c])
  /\ (bypass = false -> fst r = Returned None -> calls t = [])
  /\ (forall shiftActive,
        calls (dispatch event
                 (mkModifiers shiftActive (ctrl modifierState)
                              (alt modifierState) (super modifierState)) m)
        = calls t)
  /\ (forall es1 es2 : list (InputEvent * Modifiers),
        es1.*1 = es2.*1 ->
        snd (dispatch_all es1 m) = snd (dispatch_all es2 m)).
Proof.
  intros Hty. cbv zeta. unfold dispatch, shouldForwardKey.
  assert (Hshape :
    is_type (ev_type event) EventType.Release = false
    /\ is_type (ev_type event) EventType.RawKey = false
    /\ (is_type (ev_type event) EventType.Press
        || is_type (ev_type event) EventType.Repeat) = true
    /\ (if is_type (ev_type event) EventType.Press then "press" else "repeat")
       = match ev_type event with EventType.Press => "press" | _ => "repeat" end).
  { destruct Hty as [-> | ->]; repeat split. }
  destruct Hshape as (-> & -> & -> & ->). cbn [ctrl alt super].
  destruct (processKeyEvent _ _ _ m) as [[[c |] |] m']; cbn [fst snd];
    destruct (ctrl modifierState || alt modifierState || super modifierState);
    cbn; (split; [reflexivity |]);
    (split; [split; intros; discriminate || reflexivity |]);
    (split; [reflexivity |]);
    (split; [intros; reflexivity || discriminate |]);
    (split; [intros ? ? ?; congruence || discriminate |]);
    (split; [intros; reflexivity || discriminate |]);
    (split; [intros; reflexivity |]);
    intros es1 es2 Hes; apply dispatch_all_manager_independent; exact Hes.
Qed.

(** With Ctrl down, the toggle key of [sym] still switches the layer on,
    and nothing is sent. *)
Lemma dispatch_press_or_repeat_witness :
  let event := mkInputEvent EventType.Press "key_b" 48 true 0 0 in
  let t := dispatch event (mkModifiers false true false false) demo in
  ev_type event = EventType.Press
  /\ toggles (layerState (manager t)) = [("sym", true)]
  /\ calls t = [].
Proof.
  cbv zeta. split; [reflexivity |].
  destruct (dispatch_press_or_repeat
              (mkInputEvent EventType.Press "key_b" 48 true 0 0)
              (mkModifiers false true false false) demo (or_introl eq_refl))
    as (Hm & _ & _ & Hc & _).
  split; [rewrite Hm; vm_compute; reflexivity | apply Hc; reflexivity].
Defined.

End DispatcherFacts.

(** ** The capture loop *)

Module InputFacts.

Import Input InputSpec.
Local Open Scope Z_scope.

(** *** The emergency exit *)

Lemma may_append_last seq code :
  may_append seq code = negb (bool_decide (last seq = Some code)).
Proof.
  unfold may_append. destruct (last seq) as [back |].
  - destruct (Z.eqb_spec back code) as [-> | Hne]; cbn.
    + rewrite bool_decide_eq_true_2; reflexivity.
    + rewrite bool_decide_eq_false_2; [reflexivity | congruence].
  - rewrite bool_decide_eq_false_2; [reflexivity | discriminate].
Qed.

Lemma chord_codes code :
  code ∈ EMERGENCY_EXIT ->
  code = KEY_LEFTCTRL \/ code = KEY_LEFTALT \/ code = KEY_ESC.
Proof.
  unfold EMERGENCY_EXIT. intros H.
  repeat (apply elem_of_cons in H as [H | H]; [auto |]). inversion H.
Qed.

(** On a key-down of a chord key the code does what the tracker of the
    specification does. *)
Lemma checkEmergencyExit_chord_down code now s :
  code ∈ EMERGENCY_EXIT ->
  checkEmergencyExit code 1 now s
  = match tracker_down code now (mkTracker (exitSequence s) (exitTimeout s)) with
    | Some tr => Some (with_exit s (matched tr) (lastMatch tr))
    | None => None
    end.
Proof.
  intros Hin.
  assert (Hex : existsb (Z.eqb code) EMERGENCY_EXIT = true).
  { apply chord_codes in Hin as [-> | [-> | ->]]; reflexivity. }
  unfold checkEmergencyExit, tracker_down, seq_eqb.
  cbn [matched lastMatch negb Z.eqb Pos.eqb]. rewrite Hex.
  destruct (second <? now - exitTimeout s);
    cbn [with_exit exitSequence exitTimeout];
    rewrite may_append_last;
    repeat (case_bool_decide || case_decide); cbn [negb];
    try contradiction; try reflexivity.
Qed.

(** Any other key event can only clear a stale sequence. *)
Lemma checkEmergencyExit_other code value now s :
  is_chord_down (code, value, now) = false ->
  checkEmergencyExit code value now s
  = Some (if second <? now - exitTimeout s
          then with_exit s [] (exitTimeout s) else s).
Proof.
  unfold is_chord_down, checkEmergencyExit. intros H.
  destruct (Z.eqb_spec value 1) as [-> | Hv]; cbn [negb andb] in H |- *;
    [| reflexivity].
  assert (Hex : existsb (Z.eqb code) EMERGENCY_EXIT = false).
  { apply bool_decide_eq_false in H. apply not_true_is_false. intros Hex.
    apply H. apply existsb_exists in Hex as (x & Hx & Heq).
    apply Z.eqb_eq in Heq. subst. apply list_elem_of_In. exact Hx. }
  destruct (second <? now - exitTimeout s); cbn [with_exit exitSequence];
    rewrite Hex; reflexivity.
Qed.

Lemma tracks_later t t' s tr : t <= t' -> tracks t s tr -> tracks t' s tr.
Proof.
  intros Hle [Ht [Hs | [Hs Hstale]]]; split; auto. right. split; [auto | lia].
Qed.

Lemma tracker_down_tracks code now t s tr :
  tracks t s tr -> t <= now ->
  tracker_down code now (mkTracker (exitSequence s) (exitTimeout s))
  = tracker_down code now tr.
Proof.
  intros [Ht Hs] Hle. unfold tracker_down. cbn [matched lastMatch].
  rewrite Ht. destruct Hs as [-> | [-> Hstale]]; [reflexivity |].
  destruct (Z.ltb_spec second (now - lastMatch tr)); [reflexivity | lia].
Qed.

Lemma exit_run_refines es :
  forall t s tr, tracks t s tr -> monotone_from t es ->
  match exit_run es s, tracker_run es tr with
  | None, None => True
  | Some s', Some tr' => exists t', tracks t' s' tr'
  | _, _ => False
  end.
Proof.
  induction es as [| [[code value] now] rest IH]; intros t s tr Htr Hmono.
  - cbn. eauto.
  - destruct Hmono as [Hle Hmono]. cbn [exit_run tracker_run].
    destruct (is_chord_down (code, value, now)) eqn:Hcd.
    + assert (Hv : value = 1 /\ code ∈ EMERGENCY_EXIT).
      { unfold is_chord_down in Hcd. apply andb_true_iff in Hcd as [Hv Hc].
        apply Z.eqb_eq in Hv. apply bool_decide_eq_true in Hc. auto. }
      destruct Hv as [-> Hin].
      rewrite checkEmergencyExit_chord_down by exact Hin.
      rewrite (tracker_down_tracks code now t s tr Htr Hle).
      destruct (tracker_down code now tr) as [tr' |] eqn:Hd; [| exact I].
      apply (IH now); [| exact Hmono].
      split; [reflexivity | left; reflexivity].
    + rewrite checkEmergencyExit_other by exact Hcd.
      apply (IH now); [| exact Hmono].
      destruct (Z.ltb_spec second (now - exitTimeout s)) as [Hstale | Hfresh].
      * destruct Htr as [Ht Hs]. split; [exact Ht |].
        right. split; [reflexivity |]. cbn in Ht. rewrite <- Ht. exact Hstale.
      * apply (tracks_later t); assumption.
Qed.

(** The tracker fields after a key event are those [checkEmergencyExit]
    leaves; the rest of [processInputEvent] does not touch them. *)
Lemma checkEmergencyExit_tracker code value now s1 s2 :
  tracker_of s1 = tracker_of s2 ->
  tracker_of <$> checkEmergencyExit code value now s1
  = tracker_of <$> checkEmergencyExit code value now s2.
Proof.
  unfold tracker_of. intros [= Hs Ht]. unfold checkEmergencyExit.
  rewrite !Ht.
  destruct (second <? now - exitTimeout s2);
    cbn [with_exit exitSequence exitTimeout]; rewrite ?Hs, ?Ht;
    repeat case_match; cbn; rewrite ?Hs, ?Ht; reflexivity.
Qed.

Lemma processInputEvent_tracker names code value now steady s :
  tracker_of <$> processInputEvent names code value now steady s
  = tracker_of <$> checkEmergencyExit code value steady s.
Proof.
  unfold processInputEvent.
  set (s0 := if value =? 1 then s
             else if value =? 0 then stopRepeat code s else s).
  assert (H0 : tracker_of s0 = tracker_of s).
  { unfold s0, stopRepeat. repeat case_match; reflexivity. }
  rewrite <- (checkEmergencyExit_tracker code value steady s0 s H0).
  destruct (checkEmergencyExit code value steady s0) as [s1 |]; [| reflexivity].
  unfold stopRepeat. repeat case_match; reflexivity.
Qed.

Lemma checkKeyRepeat_tracker names now s :
  tracker_of (checkKeyRepeat names now s) = tracker_of s.
Proof.
  unfold checkKeyRepeat, triggerKeyRepeat. repeat case_match; reflexivity.
Qed.

(** On a key-down of a chord key, [processInputEvent] moves the tracker
    fields as the specification says, and exits when it says so. *)
Lemma processInputEvent_chord_down names code now steady s :
  code ∈ EMERGENCY_EXIT ->
  tracker_of <$> processInputEvent names code 1 now steady s
  = tracker_down code steady (tracker_of s).
Proof.
  intros Hin. rewrite processInputEvent_tracker.
  rewrite checkEmergencyExit_chord_down by exact Hin.
  unfold tracker_of at 2.
  destruct (tracker_down code steady _) as [[seq t] |]; reflexivity.
Qed.

Lemma processInputEvent_not_chord_down names code value now steady s :
  is_chord_down (code, value, steady) = false ->
  tracker_of <$> processInputEvent names code value now steady s
  = Some (if second <? steady - exitTimeout s
          then mkTracker [] (exitTimeout s) else tracker_of s).
Proof.
  intros H. rewrite processInputEvent_tracker.
  rewrite checkEmergencyExit_other by exact H.
  destruct (second <? steady - exitTimeout s); reflexivity.
Qed.

(** A run that starts with a key-down of a chord key. *)
Lemma run_chord_down names code now steady rest s (P : option Capture -> Prop) :
  code ∈ EMERGENCY_EXIT ->
  (tracker_down code steady (tracker_of s) = None -> P None) ->
  (forall s', tracker_down code steady (tracker_of s) = Some (tracker_of s') ->
              P (run names rest s')) ->
  P (run names (Key code 1 now steady :: rest) s).
Proof.
  intros Hin Hnone Hsome. cbn [run step].
  pose proof (processInputEvent_chord_down names code now steady s Hin) as H.
  destruct (processInputEvent names code 1 now steady s) as [s' |]; cbn in H.
  - apply Hsome. symmetry. exact H.
  - apply Hnone. symmetry. exact H.
Qed.

Lemma ctrl_in_chord : KEY_LEFTCTRL ∈ EMERGENCY_EXIT.
Proof. unfold EMERGENCY_EXIT. set_solver. Qed.
Lemma alt_in_chord : KEY_LEFTALT ∈ EMERGENCY_EXIT.
Proof. unfold EMERGENCY_EXIT. set_solver. Qed.
Lemma esc_in_chord : KEY_ESC ∈ EMERGENCY_EXIT.
Proof. unfold EMERGENCY_EXIT. set_solver. Qed.

(** The tracker of the specification within a second of the last match,
    and after it. *)
Lemma tracker_down_within code t seq t0 :
  t - t0 <= second ->
  tracker_down code t (mkTracker seq t0)
  = let seq' := if decide (last seq = Some code) then seq else seq ++ [code] in
    if decide (seq' = EMERGENCY_EXIT) then None else Some (mkTracker seq' t).
Proof.
  intros H. unfold tracker_down. cbn [matched lastMatch].
  destruct (Z.ltb_spec second (t - t0)); [lia | reflexivity].
Qed.

Lemma tracker_down_after code t seq t0 :
  second < t - t0 ->
  tracker_down code t (mkTracker seq t0)
  = if decide ([code] = EMERGENCY_EXIT) then None else Some (mkTracker [code] t).
Proof.
  intros H. unfold tracker_down. cbn [matched lastMatch].
  destruct (Z.ltb_spec second (t - t0)); [reflexivity | lia].
Qed.

Lemma last_snoc_Z (l : list Z) x : last (l ++ [x]) = Some x.
Proof. apply last_snoc. Qed.

(** What a key-down leaves when the process goes on. *)
Lemma tracker_down_some code t tr tr' :
  tracker_down code t tr = Some tr' ->
  last (matched tr') = Some code /\ matched tr' <> EMERGENCY_EXIT
  /\ lastMatch tr' = t
  /\ (second < t - lastMatch tr -> matched tr' = [code]).
Proof.
  unfold tracker_down.
  destruct (Z.ltb_spec second (t - lastMatch tr)) as [Hs | Hs];
    repeat case_decide; intros [= <-]; cbn [matched lastMatch];
    rewrite ?last_snoc_Z; repeat split; auto; try lia;
    try (intros _; reflexivity); try discriminate.
Qed.

(** Only Esc can complete the chord. *)
Lemma tracker_down_none code t tr :
  tracker_down code t tr = None -> code = KEY_ESC.
Proof.
  unfold tracker_down.
  set (seq0 := if second <? t - lastMatch tr then [] else matched tr).
  destruct (decide (last seq0 = Some code)) as [Hl | Hl];
    case_decide as Heq; try discriminate; intros _.
  - rewrite Heq in Hl. cbn in Hl. congruence.
  - apply (f_equal last) in Heq. rewrite last_snoc_Z in Heq. cbn in Heq.
    congruence.
Qed.

(** The sequence after a key-down of left Ctrl. *)
Lemma tracker_down_ctrl t tr :
  exists seq,
    tracker_down KEY_LEFTCTRL t tr = Some (mkTracker seq t)
    /\ last seq = Some KEY_LEFTCTRL
    /\ (seq = [KEY_LEFTCTRL]
        <-> second < t - lastMatch tr \/ matched tr = []
            \/ matched tr = [KEY_LEFTCTRL]).
Proof.
  unfold tracker_down.
  set (seq0 := if second <? t - lastMatch tr then [] else matched tr).
  assert (Hseq0 : seq0 = [] \/ seq0 = [KEY_LEFTCTRL]
                  <-> second < t - lastMatch tr \/ matched tr = []
                      \/ matched tr = [KEY_LEFTCTRL]).
  { subst seq0. destruct (Z.ltb_spec second (t - lastMatch tr)) as [Hs | Hs].
    - split; auto.
    - split; [tauto |]. intros [H | H]; [lia | exact H]. }
  destruct (decide (last seq0 = Some KEY_LEFTCTRL)) as [Hl | Hl].
  - exists seq0. rewrite decide_False
      by (intros Heq; rewrite Heq in Hl; discriminate).
    split; [reflexivity |]. split; [exact Hl |]. rewrite <- Hseq0.
    split; [auto |]. intros [Hnil | Hone]; [| exact Hone].
    rewrite Hnil in Hl. discriminate.
  - exists (seq0 ++ [KEY_LEFTCTRL]). rewrite decide_False.
    2: { intros Heq. apply (f_equal last) in Heq.
         rewrite last_snoc_Z in Heq. discriminate. }
    split; [reflexivity |]. split; [apply last_snoc_Z |]. rewrite <- Hseq0.
    split.
    + intros Heq. left. destruct seq0 as [| x [| y rest]];
        [reflexivity | discriminate | discriminate].
    + intros [-> | Hone]; [reflexivity |].
      rewrite Hone in Hl. contradiction.
Qed.

Lemma in_order_terminates names s n1 n2 n3 t1 t2 t3 :
  t2 - t1 <= second -> t3 - t2 <= second ->
  run names [Key KEY_LEFTCTRL 1 n1 t1; Key KEY_LEFTALT 1 n2 t2;
             Key KEY_ESC 1 n3 t3] s = None
  <-> (second < t1 - exitTimeout s \/ exitSequence s = []
       \/ exitSequence s = [KEY_LEFTCTRL]).
Proof.
  intros H12 H23.
  destruct (tracker_down_ctrl t1 (tracker_of s)) as (seq & D1 & Hlast & Hone).
  cbn [tracker_of matched lastMatch] in Hone. rewrite <- Hone. clear Hone.
  assert (D2 : tracker_down KEY_LEFTALT t2 (mkTracker seq t1)
               = Some (mkTracker (seq ++ [KEY_LEFTALT]) t2)).
  { rewrite tracker_down_within by exact H12. cbv zeta.
    destruct (decide (last seq = Some KEY_LEFTALT)) as [Hl | _];
      [rewrite Hlast in Hl; cbv in Hl; discriminate Hl |].
    rewrite decide_False; [reflexivity |].
    intros Heq. apply (f_equal last) in Heq. rewrite last_snoc_Z in Heq.
    discriminate. }
  assert (D3 : tracker_down KEY_ESC t3 (mkTracker (seq ++ [KEY_LEFTALT]) t2)
               = if decide (seq = [KEY_LEFTCTRL]) then None
                 else Some (mkTracker (seq ++ [KEY_LEFTALT; KEY_ESC]) t3)).
  { rewrite tracker_down_within by exact H23. cbv zeta.
    destruct (decide (last (seq ++ [KEY_LEFTALT]) = Some KEY_ESC)) as [Hl | _];
      [rewrite last_snoc_Z in Hl; cbv in Hl; discriminate Hl |].
    rewrite <- app_assoc. cbn [app].
    destruct (decide (seq = [KEY_LEFTCTRL])) as [-> | Hne].
    - rewrite decide_True by reflexivity. reflexivity.
    - rewrite decide_False; [reflexivity |].
      intros Heq. apply Hne.
      change EMERGENCY_EXIT with ([KEY_LEFTCTRL] ++ [KEY_LEFTALT; KEY_ESC]) in Heq.
      apply app_inv_tail in Heq. exact Heq. }
  apply run_chord_down; [exact ctrl_in_chord | |]; rewrite D1; [discriminate |].
  intros s1 Hs1.
  assert (E1 : tracker_of s1 = mkTracker seq t1) by congruence.
  apply run_chord_down; [exact alt_in_chord | |];
    rewrite E1, D2; [discriminate |].
  intros s2 Hs2.
  assert (E2 : tracker_of s2 = mkTracker (seq ++ [KEY_LEFTALT]) t2)
    by congruence.
  apply run_chord_down; [exact esc_in_chord | |]; rewrite E2, D3.
  - destruct (decide (seq = [KEY_LEFTCTRL])); [tauto | discriminate].
  - intros s3. cbn [run].
    destruct (decide (seq = [KEY_LEFTCTRL])); [discriminate |].
    intros _. split; [discriminate | contradiction].
Qed.

Lemma gap_resets names s n1 n2 n3 t1 t2 t3 :
  second < t2 - t1 \/ second < t3 - t2 ->
  exists s',
    run names [Key KEY_LEFTCTRL 1 n1 t1; Key KEY_LEFTALT 1 n2 t2;
               Key KEY_ESC 1 n3 t3] s = Some s'
    /\ exitSequence s'
       = if decide (second < t3 - t2) then [KEY_ESC] else [KEY_LEFTALT; KEY_ESC].
Proof.
  intros Hgap.
  apply run_chord_down; [exact ctrl_in_chord | |].
  { intros H. apply tracker_down_none in H. discriminate. }
  intros s1 H1. apply tracker_down_some in H1 as (_ & _ & Ht1 & _).
  apply run_chord_down; [exact alt_in_chord | |].
  { intros H. apply tracker_down_none in H. discriminate. }
  intros s2 H2. apply tracker_down_some in H2 as (_ & _ & Ht2 & Hreset).
  cbn [tracker_of lastMatch matched] in Ht1, Ht2, Hreset. rewrite Ht1 in Hreset.
  apply run_chord_down; [exact esc_in_chord | |].
  - unfold tracker_of. rewrite Ht2.
    destruct (decide (second < t3 - t2)) as [Hlate | Hnot].
    + rewrite tracker_down_after by exact Hlate. discriminate.
    + rewrite tracker_down_within by lia.
      rewrite Hreset by lia. discriminate.
  - intros s3 H3. cbn [run]. exists s3. split; [reflexivity |].
    unfold tracker_of in H3. rewrite Ht2 in H3.
    destruct (decide (second < t3 - t2)) as [Hlate | Hnot].
    + rewrite tracker_down_after in H3 by exact Hlate.
      cbv in H3. injection H3 as H3 _. symmetry. exact H3.
    + rewrite tracker_down_within in H3 by lia.
      rewrite Hreset in H3 by lia.
      cbv in H3. injection H3 as H3 _. symmetry. exact H3.
Qed.

Lemma repeated_key_no_progress names code n1 n2 t1 t2 s s1 :
  code ∈ EMERGENCY_EXIT ->
  processInputEvent names code 1 n1 t1 s = Some s1 ->
  t2 - t1 <= second ->
  exists s2, processInputEvent names code 1 n2 t2 s1 = Some s2
             /\ exitSequence s2 = exitSequence s1.
Proof.
  intros Hin H1 H12.
  pose proof (processInputEvent_chord_down names code n1 t1 s Hin) as E1.
  rewrite H1 in E1. cbn in E1. symmetry in E1.
  apply tracker_down_some in E1 as (Hlast & Hne & Ht & _).
  cbn [tracker_of matched lastMatch] in Hlast, Hne, Ht.
  pose proof (processInputEvent_chord_down names code n2 t2 s1 Hin) as E2.
  unfold tracker_of at 2 in E2. rewrite Ht in E2.
  rewrite tracker_down_within in E2 by exact H12. cbv zeta in E2.
  destruct (decide (last (exitSequence s1) = Some code)); [| contradiction].
  destruct (decide (exitSequence s1 = EMERGENCY_EXIT)); [contradiction |].
  destruct (processInputEvent names code 1 n2 t2 s1) as [s2 |]; [| discriminate].
  exists s2. split; [reflexivity |]. cbn in E2. injection E2 as E2 _. exact E2.
Qed.

(** C2, as the specification states it, fails: Esc pressed 100ms before
    stays in the matched sequence, and left Ctrl, left Alt and Esc pressed
    in this order after it, 100ms apart, do not end the process; the
    sequence is then Esc, Ctrl, Alt, Esc. *)
Lemma esc_before_chord_blocks :
  exists s,
    run key_names
      [Key KEY_ESC 1 0 0;
       Key KEY_LEFTCTRL 1 (ms 100) (ms 100);
       Key KEY_LEFTALT 1 (ms 200) (ms 200);
       Key KEY_ESC 1 (ms 300) (ms 300)] Capture_init = Some s
    /\ exitSequence s = [KEY_ESC; KEY_LEFTCTRL; KEY_LEFTALT; KEY_ESC].
Proof. eexists. split; vm_compute; reflexivity. Qed.

(** C2, amended.  On a key-down of a chord key (left Ctrl, left Alt, Esc)
    the capture loop moves the matched sequence as the tracker of the
    specification does: reset when more than a second has passed since the
    last match, append unless the code repeats the last entry; the process
    exits exactly when the sequence is then Ctrl, Alt, Esc, and on no
    other event.  So the three keys in order, each within a second of the
    one before, exit exactly when, at the key-down of Ctrl, the sequence is
    empty, is Ctrl alone, or is more than a second old; a gap of more than
    a second leaves only the keys after the gap and does not exit; and a
    chord key pressed again adds nothing.  Read by a clock that never goes
    back, the code exits on the same runs as the tracker that looks at
    key-downs of chord keys only. *)
Theorem emergency_exit_chord (names : Z -> string) :
  (forall code now steady s, code ∈ EMERGENCY_EXIT ->
     tracker_of <$> processInputEvent names code 1 now steady s
     = tracker_down code steady (tracker_of s))
  /\ (forall code now steady s, code ∈ EMERGENCY_EXIT ->
        let seq0 := if second <? steady - exitTimeout s
                    then [] else exitSequence s in
        let seq1 := if decide (last seq0 = Some code)
                    then seq0 else seq0 ++ [code] in
        processInputEvent names code 1 now steady s = None
        <-> seq1 = EMERGENCY_EXIT)
  /\ (forall code value now steady s,
        processInputEvent names code value now steady s = None ->
        value = 1 /\ code ∈ EMERGENCY_EXIT)
  /\ (forall s n1 n2 n3 t1 t2 t3,
        t2 - t1 <= second -> t3 - t2 <= second ->
        run names [Key KEY_LEFTCTRL 1 n1 t1; Key KEY_LEFTALT 1 n2 t2;
                   Key KEY_ESC 1 n3 t3] s = None
        <-> (second < t1 - exitTimeout s \/ exitSequence s = []
             \/ exitSequence s = [KEY_LEFTCTRL]))
  /\ (forall s n1 n2 n3 t1 t2 t3,
        second < t2 - t1 \/ second < t3 - t2 ->
        exists s',
          run names [Key KEY_LEFTCTRL 1 n1 t1; Key KEY_LEFTALT 1 n2 t2;
                     Key KEY_ESC 1 n3 t3] s = Some s'
          /\ exitSequence s'
             = if decide (second < t3 - t2)
               then [KEY_ESC] else [KEY_LEFTALT; KEY_ESC])
  /\ (forall code n1 n2 t1 t2 s s1,
        code ∈ EMERGENCY_EXIT ->
        processInputEvent names code 1 n1 t1 s = Some s1 ->
        t2 - t1 <= second ->
        exists s2, processInputEvent names code 1 n2 t2 s1 = Some s2
                   /\ exitSequence s2 = exitSequence s1)
  /\ (forall es t s, monotone_from t es ->
        exit_run es s = None <-> tracker_run es (tracker_of s) = None).
Proof.
  split; [intros; apply processInputEvent_chord_down; assumption |].
  split.
  { intros code now steady s Hin. cbv zeta.
    pose proof (processInputEvent_chord_down names code now steady s Hin) as E.
    unfold tracker_down in E. cbn [tracker_of matched lastMatch] in E.
    destruct (processInputEvent names code 1 now steady s) as [s' |];
      case_decide as Hc; cbn in E; try discriminate;
      split; intros H; congruence. }
  split.
  { intros code value now steady s Hnone.
    destruct (is_chord_down (code, value, steady)) eqn:Hcd.
    - unfold is_chord_down in Hcd. apply andb_true_iff in Hcd as [Hv Hc].
      apply Z.eqb_eq in Hv. apply bool_decide_eq_true in Hc. auto.
    - pose proof (processInputEvent_not_chord_down names code value now steady
                    s Hcd) as E.
      rewrite Hnone in E. discriminate. }
  split; [apply in_order_terminates |].
  split; [apply gap_resets |].
  split; [apply repeated_key_no_progress |].
  intros es t s Hmono.
  assert (Htr : tracks t s (tracker_of s))
    by (split; [reflexivity | left; reflexivity]).
  pose proof (exit_run_refines es t s (tracker_of s) Htr Hmono) as H.
  destruct (exit_run es s), (tracker_run es (tracker_of s));
    try contradiction; split; intros; congruence.
Qed.

(** From the state the handler starts in: Ctrl at 0s, Alt at 0.3s and
    Esc at 0.6s. *)
Lemma emergency_exit_chord_witness :
  exitSequence Capture_init = []
  /\ run key_names
       [Key KEY_LEFTCTRL 1 0 0; Key KEY_LEFTALT 1 (ms 300) (ms 300);
        Key KEY_ESC 1 (ms 600) (ms 600)] Capture_init = None.
Proof.
  split; [reflexivity |].
  apply (proj1 (proj2 (proj2 (proj2 (emergency_exit_chord key_names))))).
  - vm_compute. discriminate.
  - vm_compute. discriminate.
  - right. left. reflexivity.
Defined.

(** *** Key repeat *)

(** A firing for Backspace or Delete sets the delay from the new count. *)
Lemma triggerKeyRepeat_accelerates names now s :
  activeKeyCode (keyRepeat s) = KEY_BACKSPACE
  \/ activeKeyCode (keyRepeat s) = KEY_DELETE ->
  repeatDelay (keyRepeat (triggerKeyRepeat names now s))
  = Z.max (ms 10) (ms 50 - (count (keyRepeat s) + 1) * ms 5).
Proof.
  intros [H | H]; unfold triggerKeyRepeat; cbn; rewrite H; reflexivity.
Qed.

(** A firing for any other key keeps the delay it finds, and so does the
    arming of a key. *)
Lemma triggerKeyRepeat_keeps_delay names now s :
  activeKeyCode (keyRepeat s) <> KEY_BACKSPACE ->
  activeKeyCode (keyRepeat s) <> KEY_DELETE ->
  repeatDelay (keyRepeat (triggerKeyRepeat names now s)) = repeatDelay (keyRepeat s).
Proof.
  intros H1 H2. unfold triggerKeyRepeat. cbn.
  destruct (Z.eqb_spec (activeKeyCode (keyRepeat s)) KEY_BACKSPACE);
    [contradiction |].
  destruct (Z.eqb_spec (activeKeyCode (keyRepeat s)) KEY_DELETE);
    [contradiction | reflexivity].
Qed.

Lemma processInputEvent_keeps_delay names code value now steady s s' :
  processInputEvent names code value now steady s = Some s' ->
  repeatDelay (keyRepeat s') = repeatDelay (keyRepeat s).
Proof.
  unfold processInputEvent, checkEmergencyExit, stopRepeat.
  repeat case_match; intros [= <-]; simplify_eq; reflexivity.
Qed.

(** C4.  The key A held down from the start repeats every 60ms, the
    value [repeatDelay] is initialised with.  Held down after Backspace
    was held for a second, it repeats every 10ms: the delay Backspace left
    behind is still in place. *)
Theorem repeat_delay_of_other_keys :
  repeatDelay KeyRepeatState_init = ms 60
  /\ run key_names hold_a Capture_init = Some (final hold_a)
  /\ run key_names backspace_then_a Capture_init = Some (final backspace_then_a)
  /\ repeat_times KEY_A (final hold_a) = [ms 500; ms 560; ms 620; ms 680]
  /\ repeatDelay (keyRepeat (final backspace_then_a)) = ms 10
  /\ repeat_times KEY_A (final backspace_then_a)
     = [ms 1600; ms 1610; ms 1620; ms 1630; ms 1640; ms 1650].
Proof. vm_compute. repeat split. Qed.

End InputFacts.

(** ** Choosing the keyboard *)

Module DeviceFacts.

Import Layout DeviceSelector DeviceSpec.
Local Open Scope Z_scope.

(** [before a c] puts no candidate of a lower score first. *)
Lemma before_score a c : before a c = true -> score c <= score a.
Proof.
  unfold before.
  destruct (Z.eqb_spec (score a) (score c)) as [-> | _]; cbn [negb];
    [lia |].
  intros H. apply Z.ltb_lt in H. lia.
Qed.

Lemma not_before_score a c : before a c = false -> score a <= score c.
Proof.
  unfold before.
  destruct (Z.eqb_spec (score a) (score c)) as [-> | _]; cbn [negb];
    [lia |].
  intros H. apply Z.ltb_ge in H. lia.
Qed.

Lemma insert_candidate_head c l :
  exists best rest,
    insert_candidate c l = best :: rest
    /\ (best = c \/ exists rest', l = best :: rest')
    /\ score c <= score best
    /\ (forall x rest', l = x :: rest' -> score x <= score best).
Proof.
  destruct l as [| x rest]; cbn.
  - exists c, []. repeat split; auto; try lia. intros x rest' [=].
  - destruct (before x c) eqn:Hb.
    + exists x, (insert_candidate c rest). split; [reflexivity |].
      split; [right; eauto |]. split; [apply before_score; exact Hb |].
      intros y rest' [= <- _]. lia.
    + exists c, (x :: rest). split; [reflexivity |]. split; [left; reflexivity |].
      split; [lia |]. intros y rest' [= <- _]. apply not_before_score. exact Hb.
Qed.

(** The front of the sorted list is a candidate of the highest score. *)
Lemma sort_candidates_front l best rest :
  sort_candidates l = best :: rest ->
  best ∈ l /\ forall c, c ∈ l -> score c <= score best.
Proof.
  revert best rest. induction l as [| c l IH]; intros best rest; cbn;
    [discriminate |].
  destruct (insert_candidate_head c (sort_candidates l))
    as (b & r & Hins & Hwho & Hc & Hfront).
  rewrite Hins. intros [= <- <-].
  destruct (sort_candidates l) as [| x xs] eqn:Hsort.
  - destruct l as [| c' l'].
    + destruct Hwho as [-> | (? & [=])]. split; [left |].
      intros y Hy. apply list_elem_of_singleton in Hy. subst. lia.
    + exfalso. cbn in Hsort.
      destruct (insert_candidate_head c' (sort_candidates l'))
        as (? & ? & H & _). congruence.
  - destruct (IH x xs eq_refl) as [Hx Hmax].
    specialize (Hfront x xs eq_refl). split.
    + destruct Hwho as [-> | (r' & [= <- _])]; [left | right; exact Hx].
    + intros y Hy. apply elem_of_cons in Hy as [-> | Hy]; [exact Hc |].
      specialize (Hmax y Hy). lia.
Qed.

(** *** The type [int] *)

Lemma to_int_range z : INT_MIN <= to_int z <= INT_MAX.
Proof.
  unfold to_int, INT_MIN, INT_MAX.
  pose proof (Z.mod_pos_bound (z + 2 ^ 31) (2 ^ 32) ltac:(lia)). lia.
Qed.

Lemma to_int_exact z : INT_MIN <= z <= INT_MAX -> to_int z = z.
Proof.
  unfold to_int, INT_MIN, INT_MAX. intros Hz.
  rewrite Z.mod_small by lia. lia.
Qed.

Lemma scanEndpoint_range phys : INT_MIN <= scanEndpoint phys <= INT_MAX.
Proof.
  assert (Hnone : INT_MIN <= -1 <= INT_MAX) by (unfold INT_MIN, INT_MAX; lia).
  unfold scanEndpoint. destruct phys as [p |]; [| exact Hnone].
  destruct (scan_literal "input" p) as [rest |]; [| exact Hnone].
  destruct (scan_d rest) as [e |] eqn:He; [| exact Hnone].
  revert He. unfold scan_d, stored_int.
  repeat case_match; intros [= <-]; apply to_int_range.
Qed.




End DeviceFacts.

(** ** String helpers of the layout manager *)

Module StringFacts.

Import Bytes Layout LayoutAux.

Lemma erase_if_twice p q str :
  erase_if p (erase_if q str) = erase_if (fun ch => q ch || p ch) str.
Proof.
  induction str as [| ch rest IH]; cbn; [reflexivity |].
  destruct (q ch); cbn; [exact IH |].
  destruct (p ch); [exact IH | rewrite IH; reflexivity].
Qed.

Lemma erase_if_ext p q str :
  (forall ch, p ch = q ch) -> erase_if p str = erase_if q str.
Proof.
  intros H. induction str as [| ch rest IH]; cbn; [reflexivity |].
  rewrite H, IH. reflexivity.
Qed.

Lemma erase_if_clean p str :
  erase_if p (erase_if p str) = erase_if p str.
Proof.
  rewrite erase_if_twice. induction str as [| ch rest IH]; cbn; [reflexivity |].
  destruct (p ch); cbn; rewrite IH; reflexivity.
Qed.

Lemma erase_if_none p str :
  forallb (fun ch => negb (p ch)) (list_ascii_of_string (erase_if p str)) = true.
Proof.
  induction str as [| ch rest IH]; cbn; [reflexivity |].
  destruct (p ch) eqn:Hp; cbn; [exact IH |]. rewrite Hp. exact IH.
Qed.

Lemma erase_if_id p str :
  forallb (fun ch => negb (p ch)) (list_ascii_of_string str) = true ->
  erase_if p str = str.
Proof.
  induction str as [| ch rest IH]; cbn; [reflexivity |].
  intros H. apply andb_true_iff in H as [Hch Hrest].
  apply negb_true_iff in Hch. rewrite Hch, IH by exact Hrest. reflexivity.
Qed.

(** X1.  [cleanChar] is one pass that drops the double quote, the single
    quote and the six white-space characters and keeps every other
    character in place: none of the dropped characters is left, cleaning
    twice is cleaning once, and a string without them comes back as it
    is. *)
Theorem cleanChar_drops_quotes_and_spaces :
  let dropped ch := Ascii.eqb dquote ch || Ascii.eqb squote ch || isspace ch in
  forall charStr,
    cleanChar charStr = erase_if dropped charStr
    /\ forallb (fun ch => negb (dropped ch))
               (list_ascii_of_string (cleanChar charStr)) = true
    /\ cleanChar (cleanChar charStr) = cleanChar charStr
    /\ (forallb (fun ch => negb (dropped ch)) (list_ascii_of_string charStr)
        = true -> cleanChar charStr = charStr).
Proof.
  cbv zeta. intros charStr.
  assert (Hone : cleanChar charStr
                 = erase_if (fun ch => Ascii.eqb dquote ch || Ascii.eqb squote ch
                                       || isspace ch) charStr).
  { unfold cleanChar. rewrite !erase_if_twice.
    apply erase_if_ext. intros ch. apply orb_assoc. }
  split; [exact Hone |]. split; [rewrite Hone; apply erase_if_none |].
  split.
  - unfold cleanChar at 1. rewrite !erase_if_twice.
    rewrite (erase_if_ext _ (fun ch => Ascii.eqb dquote ch || Ascii.eqb squote ch
                                       || isspace ch))
      by (intros ch; apply orb_assoc).
    rewrite Hone. apply erase_if_clean.
  - intros H. rewrite Hone. apply erase_if_id. exact H.
Qed.

(** A quoted layer key with blanks around it cleans to the bare key, and a
    bare key is left alone. *)
Lemma cleanChar_drops_quotes_and_spaces_witness :
  cleanChar (String squote (" ly1 " ++ String squote "")) = "ly1"
  /\ cleanChar "ly1" = "ly1".
Proof.
  split; [reflexivity |].
  apply (proj2 (proj2 (proj2 (cleanChar_drops_quotes_and_spaces "ly1")))).
  reflexivity.
Defined.

(** *** [startsWith] *)

Lemma substring_0_app prefix rest :
  String.substring 0 (String.length prefix) (prefix ++ rest) = prefix.
Proof.
  induction prefix as [| ch p IH].
  - destruct rest; reflexivity.
  - change (String ch (String.substring 0 (String.length p) (p ++ rest))
            = String ch p).
    f_equal. exact IH.
Qed.

Lemma length_app_string (a b : string) :
  String.length (a ++ b) = (String.length a + String.length b)%nat.
Proof.
  induction a as [| ch a IH]; [reflexivity |].
  change (S (String.length (a ++ b)) = S (String.length a + String.length b)).
  f_equal. exact IH.
Qed.

Lemma substring_0_split prefix str :
  (String.length prefix <= String.length str)%nat ->
  String.substring 0 (String.length prefix) str = prefix ->
  exists rest, str = (prefix ++ rest)%string.
Proof.
  revert str. induction prefix as [| ch p IH]; intros str Hlen Hsub.
  - exists str. reflexivity.
  - destruct str as [| ch' str']; cbn in Hlen, Hsub; [lia |].
    injection Hsub as -> Hsub.
    destruct (IH str' ltac:(lia) Hsub) as [rest ->].
    exists rest. reflexivity.
Qed.

(** X2.  [startsWith str prefix] holds exactly when [str] is [prefix]
    followed by some rest; in particular the empty prefix starts every
    string and a prefix longer than the string starts none. *)
Theorem startsWith_iff_prefix str prefix :
  (startsWith str prefix = true <-> exists rest, str = (prefix ++ rest)%string)
  /\ startsWith str "" = true
  /\ ((String.length str < String.length prefix)%nat ->
      startsWith str prefix = false).
Proof.
  unfold startsWith. split; [| split].
  - split.
    + intros H. apply andb_true_iff in H as [Hlen Hsub].
      apply Nat.leb_le in Hlen. apply String.eqb_eq in Hsub.
      apply substring_0_split; assumption.
    + intros [rest ->]. apply andb_true_iff. split.
      * apply Nat.leb_le. rewrite length_app_string. lia.
      * apply String.eqb_eq. apply substring_0_app.
  - cbn. destruct str; reflexivity.
  - intros Hlt. destruct (Nat.leb_spec (String.length prefix) (String.length str));
      [lia | reflexivity].
Qed.

Lemma startsWith_iff_prefix_witness :
  startsWith "ly_sym" "ly" = true /\ startsWith "l" "ly" = false.
Proof.
  split.
  - apply (proj1 (startsWith_iff_prefix "ly_sym" "ly")). exists "_sym". reflexivity.
  - apply (proj2 (proj2 (startsWith_iff_prefix "l" "ly"))). cbn. lia.
Defined.

(** *** [parseLayerType] *)

Lemma tolower_idempotent ch : tolower (tolower ch) = tolower ch.
Proof. destruct ch as [[] [] [] [] [] [] [] []]; reflexivity. Qed.

Lemma toLower_idempotent str : toLower (toLower str) = toLower str.
Proof.
  induction str as [| ch rest IH]; cbn; [reflexivity |].
  rewrite tolower_idempotent, IH. reflexivity.
Qed.

Lemma toLower_length str : String.length (toLower str) = String.length str.
Proof.
  induction str as [| ch rest IH]; [reflexivity |].
  cbn. f_equal. exact IH.
Qed.

(** X3.  [parseLayerType] looks at the lowered string only, so the case
    of the letters does not matter; it reads back what
    [layerTypeToString] writes; and every string that does not lower to
    [toggle] or [onetime] is a hold layer. *)
Theorem parseLayerType_ignores_case typeStr :
  parseLayerType (toLower typeStr) = parseLayerType typeStr
  /\ (forall type, toLower typeStr = layerTypeToString type ->
        parseLayerType typeStr = type)
  /\ (forall type, parseLayerType (layerTypeToString type) = type)
  /\ (toLower typeStr <> "toggle" -> toLower typeStr <> "onetime" ->
      parseLayerType typeStr = Hold).
Proof.
  split; [unfold parseLayerType; rewrite toLower_idempotent; reflexivity |].
  split; [intros type H; unfold parseLayerType; rewrite H; destruct type;
          reflexivity |].
  split; [intros []; reflexivity |].
  intros Ht Ho. unfold parseLayerType.
  destruct (String.eqb_spec (toLower typeStr) "hold"); [reflexivity |].
  destruct (String.eqb_spec (toLower typeStr) "toggle"); [contradiction |].
  destruct (String.eqb_spec (toLower typeStr) "onetime"); [contradiction |].
  reflexivity.
Qed.

Lemma parseLayerType_ignores_case_witness :
  parseLayerType "ToGgLe" = Toggle /\ parseLayerType "sticky" = Hold.
Proof.
  split.
  - apply (proj1 (proj2 (parseLayerType_ignores_case "ToGgLe")) Toggle).
    reflexivity.
  - apply (proj2 (proj2 (proj2 (parseLayerType_ignores_case "sticky"))));
      discriminate.
Defined.

End StringFacts.

(** ** Loading a layout *)

Module LoadFacts.

Import Bytes Utf8 Layout LayoutSpec LoadSpec Example LoadExample LayoutFacts.

(** *** The key positions *)

Lemma buildKeyPositions_other source i acc key :
  key ∉ source -> buildKeyPositions source i acc !! key = acc !! key.
Proof.
  revert i acc. induction source as [| k rest IH]; intros i acc Hnin; cbn;
    [reflexivity |].
  apply not_elem_of_cons in Hnin as [Hne Hnin].
  rewrite IH by exact Hnin. apply lookup_insert_ne. congruence.
Qed.

Lemma buildKeyPositions_last before after i acc key :
  key ∉ after ->
  buildKeyPositions (before ++ key :: after) i acc !! key
  = Some (i + length before).
Proof.
  intros Hnin. revert i acc.
  induction before as [| k rest IH]; intros i acc; cbn.
  - rewrite buildKeyPositions_other by exact Hnin.
    rewrite lookup_insert_eq. f_equal. lia.
  - rewrite IH. f_equal. lia.
Qed.

Lemma buildKeyPositions_size source i acc :
  size (buildKeyPositions source i acc) <= size acc + length source.
Proof.
  revert i acc. induction source as [| k rest IH]; intros i acc; cbn; [lia |].
  specialize (IH (S i) (<[k:=i]> acc)).
  pose proof (map_size_insert k i acc) as Hs.
  destruct (acc !! k); cbn in Hs; lia.
Qed.

Lemma buildKeyPositions_size_NoDup source i acc :
  NoDup source -> (forall k, k ∈ source -> acc !! k = None) ->
  size (buildKeyPositions source i acc) = size acc + length source.
Proof.
  revert i acc. induction source as [| k rest IH]; intros i acc Hnd Hfresh; cbn;
    [lia |].
  apply NoDup_cons in Hnd as [Hk Hnd].
  rewrite IH; [| exact Hnd |].
  - rewrite map_size_insert. rewrite (Hfresh k) by (apply elem_of_cons; left; reflexivity). cbn. lia.
  - intros k' Hk'. rewrite lookup_insert_ne by (intros ->; contradiction).
    apply Hfresh. apply elem_of_cons. right. exact Hk'.
Qed.

Lemma buildKeyPositions_bound source i acc key pos :
  buildKeyPositions source i acc !! key = Some pos ->
  acc !! key = Some pos \/ (i <= pos < i + length source)%nat.
Proof.
  revert i acc. induction source as [| k rest IH]; intros i acc H; cbn in *;
    [left; exact H |].
  destruct (IH _ _ H) as [Hacc | Hrange]; [| right; lia].
  destruct (decide (k = key)) as [-> | Hne].
  - rewrite lookup_insert_eq in Hacc. injection Hacc as <-. right. lia.
  - rewrite lookup_insert_ne in Hacc by exact Hne. left. exact Hacc.
Qed.

(** X4.  The table [keyPositions] built from the key list [source] holds
    exactly the keys of the list, each with the index of its last
    occurrence; it never has more entries than the list has keys, and when
    no key is listed twice every index is the position of its key. *)
Theorem keyPositions_of_source (source : list string) :
  let keyPositions := buildKeyPositions source 0 ∅ in
  (forall key, (key ∈ source) <-> is_Some (keyPositions !! key))
  /\ (forall key pos, keyPositions !! key = Some pos ->
        source !! pos = Some key /\ key ∉ drop (S pos) source)
  /\ size keyPositions <= length source
  /\ (NoDup source ->
      size keyPositions = length source
      /\ forall pos key, source !! pos = Some key ->
           keyPositions !! key = Some pos).
Proof.
  cbv zeta.
  assert (Hfound : forall key, key ∈ source ->
            exists before after,
              source = before ++ key :: after /\ (key ∉ after)
              /\ buildKeyPositions source 0 ∅ !! key = Some (length before)).
  { intros key Hin.
    apply list_elem_of_split_r in Hin as (before & after & -> & Hnin).
    exists before, after. split; [reflexivity |]. split; [exact Hnin |].
    rewrite buildKeyPositions_last by exact Hnin. reflexivity. }
  assert (Hmem : forall key,
            (key ∈ source) <-> is_Some (buildKeyPositions source 0 ∅ !! key)).
  { intros key. split.
    - intros Hin. destruct (Hfound key Hin) as (? & ? & _ & _ & ->). eauto.
    - intros [pos Hpos]. destruct (decide (key ∈ source)) as [| Hnin];
        [assumption |].
      rewrite buildKeyPositions_other in Hpos by exact Hnin.
      rewrite lookup_empty in Hpos. discriminate. }
  split; [exact Hmem |]. split; [| split].
  - intros key pos Hpos.
    assert (Hin : key ∈ source) by (apply Hmem; eauto).
    destruct (Hfound key Hin) as (before & after & Hsrc & Hnin & Hl).
    rewrite Hl in Hpos. injection Hpos as <-. rewrite Hsrc. split.
    + apply list_lookup_middle. reflexivity.
    + replace (before ++ key :: after) with ((before ++ [key]) ++ after)
        by (rewrite <- app_assoc; reflexivity).
      rewrite drop_app_length'; [exact Hnin |].
      rewrite length_app. cbn. lia.
  - pose proof (buildKeyPositions_size source 0 ∅) as H.
    rewrite map_size_empty in H. lia.
  - intros Hnd. split.
    + rewrite buildKeyPositions_size_NoDup; [rewrite map_size_empty; lia | exact Hnd |].
      intros k _. apply lookup_empty.
    + intros pos key Hsrc.
      assert (Hin : key ∈ source) by (apply list_elem_of_lookup; eauto).
      destruct (Hfound key Hin) as (before & after & Heq & Hnin & ->).
      f_equal. eapply NoDup_lookup; [exact Hnd | | exact Hsrc].
      rewrite Heq. apply list_lookup_middle. reflexivity.
Qed.

Lemma keyPositions_of_source_witness :
  NoDup ["key_a"; "key_b"]
  /\ size (buildKeyPositions ["key_a"; "key_b"] 0 ∅) = 2%nat
  /\ buildKeyPositions ["key_a"; "key_b"] 0 ∅ !! "key_b" = Some 1%nat.
Proof.
  assert (Hnd : NoDup ["key_a"; "key_b"])
    by (apply NoDup_cons; split;
        [intros Hin; apply list_elem_of_singleton in Hin; discriminate
        | apply NoDup_singleton]).
  split; [exact Hnd |].
  destruct (proj2 (proj2 (proj2 (keyPositions_of_source ["key_a"; "key_b"])))
              Hnd) as [Hsize Hpos].
  split; [exact Hsize | apply Hpos; reflexivity].
Defined.

(** *** The layers *)

Lemma fitLayer_length sourceLength layer :
  length (fitLayer sourceLength layer) = sourceLength.
Proof.
  unfold fitLayer.
  destruct (Nat.eqb_spec (length layer) sourceLength) as [| Hne]; [assumption |].
  destruct (Nat.ltb_spec (length layer) sourceLength) as [Hlt | Hge].
  - rewrite length_app, length_replicate. lia.
  - rewrite length_take. lia.
Qed.

Lemma fitLayer_lookup sourceLength layer i :
  (i < sourceLength)%nat ->
  fitLayer sourceLength layer !! i = Some (nth i layer "").
Proof.
  intros Hi. rewrite nth_lookup. unfold fitLayer.
  destruct (Nat.eqb_spec (length layer) sourceLength) as [Heq | Hne].
  - destruct (lookup_lt_is_Some_2 layer i ltac:(lia)) as [x ->]. reflexivity.
  - destruct (Nat.ltb_spec (length layer) sourceLength) as [Hlt | Hge].
    + destruct (Nat.lt_ge_cases i (length layer)) as [Hin | Hout].
      * rewrite lookup_app_l by exact Hin.
        destruct (lookup_lt_is_Some_2 layer i Hin) as [x ->]. reflexivity.
      * rewrite lookup_app_r by exact Hout.
        rewrite (lookup_ge_None_2 layer i) by exact Hout.
        rewrite lookup_replicate_2 by lia. reflexivity.
    + rewrite lookup_take_lt by exact Hi.
      destruct (lookup_lt_is_Some_2 layer i ltac:(lia)) as [x ->]. reflexivity.
Qed.

Lemma fitLayer_exact sourceLength layer :
  length layer = sourceLength -> fitLayer sourceLength layer = layer.
Proof.
  intros H. unfold fitLayer. rewrite (proj2 (Nat.eqb_eq _ _) H). reflexivity.
Qed.

Lemma fitLayer_again sourceLength layer :
  fitLayer sourceLength (fitLayer sourceLength layer)
  = fitLayer sourceLength layer.
Proof. apply fitLayer_exact, fitLayer_length. Qed.

(** *** Entries by name *)

Lemma first_entry_here k (names : list string) : first_entry (k :: names) k 0.
Proof. split; [reflexivity | intros j Hj; lia]. Qed.

Lemma first_entry_next k k' (names : list string) f :
  k' <> k -> first_entry names k f -> first_entry (k' :: names) k (S f).
Proof.
  intros Hne [Hf Hfirst]. split; [exact Hf |].
  intros [| j] Hj; cbn; [congruence | apply Hfirst; lia].
Qed.

Lemma first_entry_cons_inv k k' (names : list string) f :
  first_entry (k' :: names) k f ->
  (k' = k /\ f = 0%nat)
  \/ (k' <> k /\ exists f', f = S f' /\ first_entry names k f').
Proof.
  intros [Hf Hfirst]. destruct (decide (k' = k)) as [-> | Hne].
  - left. split; [reflexivity |]. destruct f as [| f]; [reflexivity |].
    exfalso. apply (Hfirst 0%nat); [lia | reflexivity].
  - right. split; [exact Hne |]. destruct f as [| f]; cbn in Hf; [congruence |].
    exists f. split; [reflexivity |]. split; [exact Hf |].
    intros j Hj. apply (Hfirst (S j)). lia.
Qed.

Lemma first_entry_lt (names : list string) k f :
  first_entry names k f -> (f < length names)%nat.
Proof. intros [Hf _]. eapply lookup_lt_Some. exact Hf. Qed.

Lemma first_entry_unique (names : list string) k f f' :
  first_entry names k f -> first_entry names k f' -> f = f'.
Proof.
  intros [Hf Hfirst] [Hf' Hfirst'].
  destruct (Nat.lt_trichotomy f f') as [Hlt | [Heq | Hgt]]; [| exact Heq |].
  - exfalso. exact (Hfirst' f Hlt Hf).
  - exfalso. exact (Hfirst f' Hgt Hf').
Qed.

Lemma first_entry_exists (names : list string) k i :
  names !! i = Some k -> exists f, (f <= i)%nat /\ first_entry names k f.
Proof.
  revert i. induction names as [| k' names IH]; intros i Hi; [discriminate |].
  destruct (decide (k' = k)) as [-> | Hne].
  - exists 0%nat. split; [lia | apply first_entry_here].
  - destruct i as [| i]; cbn in Hi; [congruence |].
    destruct (IH i Hi) as (f & Hle & Hf). exists (S f).
    split; [lia | apply first_entry_next; assumption].
Qed.

Lemma first_entry_NoDup (names : list string) k i :
  NoDup names -> names !! i = Some k -> first_entry names k i.
Proof.
  intros Hnd Hi. split; [exact Hi |]. intros j Hj Hk.
  pose proof (NoDup_lookup _ _ _ _ Hnd Hi Hk). lia.
Qed.

Lemma yaml_lookup_first {A} k (d : list (string * A)) v :
  yaml_lookup k d = Some v
  <-> exists f, first_entry d.*1 k f /\ d !! f = Some (k, v).
Proof.
  induction d as [| [k' v'] rest IH]; cbn.
  - split; [discriminate | intros (f & _ & [=])].
  - destruct (String.eqb_spec k' k) as [-> | Hne].
    + split.
      * intros [= ->]. exists 0%nat. split; [apply first_entry_here | reflexivity].
      * intros (f & Hf & Hv).
        apply first_entry_cons_inv in Hf as [[_ ->] | [Hne _]];
          [| congruence].
        cbn in Hv. congruence.
    + rewrite IH. split.
      * intros (f & Hf & Hv). exists (S f).
        split; [apply first_entry_next; assumption | exact Hv].
      * intros (f & Hf & Hv).
        apply first_entry_cons_inv in Hf as [[Heq _] | (_ & f' & -> & Hf')];
          [congruence |].
        exists f'. split; [exact Hf' | exact Hv].
Qed.

(** [node[k] = v] writes the first entry of the name [k]. *)
Lemma yaml_assign_first {A} k v (d : list (string * A)) f :
  first_entry d.*1 k f -> yaml_assign k v d = <[f := (k, v)]> d.
Proof.
  revert f. induction d as [| [k' v'] rest IH]; intros f Hf; cbn.
  - destruct Hf as [Hf _]. discriminate.
  - cbn in Hf. apply first_entry_cons_inv in Hf as [[-> ->] | (Hne & f' & -> & Hf')].
    + rewrite String.eqb_refl. reflexivity.
    + rewrite (proj2 (String.eqb_neq _ _) Hne). cbn. f_equal. apply IH. exact Hf'.
Qed.

Lemma insert_keeps_names {A} (d : list (string * A)) i k v :
  d.*1 !! i = Some k -> (<[i := (k, v)]> d).*1 = d.*1.
Proof.
  intros Hi. rewrite list_fmap_insert. cbn. apply list_insert_id. exact Hi.
Qed.

Lemma sequences_spec st layers :
  sequences st = Some layers ->
  st = (fun entry : string * list string => (entry.1, Some entry.2)) <$> layers.
Proof.
  revert layers. induction st as [| [k [l |]] rest IH]; intros layers H; cbn in H.
  - injection H as <-. reflexivity.
  - destruct (sequences rest) as [rest' |]; [| discriminate].
    injection H as <-. cbn. f_equal. apply IH. reflexivity.
  - discriminate.
Qed.

(** *** The loop over the layers *)

Section ValidateLayers.

Variable sourceLength : nat.
Variable ls : list (string * option (list string)).

Lemma visited_start : visited sourceLength ls 0 ls.
Proof.
  split; [reflexivity |]. split.
  - intros j k v Hj. left. apply list_elem_of_lookup. eauto.
  - intros f k Hf. lia.
Qed.

Lemma plain_start : plain sourceLength ls 0 ls.
Proof. intros j. split; [lia | reflexivity]. Qed.

Lemma visited_name i st j k v :
  visited sourceLength ls i st -> st !! j = Some (k, v) -> ls.*1 !! j = Some k.
Proof.
  intros [Hnames _] Hj. rewrite <- Hnames, list_lookup_fmap, Hj. reflexivity.
Qed.

Lemma fitEntry_visited i st st' :
  visited sourceLength ls i st -> fitEntry sourceLength i st = Some st' -> visited sourceLength ls (S i) st'.
Proof.
  intros Hv. pose proof Hv as (Hnames & Hfrom & Hdone).
  assert (Hlen : length st = length ls.*1)
    by (rewrite <- Hnames; symmetry; apply length_fmap).
  unfold fitEntry.
  destruct (st !! i) as [[k [layer |]] |] eqn:Hi; [| discriminate |].
  2: { intros [= <-]. split; [exact Hnames |]. split; [exact Hfrom |].
       intros f k Hf Hfirst.
       pose proof (first_entry_lt _ _ _ Hfirst) as Hlt.
       apply lookup_ge_None in Hi.
       apply Hdone; [lia | exact Hfirst]. }
  pose proof (visited_name _ _ _ _ _ Hv Hi) as Hk.
  assert (Hfit : exists l0, (k, Some l0) ∈ ls
                   /\ fitLayer sourceLength layer = fitLayer sourceLength l0).
  { destruct (Hfrom _ _ _ Hi) as [Hin | (l0 & Hin & [= ->])].
    - exists layer. split; [exact Hin | reflexivity].
    - exists l0. split; [exact Hin | apply fitLayer_again]. }
  (* the state after writing the fitted layer at an index [f] of the name *)
  assert (Hwrite : forall f,
            first_entry ls.*1 k f -> (f <= i)%nat ->
            visited sourceLength ls (S i)
              (<[f := (k, Some (fitLayer sourceLength layer))]> st)).
  { intros f Hfirst Hle. split; [| split].
    - rewrite <- Hnames. apply insert_keeps_names. rewrite Hnames.
      destruct Hfirst as [Hf _]. exact Hf.
    - intros j k' v Hj. destruct (decide (j = f)) as [-> | Hne].
      + rewrite list_lookup_insert_eq in Hj
          by (rewrite Hlen; eapply first_entry_lt; eassumption).
        injection Hj as <- <-. right. destruct Hfit as (l0 & Hin & ->). eauto.
      + rewrite list_lookup_insert_ne in Hj by congruence. eapply Hfrom, Hj.
    - intros f' k' Hf' Hfirst'. destruct (decide (f' = f)) as [-> | Hne].
      + assert (k' = k) as ->
          by (destruct Hfirst as [Hf _]; destruct Hfirst' as [Hf'' _]; congruence).
        exists (fitLayer sourceLength layer).
        rewrite list_lookup_insert_eq
          by (rewrite Hlen; eapply first_entry_lt; eassumption).
        split; [reflexivity | apply fitLayer_length].
      + rewrite list_lookup_insert_ne by congruence.
        destruct (decide (f' = i)) as [-> | Hni]; [| apply Hdone; [lia | exact Hfirst']].
        exfalso. apply Hne.
        assert (k' = k) as -> by (destruct Hfirst' as [Hf'' _]; congruence).
        eapply first_entry_unique; eassumption. }
  destruct (first_entry_exists _ _ _ Hk) as (f & Hle & Hfirst).
  destruct (Nat.eqb_spec (length layer) sourceLength) as [Heq | Hne].
  - intros [= <-]. split; [exact Hnames |]. split; [exact Hfrom |].
    intros f' k' Hf' Hfirst'.
    destruct (decide (f' = i)) as [-> | Hni]; [| apply Hdone; [lia | exact Hfirst']].
    assert (k' = k) as -> by (destruct Hfirst' as [Hf'' _]; congruence).
    exists layer. split; [exact Hi | exact Heq].
  - destruct (Nat.ltb_spec (length layer) sourceLength) as [Hlt | Hge].
    + intros [= <-].
      destruct (decide (f = i)) as [-> | Hfi].
      * apply Hwrite; [exact Hfirst | lia].
      * (* the entry is not the first of its name: the first stays *)
        split; [| split].
        -- rewrite <- Hnames. apply insert_keeps_names. rewrite Hnames. exact Hk.
        -- intros j k' v Hj. destruct (decide (j = i)) as [-> | Hji].
           ++ rewrite list_lookup_insert_eq in Hj
                by (eapply lookup_lt_Some; exact Hi).
              injection Hj as <- <-. right.
              destruct Hfit as (l0 & Hin & ->). eauto.
           ++ rewrite list_lookup_insert_ne in Hj by congruence.
              eapply Hfrom, Hj.
        -- intros f' k' Hf' Hfirst'.
           destruct (decide (f' = i)) as [-> | Hni].
           ++ exfalso. apply Hfi.
              assert (k' = k) as -> by (destruct Hfirst' as [Hf'' _]; congruence).
              eapply first_entry_unique; eassumption.
           ++ rewrite list_lookup_insert_ne by congruence.
              apply Hdone; [lia | exact Hfirst'].
    + intros [= <-].
      rewrite (yaml_assign_first k _ st f) by (rewrite Hnames; exact Hfirst).
      apply Hwrite; [exact Hfirst | exact Hle].
Qed.

Lemma validateFrom_visited count i st st' :
  visited sourceLength ls i st -> validateFrom sourceLength count i st = Some st' ->
  visited sourceLength ls (i + count) st'.
Proof.
  revert i st. induction count as [| count IH]; intros i st Hv; cbn.
  - intros [= <-]. rewrite Nat.add_0_r. exact Hv.
  - destruct (fitEntry sourceLength i st) as [st1 |] eqn:Hstep; [| discriminate].
    intros Hrest. replace (i + S count)%nat with (S i + count)%nat by lia.
    eapply IH; [| exact Hrest]. eapply fitEntry_visited; eassumption.
Qed.

Lemma fitEntry_plain i st st' :
  NoDup ls.*1 -> visited sourceLength ls i st -> plain sourceLength ls i st ->
  fitEntry sourceLength i st = Some st' -> plain sourceLength ls (S i) st'.
Proof.
  intros Hnd Hv Hp. unfold fitEntry.
  destruct (st !! i) as [[k [layer |]] |] eqn:Hi; [| discriminate |].
  2: { intros [= <-] j. apply lookup_ge_None in Hi.
       assert (Hlen : length st = length ls)
         by (destruct Hv as [Hn _]; rewrite <- (length_fmap fst), Hn;
             apply length_fmap).
       split.
       - intros Hj entry Hentry. pose proof (lookup_lt_Some _ _ _ Hentry) as Hlt.
         apply (proj1 (Hp j)); [lia | exact Hentry].
       - intros Hj. apply (proj2 (Hp j)). lia. }
  pose proof (visited_name _ _ _ _ _ Hv Hi) as Hk.
  pose proof (first_entry_NoDup _ _ _ Hnd Hk) as Hfirst.
  assert (Hls : ls !! i = Some (k, Some layer))
    by (rewrite <- (proj2 (Hp i)) by lia; exact Hi).
  assert (Hsame : forall st1,
            st1 = <[i := (k, Some (fitLayer sourceLength layer))]> st ->
            plain sourceLength ls (S i) st1).
  { intros st1 -> j. split.
    - intros Hj entry Hentry. destruct (decide (j = i)) as [-> | Hne].
      + rewrite Hls in Hentry. injection Hentry as <-. exists layer.
        split; [reflexivity |].
        apply list_lookup_insert_eq. eapply lookup_lt_Some. exact Hi.
      + rewrite list_lookup_insert_ne by congruence.
        apply (proj1 (Hp j)); [lia | exact Hentry].
    - intros Hj. rewrite list_lookup_insert_ne by lia. apply (proj2 (Hp j)). lia. }
  destruct (Nat.eqb_spec (length layer) sourceLength) as [Heq | Hne].
  - intros [= <-]. apply Hsame. rewrite fitLayer_exact by exact Heq.
    symmetry. apply list_insert_id. exact Hi.
  - destruct (Nat.ltb_spec (length layer) sourceLength) as [Hlt | Hge];
      intros [= <-]; apply Hsame; [reflexivity |].
    apply yaml_assign_first. destruct Hv as [-> _]. exact Hfirst.
Qed.

Lemma validateFrom_plain count i st st' :
  NoDup ls.*1 -> visited sourceLength ls i st -> plain sourceLength ls i st ->
  validateFrom sourceLength count i st = Some st' -> plain sourceLength ls (i + count) st'.
Proof.
  intros Hnd. revert i st. induction count as [| count IH]; intros i st Hv Hp; cbn.
  - intros [= <-]. rewrite Nat.add_0_r. exact Hp.
  - destruct (fitEntry sourceLength i st) as [st1 |] eqn:Hstep; [| discriminate].
    intros Hrest. replace (i + S count)%nat with (S i + count)%nat by lia.
    eapply IH; [| | exact Hrest].
    + eapply fitEntry_visited; eassumption.
    + eapply fitEntry_plain; eassumption.
Qed.

(** The layers after the loop. *)
Lemma validateLayers_fits layers :
  validateLayers sourceLength ls = Some layers ->
  layers.*1 = ls.*1
  /\ (forall layerName layer,
        yaml_lookup layerName layers = Some layer ->
        length layer = sourceLength
        /\ exists layer0, (layerName, Some layer0) ∈ ls
             /\ layer = fitLayer sourceLength layer0)
  /\ (NoDup ls.*1 ->
      Forall2 (fun entry loaded =>
                 loaded.1 = entry.1
                 /\ exists layer, entry.2 = Some layer
                      /\ loaded.2 = fitLayer sourceLength layer)
              ls layers).
Proof.
  unfold validateLayers.
  destruct (validateFrom sourceLength (length ls) 0 ls) as [st |] eqn:Hloop;
    [| discriminate].
  intros Hseq. apply sequences_spec in Hseq.
  pose proof (validateFrom_visited _ _ _ _ visited_start Hloop)
    as (Hnames & Hfrom & Hdone).
  assert (Hn : layers.*1 = ls.*1).
  { rewrite <- Hnames, Hseq, <- list_fmap_compose. apply list_fmap_ext.
    intros i [k l] _. reflexivity. }
  assert (Hat : forall j k l, layers !! j = Some (k, l) -> st !! j = Some (k, Some l)).
  { intros j k l Hj. rewrite Hseq, list_lookup_fmap, Hj. reflexivity. }
  split; [exact Hn |]. split.
  - intros layerName layer Hlook.
    apply yaml_lookup_first in Hlook as (f & Hfirst & Hf).
    rewrite Hn in Hfirst. apply Hat in Hf.
    assert (Hlt : (f < 0 + length ls)%nat).
    { rewrite <- (length_fmap fst ls). eapply first_entry_lt. exact Hfirst. }
    destruct (Hdone f layerName Hlt Hfirst) as (layer' & Hf' & Hlen).
    rewrite Hf in Hf'. injection Hf' as <-. split; [exact Hlen |].
    destruct (Hfrom _ _ _ Hf) as [Hin | (l0 & Hin & [= ->])].
    + exists layer. split; [exact Hin |]. symmetry. apply fitLayer_exact, Hlen.
    + exists l0. split; [exact Hin | reflexivity].
  - intros Hnd.
    pose proof (validateFrom_plain _ _ _ _ Hnd visited_start plain_start Hloop)
      as Hplain.
    apply Forall2_same_length_lookup_2.
    + rewrite <- (length_fmap fst ls), <- Hn. apply length_fmap.
    + intros j entry [k l] Hentry Hj.
      destruct (proj1 (Hplain j)) with (entry := entry)
        as (layer & Hsome & Hst); [apply lookup_lt_Some in Hentry; lia | exact Hentry |].
      apply Hat in Hj. rewrite Hj in Hst. injection Hst as -> ->.
      split; [reflexivity |]. exists layer. split; [exact Hsome | reflexivity].
Qed.

End ValidateLayers.

Lemma loadLayout_inv disk state layoutsDir m :
  loadLayout disk state layoutsDir = inr m ->
  exists doc source ls,
    layoutsDir (default "" (state !! "layout")) = LayoutParsed doc
    /\ doc_source doc = Some source /\ doc_layers doc = Some ls
    /\ keyPositions m = buildKeyPositions source 0 ∅
    /\ validateLayers (size (keyPositions m)) ls = Some (layers m)
    /\ layerKeys m = buildLayerKeys (default [] (doc_layer_keys doc)) ∅.
Proof.
  unfold loadLayout. intros H.
  destruct (layoutsDir _) as [| | | doc]; try discriminate.
  destruct (doc_source doc) as [source |] eqn:Hsrc; [| discriminate].
  destruct (doc_layers doc) as [ls |] eqn:Hls; [| discriminate].
  destruct (validateLayers _ ls) as [layers |] eqn:Hval; [| discriminate].
  injection H as <-. cbn. exists doc, source, ls. repeat split; assumption.
Qed.

Lemma loaded_layer_length disk state layoutsDir m layerName layer :
  loadLayout disk state layoutsDir = inr m ->
  yaml_lookup layerName (layers m) = Some layer ->
  length layer = size (keyPositions m).
Proof.
  intros Hload Hlook.
  destruct (loadLayout_inv _ _ _ _ Hload)
    as (doc & source & ls & _ & _ & _ & _ & Hval & _).
  apply validateLayers_fits in Hval as (_ & Hfit & _).
  apply (Hfit _ _ Hlook).
Qed.

(** A layer name given twice, first to a short layer and then to a long
    one: the cut layer is stored in the first entry, and the long layer
    stays as it is. *)
Lemma repeated_layer_name_loaded :
  loadLayout (mkDisk FileMissing true) (loadState FileMissing)
    (layouts_with doc_repeated_layer) = inr repeated_layer
  /\ layers repeated_layer = [("base", ["x"; "y"]); ("base", ["x"; "y"; "z"])].
Proof. split; vm_compute; reflexivity. Qed.

(** X5.  After a successful load, the layer found under a name has as
    many entries as [keyPositions] has keys: it is a layer of that name in
    the document, filled up with empty strings or cut to that length.  The
    layers keep their names and their order.  When the document gives no
    layer name twice, every layer is the document's layer at the same
    place, brought to that length: an entry below the length is the one of
    the document, or the empty string where the document's layer was
    shorter.  (With a repeated name an over-long layer is cut into the
    first entry of its name and is itself left as it is.) *)
Theorem loaded_layers_fit disk state layoutsDir m :
  loadLayout disk state layoutsDir = inr m ->
  exists doc source ls,
    layoutsDir (default "" (state !! "layout")) = LayoutParsed doc
    /\ doc_source doc = Some source /\ doc_layers doc = Some ls
    /\ keyPositions m = buildKeyPositions source 0 ∅
    /\ (layers m).*1 = ls.*1
    /\ (forall layerName loaded,
          yaml_lookup layerName (layers m) = Some loaded ->
          length loaded = size (keyPositions m)
          /\ exists layer, (layerName, Some layer) ∈ ls
               /\ forall i, (i < size (keyPositions m))%nat ->
                    loaded !! i = Some (nth i layer ""))
    /\ (NoDup ls.*1 ->
        Forall2 (fun entry loaded =>
                   loaded.1 = entry.1
                   /\ exists layer, entry.2 = Some layer
                        /\ length loaded.2 = size (keyPositions m)
                        /\ forall i, (i < size (keyPositions m))%nat ->
                             loaded.2 !! i = Some (nth i layer ""))
                ls (layers m)).
Proof.
  intros Hload.
  destruct (loadLayout_inv _ _ _ _ Hload)
    as (doc & source & ls & Hdoc & Hsrc & Hls & Hkp & Hval & _).
  exists doc, source, ls. repeat (split; [assumption |]).
  apply validateLayers_fits in Hval as (Hnames & Hfit & Hplain).
  split; [exact Hnames |]. split.
  - intros layerName loaded Hlook.
    destruct (Hfit _ _ Hlook) as (Hlen & layer & Hin & ->).
    split; [exact Hlen |]. exists layer. split; [exact Hin |].
    intros i Hi. apply fitLayer_lookup. exact Hi.
  - intros Hnd. eapply Forall2_impl; [exact (Hplain Hnd) |].
    intros entry loaded (Hname & layer & Hentry & Hfit').
    split; [exact Hname |]. exists layer. split; [exact Hentry |].
    rewrite Hfit'. split; [apply fitLayer_length |].
    intros i Hi. apply fitLayer_lookup. exact Hi.
Qed.

Lemma loaded_layers_fit_witness :
  exists base,
    yaml_lookup "base" (layers repeated_layer) = Some base
    /\ length base = size (keyPositions repeated_layer).
Proof.
  destruct (loaded_layers_fit _ _ _ _ (proj1 repeated_layer_name_loaded))
    as (doc & source & ls & _ & _ & _ & _ & _ & Hfit & _).
  exists ["x"; "y"]. split; [reflexivity |].
  apply (Hfit "base" ["x"; "y"] eq_refl).
Defined.

(** *** Positions and layers *)

Lemma buildKeyPositions_full source i acc :
  size (buildKeyPositions source i acc) = size acc + length source ->
  NoDup source /\ forall k, k ∈ source -> acc !! k = None.
Proof.
  revert i acc. induction source as [| k rest IH]; intros i acc Hsize; cbn in *.
  - split; [constructor | intros k Hk; inversion Hk].
  - pose proof (buildKeyPositions_size rest (S i) (<[k:=i]> acc)) as Hle.
    pose proof (map_size_insert k i acc) as Hins.
    destruct (acc !! k) eqn:Hk; cbn in Hins; [lia |].
    destruct (IH (S i) (<[k:=i]> acc) ltac:(lia)) as [Hnd Hfresh].
    split.
    + apply NoDup_cons. split; [| exact Hnd].
      intros Hin. specialize (Hfresh k Hin).
      rewrite lookup_insert_eq in Hfresh. discriminate.
    + intros k' Hk'. apply elem_of_cons in Hk' as [-> | Hk']; [exact Hk |].
      specialize (Hfresh k' Hk').
      destruct (decide (k = k')) as [-> | Hne].
      * rewrite lookup_insert_eq in Hfresh. discriminate.
      * rewrite lookup_insert_ne in Hfresh by exact Hne. exact Hfresh.
Qed.

(** X6.  When the layout's [source] lists no key twice, the position of
    every key lies inside every layer, at start and after any run of key
    events: the bounds checks of [processKeyEvent] never fire. *)
Theorem loaded_positions_in_range disk state layoutsDir doc source m :
  layoutsDir (default "" (state !! "layout")) = LayoutParsed doc ->
  doc_source doc = Some source ->
  NoDup source ->
  loadLayout disk state layoutsDir = inr m ->
  forall es keyName pos layerName layer,
    keyPositions (handle_all es m) !! keyName = Some pos ->
    yaml_lookup layerName (layers (handle_all es m)) = Some layer ->
    (pos < length layer)%nat.
Proof.
  intros Hdoc Hsrc Hnd Hload es keyName pos layerName layer.
  destruct (handle_all_static es m) as (-> & -> & _).
  intros Hpos Hlayer.
  rewrite (loaded_layer_length _ _ _ _ _ _ Hload Hlayer).
  destruct (loadLayout_inv _ _ _ _ Hload)
    as (doc' & source' & ls & Hdoc' & Hsrc' & _ & Hkp & _).
  rewrite Hdoc in Hdoc'. injection Hdoc' as <-.
  rewrite Hsrc in Hsrc'. injection Hsrc' as <-.
  rewrite Hkp in *.
  rewrite buildKeyPositions_size_NoDup, map_size_empty;
    [| exact Hnd | intros k _; apply lookup_empty].
  destruct (buildKeyPositions_bound _ _ _ _ _ Hpos) as [Hempty | Hrange];
    [rewrite lookup_empty in Hempty; discriminate | lia].
Qed.

Lemma loaded_positions_in_range_witness :
  NoDup ["key_a"; "key_b"; "key_c"; "key_d"]
  /\ keyPositions demo !! "key_d" = Some 3%nat
  /\ (3 < length ["x"; "ly1"; "ly2"; "ly3"])%nat.
Proof.
  assert (Hnd : NoDup ["key_a"; "key_b"; "key_c"; "key_d"]).
  { refine (bool_decide_unpack _ _). vm_compute. exact I. }
  split; [exact Hnd |]. split; [reflexivity |].
  apply (loaded_positions_in_range (mkDisk FileMissing true)
           (loadState FileMissing) (layouts_with demo_doc) demo_doc
           ["key_a"; "key_b"; "key_c"; "key_d"] demo
           eq_refl eq_refl Hnd ltac:(vm_compute; reflexivity)
           [] "key_d" 3%nat "base" ["x"; "ly1"; "ly2"; "ly3"] eq_refl eq_refl).
Defined.

(** X7.  When [source] lists a key twice, the last key of the list is dead:
    its position is past the end of the base layer, so an event of that key
    never gives a character and never changes the manager, whatever came
    before it. *)
Theorem repeated_source_key_kills_last disk state layoutsDir doc source m key :
  layoutsDir (default "" (state !! "layout")) = LayoutParsed doc ->
  doc_source doc = Some source ->
  ~ NoDup source ->
  last source = Some key ->
  loadLayout disk state layoutsDir = inr m ->
  forall es keyCode eventType,
    let m' := handle_all es m in
    processKeyEvent key keyCode eventType m' = (Returned None, m').
Proof.
  intros Hdoc Hsrc Hdup Hlast Hload es keyCode eventType. cbv zeta.
  destruct (loadLayout_inv _ _ _ _ Hload)
    as (doc' & source' & ls & Hdoc' & Hsrc' & _ & Hkp & _).
  rewrite Hdoc in Hdoc'. injection Hdoc' as <-.
  rewrite Hsrc in Hsrc'. injection Hsrc' as <-.
  apply last_Some in Hlast as [before ->].
  assert (Hpos : keyPositions m !! key = Some (length before)).
  { rewrite Hkp. rewrite buildKeyPositions_last; [reflexivity |].
    apply not_elem_of_nil. }
  assert (Hsmall : (size (keyPositions m) <= length before)%nat).
  { rewrite Hkp.
    pose proof (buildKeyPositions_size (before ++ [key]) 0 ∅) as Hle.
    rewrite map_size_empty, length_app in Hle. cbn in Hle.
    destruct (decide (size (buildKeyPositions (before ++ [key]) 0 ∅)
                      = S (length before))) as [Heq |]; [| lia].
    exfalso. apply Hdup.
    apply (buildKeyPositions_full (before ++ [key]) 0 ∅).
    rewrite map_size_empty, length_app. cbn. lia. }
  unfold processKeyEvent.
  destruct (handle_all_static es m) as (Hl & Hk & _).
  destruct (negb (eventType =? "press")%string
            && negb (eventType =? "repeat")%string); [reflexivity |].
  rewrite Hk, Hpos, Hl.
  destruct (yaml_lookup "base" (layers m)) as [base |] eqn:Hbase;
    [| reflexivity].
  rewrite (loaded_layer_length _ _ _ _ _ _ Hload Hbase).
  rewrite (proj2 (Nat.leb_le _ _) Hsmall). reflexivity.
Qed.

Lemma repeated_source_key_kills_last_witness :
  ~ NoDup ["key_a"; "key_a"; "key_b"]
  /\ processKeyEvent "key_b" 48 "press" repeated_key
     = (Returned None, repeated_key).
Proof.
  assert (Hdup : ~ NoDup ["key_a"; "key_a"; "key_b"]).
  { intros H. apply NoDup_cons in H as [H _]. apply H.
    apply elem_of_cons. left. reflexivity. }
  split; [exact Hdup |].
  apply (repeated_source_key_kills_last (mkDisk FileMissing true)
           (loadState FileMissing) (layouts_with doc_repeated_key)
           doc_repeated_key ["key_a"; "key_a"; "key_b"] repeated_key "key_b"
           eq_refl eq_refl Hdup eq_refl ltac:(vm_compute; reflexivity)
           [] 48%Z "press").
Defined.

End LoadFacts.

(** ** Layer keys and the state file *)

Module StateFacts.

Import Bytes Utf8 Layout LayoutSpec Example LoadSpec LayoutFacts.

(** *** The layer-key table *)

Lemma registerKeys_lookup layerName layerType keyList acc key :
  registerKeys layerName layerType keyList acc !! key
  = if decide (key ∈ keyList) then Some (mkLayerKeyConfig layerName layerType)
    else acc !! key.
Proof.
  unfold registerKeys. revert acc.
  induction keyList as [| k rest IH]; intros acc; cbn.
  - case_decide as Hin; [inversion Hin | reflexivity].
  - rewrite IH. case_decide as Hrest; case_decide as Hall; try reflexivity.
    + exfalso. apply Hall. apply elem_of_cons. right. exact Hrest.
    + apply elem_of_cons in Hall as [-> | Hin]; [| contradiction].
      apply lookup_insert_eq.
    + apply lookup_insert_ne. intros ->. apply Hall. apply elem_of_cons.
      left. reflexivity.
Qed.

Lemma buildLayerKeys_skip layer_keys acc key :
  Forall (skips key) layer_keys ->
  buildLayerKeys layer_keys acc !! key = acc !! key.
Proof.
  revert acc. induction layer_keys as [| [layerName config] rest IH];
    intros acc Hall; cbn; [reflexivity |].
  apply Forall_cons in Hall as [Hhead Hrest]. unfold skips in Hhead.
  cbn in Hhead.
  destruct (String.eqb_spec layerName "base") as [| Hne];
    [apply IH; exact Hrest |].
  rewrite IH by exact Hrest. rewrite registerKeys_lookup.
  destruct Hhead as [| Hnin]; [contradiction |].
  case_decide; [contradiction | reflexivity].
Qed.

Lemma buildLayerKeys_app before after acc :
  buildLayerKeys (before ++ after) acc
  = buildLayerKeys after (buildLayerKeys before acc).
Proof.
  revert acc. induction before as [| [layerName config] rest IH]; intros acc;
    cbn; [reflexivity |].
  destruct (String.eqb layerName "base"); apply IH.
Qed.

(** X8.  A key of the layer-key table belongs to the last entry of
    [layer_keys] that lists it, entries for the layer [base] left aside: it
    targets that entry's layer with that entry's type.  A key no such entry
    lists is not in the table. *)
Theorem layerKeys_last_entry_wins (layer_keys : list (string * KeyConfigDoc))
    (key : string) :
  (Forall (skips key) layer_keys ->
   buildLayerKeys layer_keys ∅ !! key = None)
  /\ (forall before layerName config after,
        layer_keys = before ++ (layerName, config) :: after ->
        layerName <> "base" -> key ∈ cfg_key config ->
        Forall (skips key) after ->
        buildLayerKeys layer_keys ∅ !! key
        = Some (mkLayerKeyConfig layerName (entry_type config))).
Proof.
  split.
  - intros Hall. rewrite buildLayerKeys_skip by exact Hall. apply lookup_empty.
  - intros before layerName config after -> Hne Hin Hafter.
    rewrite buildLayerKeys_app. cbn.
    destruct (String.eqb_spec layerName "base") as [| _]; [contradiction |].
    rewrite buildLayerKeys_skip by exact Hafter.
    rewrite registerKeys_lookup. case_decide; [reflexivity | contradiction].
Qed.

Lemma layerKeys_last_entry_wins_witness :
  buildLayerKeys
    [("sym", mkKeyConfigDoc ["ly1"] (Some "toggle"));
     ("base", mkKeyConfigDoc ["ly1"] (Some "onetime"));
     ("nav", mkKeyConfigDoc ["ly1"; "ly2"] None);
     ("fn", mkKeyConfigDoc ["ly3"] (Some "onetime"))] ∅ !! "ly1"
  = Some (mkLayerKeyConfig "nav" Hold).
Proof.
  apply (proj2 (layerKeys_last_entry_wins _ "ly1")
           [("sym", mkKeyConfigDoc ["ly1"] (Some "toggle"));
            ("base", mkKeyConfigDoc ["ly1"] (Some "onetime"))]
           "nav" (mkKeyConfigDoc ["ly1"; "ly2"] None)
           [("fn", mkKeyConfigDoc ["ly3"] (Some "onetime"))] eq_refl).
  - discriminate.
  - apply elem_of_cons. left. reflexivity.
  - apply Forall_cons. split; [| apply Forall_nil_2].
    right. cbn. intros H. apply list_elem_of_singleton in H. discriminate H.
Defined.

(** *** Saving and loading *)

Lemma saved_toggles_keep doc ts k :
  (forall layer, k <> ("toggle_" ++ layer)%string) ->
  yaml_lookup k
    (fold_left
       (fun stateNode '(layer, active) =>
          yaml_assign ("toggle_" ++ layer)%string (YScalar (bool_text active))
                      stateNode)
       ts doc)
  = yaml_lookup k doc.
Proof.
  intros Hk. revert doc. induction ts as [| [layer active] rest IH];
    intros doc; cbn; [reflexivity |].
  rewrite IH. apply yaml_lookup_assign_ne. apply Hk.
Qed.

Lemma stateDocument_names state ls stateNode :
  stateDocument state ls = Some stateNode ->
  exists l y,
    state !! "layout" = Some l /\ state !! "layer" = Some y
    /\ yaml_lookup "layout" stateNode = Some (YScalar l)
    /\ yaml_lookup "layer" stateNode = Some (YScalar y).
Proof.
  unfold stateDocument.
  destruct (state !! "layout") as [l |]; [| discriminate].
  destruct (state !! "layer") as [y |]; [| discriminate].
  intros [= <-]. exists l, y. repeat split.
  - rewrite saved_toggles_keep by (intros layer; discriminate). reflexivity.
  - rewrite saved_toggles_keep by (intros layer; discriminate). reflexivity.
Qed.

(** X9.  What a restart reads back.  [saveState] fails exactly when [state]
    lacks one of the keys [layout] and [layer]; it leaves the file alone
    when the file cannot be opened for writing; and from a file it has
    written [loadState] restores the layout name and the layer name, and
    nothing else. *)
Theorem saved_state_reloads (m : LayoutManager) :
  (saveState m = None
   <-> state m !! "layout" = None \/ state m !! "layer" = None)
  /\ (forall disk, saveState m = Some disk ->
        writable (stateFile m) = false -> disk = stateFile m)
  /\ (forall disk, saveState m = Some disk ->
        writable (stateFile m) = true ->
        exists l y,
          state m !! "layout" = Some l /\ state m !! "layer" = Some y
          /\ loadState (content disk) = <["layer" := y]> (<["layout" := l]> ∅)).
Proof.
  unfold saveState. split; [| split].
  - unfold stateDocument.
    destruct (state m !! "layout"), (state m !! "layer");
      destruct (writable (stateFile m)); split;
      solve [ discriminate | intros [|]; discriminate | intros; auto ].
  - intros disk H Hw. rewrite Hw in H.
    destruct (stateDocument _ _); [| discriminate]. injection H as <-.
    reflexivity.
  - intros disk H Hw. rewrite Hw in H.
    destruct (stateDocument _ _) as [stateNode |] eqn:Hdoc; [| discriminate].
    injection H as <-.
    destruct (stateDocument_names _ _ _ Hdoc) as (l & y & Hl & Hy & Hdl & Hdy).
    exists l, y. split; [exact Hl |]. split; [exact Hy |].
    cbn. unfold loadState. rewrite Hdl, Hdy.
    apply map_eq. intros k.
    destruct (decide (k = "layer")) as [-> | Hk1]; [simplify_map_eq; reflexivity |].
    destruct (decide (k = "layout")) as [-> | Hk2]; simplify_map_eq; reflexivity.
Qed.

Lemma saved_state_reloads_witness :
  exists disk,
    saveState (press "key_b" 48 demo) = Some disk
    /\ writable (stateFile (press "key_b" 48 demo)) = true
    /\ loadState (content disk)
       = <["layer" := "base"]> (<["layout" := "default"]> ∅).
Proof.
  destruct (saveState (press "key_b" 48 demo)) as [disk |] eqn:Hsave;
    [| vm_compute in Hsave; discriminate Hsave].
  exists disk. split; [reflexivity |]. split; [reflexivity |].
  destruct (proj2 (proj2 (saved_state_reloads (press "key_b" 48 demo)))
              disk Hsave eq_refl) as (l & y & Hl & Hy & Hload).
  vm_compute in Hl, Hy. injection Hl as <-. injection Hy as <-. exact Hload.
Defined.

(** *** What key events leave alone *)

Lemma activateLayer_keeps cfg keyCode m :
  let m' := snd (activateLayer cfg keyCode m) in
  current (layerState m') = current (layerState m)
  /\ state m' !! "layout" = state m !! "layout"
  /\ state m' !! "layer" = state m !! "layer".
Proof.
  unfold activateLayer, saveState, with_layerState.
  repeat case_match; cbn; repeat split; try reflexivity;
    apply lookup_insert_ne; discriminate.
Qed.

Lemma handle_keeps e m :
  current (layerState (handle e m)) = current (layerState m)
  /\ state (handle e m) !! "layout" = state m !! "layout"
  /\ state (handle e m) !! "layer" = state m !! "layer".
Proof.
  destruct e as [keyName keyCode eventType | keyCode]; cbn.
  - unfold processKeyEvent.
    repeat case_match; try (repeat split; reflexivity).
    + apply activateLayer_keeps.
    + unfold resolveCharacter, with_layerState.
      repeat case_match; cbn; repeat split; reflexivity.
  - unfold handleKeyRelease, with_layerState.
    case_match; cbn; repeat split; reflexivity.
Qed.

Lemma activateLayer_file cfg keyCode m :
  let m' := snd (activateLayer cfg keyCode m) in
  stateFile m' = stateFile m
  \/ exists stateNode l y,
       content (stateFile m') = FileDoc stateNode
       /\ state m !! "layout" = Some l /\ state m !! "layer" = Some y
       /\ yaml_lookup "layout" stateNode = Some (YScalar l)
       /\ yaml_lookup "layer" stateNode = Some (YScalar y).
Proof.
  unfold activateLayer, with_layerState.
  destruct (type cfg); cbn; try (left; reflexivity).
  match goal with |- context [saveState ?x] => set (m1 := x) end.
  unfold saveState.
  destruct (stateDocument (state m1) (layerState m1)) as [stateNode |] eqn:Hdoc;
    [| left; reflexivity].
  change (writable (stateFile m1)) with (writable (stateFile m)).
  destruct (writable (stateFile m)); cbn; [| left; reflexivity].
  right. destruct (stateDocument_names _ _ _ Hdoc) as (l & y & Hl & Hy & Hdl & Hdy).
  exists stateNode, l, y. split; [reflexivity |].
  subst m1. cbn in Hl, Hy.
  rewrite lookup_insert_ne in Hl by discriminate.
  rewrite lookup_insert_ne in Hy by discriminate.
  repeat split; assumption.
Qed.

Lemma handle_file e m :
  stateFile (handle e m) = stateFile m
  \/ exists stateNode l y,
       content (stateFile (handle e m)) = FileDoc stateNode
       /\ state m !! "layout" = Some l /\ state m !! "layer" = Some y
       /\ yaml_lookup "layout" stateNode = Some (YScalar l)
       /\ yaml_lookup "layer" stateNode = Some (YScalar y).
Proof.
  destruct e as [keyName keyCode eventType | keyCode]; cbn.
  - unfold processKeyEvent.
    repeat case_match; try (left; reflexivity).
    + apply activateLayer_file.
    + left. unfold resolveCharacter, with_layerState.
      repeat case_match; reflexivity.
  - left. unfold handleKeyRelease, with_layerState. case_match; reflexivity.
Qed.

(** X10.  No key event changes the layout name or the layer name: the two
    keys of [state] and the field [current] are after any run of events
    what the constructor made them, and the state file is the one found at
    start or one that names that layout and that layer. *)
Theorem events_keep_layout_and_layer (es : list KeyEvent) (m : LayoutManager) :
  let m' := handle_all es m in
  current (layerState m') = current (layerState m)
  /\ state m' !! "layout" = state m !! "layout"
  /\ state m' !! "layer" = state m !! "layer"
  /\ (stateFile m' = stateFile m
      \/ exists stateNode l y,
           content (stateFile m') = FileDoc stateNode
           /\ state m !! "layout" = Some l /\ state m !! "layer" = Some y
           /\ yaml_lookup "layout" stateNode = Some (YScalar l)
           /\ yaml_lookup "layer" stateNode = Some (YScalar y)).
Proof.
  cbv zeta. induction es as [| e es IH] using rev_ind.
  - cbn. repeat split; try reflexivity. left. reflexivity.
  - rewrite handle_all_snoc.
    destruct IH as (Hc & Hl & Hy & Hfile).
    destruct (handle_keeps e (handle_all es m)) as (Hc' & Hl' & Hy').
    split; [congruence |]. split; [congruence |]. split; [congruence |].
    destruct (handle_file e (handle_all es m))
      as [Hsame | (stateNode & l & y & Hdoc & Hsl & Hsy & Hdl & Hdy)].
    + rewrite Hsame. exact Hfile.
    + right. exists stateNode, l, y. rewrite <- Hl, <- Hy.
      repeat split; assumption.
Qed.

End StateFacts.

(** ** Key events *)

Module EventFacts.

Import Bytes Utf8 Layout LayoutAux LayoutSpec Example LayoutFacts.

Lemma activateLayer_no_character cfg keyCode m ch :
  fst (activateLayer cfg keyCode m) <> Returned (Some ch).
Proof.
  unfold activateLayer. repeat case_match; cbn; discriminate.
Qed.

Lemma getLayerForKey_false layerKeys keyName baseChar cfg :
  getLayerForKey layerKeys keyName baseChar = (false, cfg) ->
  cfg = LayerKeyConfig_default.
Proof.
  unfold getLayerForKey. repeat case_match; intros [=]; congruence.
Qed.

Lemma press_or_repeat_test eventType :
  negb (String.eqb eventType "press") && negb (String.eqb eventType "repeat")
  = false -> press_or_repeat eventType.
Proof.
  unfold press_or_repeat.
  destruct (String.eqb_spec eventType "press");
    destruct (String.eqb_spec eventType "repeat"); cbn; auto; discriminate.
Qed.

(** X11.  A call of [processKeyEvent] returns a character only for a press
    or a repeat of a key of [source] whose base symbol is no layer key; the
    character is then the one decoded from the current layer's entry at the
    key's position, and the call has changed nothing but the one-time
    layer, which it has cleared. *)
Theorem character_comes_from_current_layer keyName keyCode eventType m ch :
  fst (processKeyEvent keyName keyCode eventType m) = Returned (Some ch) ->
  press_or_repeat eventType
  /\ exists pos base layerNode,
       keyPositions m !! keyName = Some pos
       /\ yaml_lookup "base" (layers m) = Some base
       /\ (pos < length base)%nat
       /\ getLayerForKey (layerKeys m) keyName (nth pos base "")
          = (false, LayerKeyConfig_default)
       /\ yaml_lookup (getCurrentLayer (layerState m)) (layers m)
          = Some layerNode
       /\ (pos < length layerNode)%nat
       /\ stringToChar32 (nth pos layerNode "") = Some ch
       /\ snd (processKeyEvent keyName keyCode eventType m)
          = with_layerState m
              (mkLayerState (current (layerState m)) (toggles (layerState m))
                            "" (hold (layerState m)) (holdKey (layerState m))).
Proof.
  unfold processKeyEvent.
  destruct (negb (eventType =? "press")%string
            && negb (eventType =? "repeat")%string) eqn:Htype;
    [discriminate |].
  destruct (keyPositions m !! keyName) as [pos |] eqn:Hpos; [| discriminate].
  destruct (yaml_lookup "base" (layers m)) as [base |] eqn:Hbase;
    [| discriminate].
  destruct (Nat.leb_spec (length base) pos) as [| Hin]; [discriminate |].
  destruct (getLayerForKey (layerKeys m) keyName (nth pos base ""))
    as [[] layerConfig] eqn:Hkey.
  - intros H. exfalso. exact (activateLayer_no_character _ _ _ _ H).
  - apply getLayerForKey_false in Hkey as Hcfg. subst layerConfig.
    intros H. split; [apply press_or_repeat_test; exact Htype |].
    exists pos, base.
    destruct (yaml_lookup (getCurrentLayer (layerState m)) (layers m))
      as [layerNode |] eqn:Hlayer;
      [| unfold resolveCharacter in H; rewrite Hlayer in H; discriminate].
    destruct (Nat.leb_spec (length layerNode) pos) as [Hout | Hin'].
    + unfold resolveCharacter in H. rewrite Hlayer in H.
      rewrite (proj2 (Nat.leb_le _ _) Hout) in H. discriminate.
    + rewrite (resolveCharacter_consumes _ _ _ Hlayer Hin') in H |- *.
      cbn in H. injection H as H.
      exists layerNode. repeat split; try assumption; reflexivity.
Qed.

Lemma character_comes_from_current_layer_witness :
  fst (processKeyEvent "key_a" 30 "press" (press "key_b" 48 demo))
  = Returned (Some 121%Z)
  /\ press_or_repeat "press".
Proof.
  assert (H : fst (processKeyEvent "key_a" 30 "press" (press "key_b" 48 demo))
              = Returned (Some 121%Z)) by (vm_compute; reflexivity).
  split; [exact H |].
  exact (proj1 (character_comes_from_current_layer _ _ _ _ _ H)).
Defined.

(** X12.  A one-time layer serves one key.  After the press of a one-time
    layer key the next press of a character key is answered from the table
    of the armed layer, and that press puts the layer state back to what it
    was before the layer key. *)
Theorem onetime_layer_serves_one_key m keyName keyCode eventType layerName
    next nextCode nextType pos base layerNode :
  press_or_repeat eventType ->
  layer_key m keyName (mkLayerKeyConfig layerName Onetime) ->
  layerName <> "" ->
  oneTime (layerState m) = "" ->
  press_or_repeat nextType ->
  keyPositions m !! next = Some pos ->
  yaml_lookup "base" (layers m) = Some base ->
  (pos < length base)%nat ->
  getLayerForKey (layerKeys m) next (nth pos base "")
  = (false, LayerKeyConfig_default) ->
  yaml_lookup layerName (layers m) = Some layerNode ->
  (pos < length layerNode)%nat ->
  let m1 := snd (processKeyEvent keyName keyCode eventType m) in
  let r := processKeyEvent next nextCode nextType m1 in
  fst (processKeyEvent keyName keyCode eventType m) = Returned None
  /\ getCurrentLayer (layerState m1) = layerName
  /\ fst r = Returned (stringToChar32 (nth pos layerNode ""))
  /\ layerState (snd r) = layerState m
  /\ getCurrentLayer (layerState (snd r)) = getCurrentLayer (layerState m).
Proof.
  intros Htype Hkey Hname Hone Hnext Hpos Hbase Hin Hplain Hlayer Hin'.
  cbv zeta.
  rewrite (processKeyEvent_layer_key _ keyCode _ _ _ Htype Hkey).
  unfold activateLayer. cbn.
  assert (Hcur : getCurrentLayer
                   (mkLayerState (current (layerState m))
                      (toggles (layerState m)) layerName
                      (hold (layerState m)) (holdKey (layerState m)))
                 = layerName).
  { unfold getCurrentLayer. cbn.
    destruct (String.eqb_spec layerName ""); [contradiction | reflexivity]. }
  split; [reflexivity |]. split; [exact Hcur |].
  unfold processKeyEvent.
  destruct Hnext as [-> | ->]; cbn [negb andb String.eqb Ascii.eqb Bool.eqb];
    cbn [with_layerState keyPositions layers layerKeys];
    rewrite Hpos, Hbase, (proj2 (Nat.leb_gt _ _) Hin), Hplain;
    (erewrite resolveCharacter_consumes;
       [| cbn [with_layerState layerState layers]; rewrite Hcur; exact Hlayer
        | exact Hin']);
    destruct m as [? ? ? ? [] ?]; cbn in Hone |- *; subst;
    repeat split; reflexivity.
Qed.

Lemma onetime_layer_serves_one_key_witness :
  let m1 := press "key_d" 32 demo in
  getCurrentLayer (layerState m1) = "fn"
  /\ fst (processKeyEvent "key_a" 30 "press" m1) = Returned (Some 102%Z)
  /\ layerState (press "key_a" 30 m1) = layerState demo.
Proof.
  assert (Hkey : layer_key demo "key_d" (mkLayerKeyConfig "fn" Onetime)).
  { exists 3%nat, ["x"; "ly1"; "ly2"; "ly3"]. repeat split. cbn. lia. }
  destruct (onetime_layer_serves_one_key demo "key_d" 32 "press" "fn"
              "key_a" 30 "press" 0%nat ["x"; "ly1"; "ly2"; "ly3"]
              ["f"; ""; ""; ""]
              (or_introl eq_refl) Hkey ltac:(discriminate) eq_refl
              (or_introl eq_refl) eq_refl eq_refl ltac:(cbn; lia) eq_refl
              eq_refl ltac:(cbn; lia))
    as (_ & Hcur & Hchar & Hstate & _).
  split; [exact Hcur |]. split; [exact Hchar | exact Hstate].
Defined.

(** *** The start-up report *)

Lemma reportBase_spec layerKeys baseLayer i r :
  r ∈ reportBase layerKeys baseLayer i <->
  exists pos charStr,
    baseLayer !! pos = Some charStr
    /\ cleanChar charStr <> ""
    /\ startsWith (cleanChar charStr) "ly" = true
    /\ r = mkKeyReport (i + pos) charStr (cleanChar charStr)
             (layerKeys !! cleanChar charStr).
Proof.
  revert i. induction baseLayer as [| c rest IH]; intros i; cbn.
  - split; [intros H; inversion H | intros (pos & ch & H & _); discriminate].
  - destruct (negb (cleanChar c =? "")%string && startsWith (cleanChar c) "ly")
      eqn:Htest.
    + apply andb_true_iff in Htest as [Hne Hly].
      apply negb_true_iff in Hne. apply String.eqb_neq in Hne.
      rewrite elem_of_cons, IH. split.
      * intros [-> | (pos & ch & Hat & H1 & H2 & ->)].
        -- exists 0%nat, c. rewrite Nat.add_0_r. repeat split; assumption.
        -- exists (S pos), ch. rewrite Nat.add_succ_r. repeat split; assumption.
      * intros ([| pos] & ch & Hat & H1 & H2 & ->); cbn in Hat.
        -- injection Hat as <-. left. rewrite Nat.add_0_r. reflexivity.
        -- right. exists pos, ch. rewrite Nat.add_succ_r.
           repeat split; assumption.
    + rewrite IH. split.
      * intros (pos & ch & Hat & H1 & H2 & ->).
        exists (S pos), ch. rewrite Nat.add_succ_r. repeat split; assumption.
      * intros ([| pos] & ch & Hat & H1 & H2 & ->); cbn in Hat.
        -- injection Hat as <-. exfalso.
           apply String.eqb_neq in H1. rewrite H1, H2 in Htest. discriminate.
        -- exists pos, ch. rewrite Nat.add_succ_r. repeat split; assumption.
Qed.

(** X13.  The start-up report of [verifyLayerKeys] and the handling of key
    events agree: the report shows a position of the base layer as
    configured for [cfg] exactly when a press of the key at that position
    is taken for a layer key with configuration [cfg]. *)
Theorem report_agrees_with_events layerKeys baseLayer keyName pos cfg :
  (pos < length baseLayer)%nat ->
  ((exists r, r ∈ reportBase layerKeys baseLayer 0
              /\ rep_position r = pos /\ rep_config r = Some cfg)
   <-> getLayerForKey layerKeys keyName (nth pos baseLayer "") = (true, cfg)).
Proof.
  intros Hpos.
  destruct (lookup_lt_is_Some_2 baseLayer pos Hpos) as [charStr Hat].
  rewrite nth_lookup, Hat. cbn. unfold getLayerForKey. split.
  - intros (r & Hr & Hp & Hc).
    apply reportBase_spec in Hr as (pos' & ch & Hat' & Hne & Hly & ->).
    cbn in Hp, Hc. subst pos'. rewrite Hat in Hat'. injection Hat' as <-.
    apply String.eqb_neq in Hne. rewrite Hne, Hly, Hc. reflexivity.
  - destruct (negb (cleanChar charStr =? "")%string
              && startsWith (cleanChar charStr) "ly") eqn:Htest;
      [| discriminate].
    destruct (layerKeys !! cleanChar charStr) as [cfg' |] eqn:Hcfg;
      [| discriminate].
    intros [= <-].
    apply andb_true_iff in Htest as [Hne Hly].
    apply negb_true_iff in Hne. apply String.eqb_neq in Hne.
    exists (mkKeyReport pos charStr (cleanChar charStr) (Some cfg')).
    split; [| split; reflexivity].
    apply reportBase_spec. exists pos, charStr. rewrite Hcfg.
    repeat split; assumption.
Qed.

Lemma report_agrees_with_events_witness :
  getLayerForKey (layerKeys demo) "key_c" "ly2"
  = (true, mkLayerKeyConfig "nav" Hold).
Proof.
  apply (proj1 (report_agrees_with_events (layerKeys demo)
                  ["x"; "ly1"; "ly2"; "ly3"] "key_c" 2
                  (mkLayerKeyConfig "nav" Hold) ltac:(cbn; lia))).
  exists (mkKeyReport 2 "ly2" "ly2" (Some (mkLayerKeyConfig "nav" Hold))).
  split; [| split; reflexivity].
  vm_compute. apply elem_of_cons. right. apply elem_of_cons. left. reflexivity.
Defined.

End EventFacts.

(** ** The capture loop and its queue *)

Module CaptureFacts.

Import Layout Input EventQueue Dispatcher InputSpec CaptureSpec InputFacts.
Local Open Scope Z_scope.

(** *** What each step leaves alone *)

Lemma checkEmergencyExit_frame code value now s s' :
  checkEmergencyExit code value now s = Some s' ->
  modifiers s' = modifiers s /\ keyRepeat s' = keyRepeat s
  /\ eventQueue s' = eventQueue s.
Proof.
  unfold checkEmergencyExit, with_exit.
  repeat case_match; intros [= <-]; cbn; repeat split; reflexivity.
Qed.

Lemma stopRepeat_frame code s :
  modifiers (stopRepeat code s) = modifiers s
  /\ eventQueue (stopRepeat code s) = eventQueue s
  /\ exitSequence (stopRepeat code s) = exitSequence s
  /\ exitTimeout (stopRepeat code s) = exitTimeout s.
Proof.
  unfold stopRepeat, with_keyRepeat. case_match; cbn; repeat split; reflexivity.
Qed.

Lemma processInputEvent_modifiers names code value now steady s s' :
  processInputEvent names code value now steady s = Some s' ->
  modifiers s'
  = match MODIFIER_MAP code with
    | Some md => set_modifier md (0 <? value) (modifiers s)
    | None => modifiers s
    end.
Proof.
  unfold processInputEvent.
  destruct (checkEmergencyExit code value steady _) as [s1 |] eqn:Hexit;
    [| discriminate].
  apply checkEmergencyExit_frame in Hexit as (Hm & _ & _).
  assert (Hm' : modifiers s1 = modifiers s).
  { rewrite Hm. repeat case_match; try reflexivity; apply stopRepeat_frame. }
  destruct (MODIFIER_MAP code) as [md |].
  - intros [= <-]. cbn. rewrite Hm'. reflexivity.
  - repeat case_match; intros [= <-]; cbn; try exact Hm'.
    rewrite (proj1 (stopRepeat_frame code s1)). exact Hm'.
Qed.

Lemma triggerKeyRepeat_modifiers names now s :
  modifiers (triggerKeyRepeat names now s) = modifiers s.
Proof. unfold triggerKeyRepeat. repeat case_match; reflexivity. Qed.

Lemma checkKeyRepeat_modifiers names now s :
  modifiers (checkKeyRepeat names now s) = modifiers s.
Proof.
  unfold checkKeyRepeat.
  repeat case_match; try reflexivity; apply triggerKeyRepeat_modifiers.
Qed.

(** X14.  A modifier flag is the state of the last event of either of its
    two keys: an event of a modifier key sets the key's flag to whether its
    value is positive and leaves the other flags alone, and no other event
    and no timer check changes a flag.  So the release of one of the two
    keys clears the flag while the other is still down. *)
Theorem modifier_flag_follows_last_event (names : Z -> string) :
  (forall code value now steady s s' md,
     processInputEvent names code value now steady s = Some s' ->
     MODIFIER_MAP code = Some md ->
     isModifierActive md s' = (0 <? value)
     /\ forall md', md' <> md -> isModifierActive md' s' = isModifierActive md' s)
  /\ (forall code value now steady s s',
        processInputEvent names code value now steady s = Some s' ->
        MODIFIER_MAP code = None -> modifiers s' = modifiers s)
  /\ (forall now s, modifiers (checkKeyRepeat names now s) = modifiers s)
  /\ (forall one other md n1 t1 n2 t2 n3 t3 s s',
        MODIFIER_MAP one = Some md -> MODIFIER_MAP other = Some md ->
        run names [Key one 1 n1 t1; Key other 1 n2 t2; Key other 0 n3 t3] s
        = Some s' ->
        isModifierActive md s' = false).
Proof.
  assert (Hset : forall code value now steady s s' md,
            processInputEvent names code value now steady s = Some s' ->
            MODIFIER_MAP code = Some md ->
            isModifierActive md s' = (0 <? value)
            /\ forall md', md' <> md ->
                 isModifierActive md' s' = isModifierActive md' s).
  { intros code value now steady s s' md H Hmd.
    apply processInputEvent_modifiers in H. rewrite Hmd in H.
    unfold isModifierActive. rewrite H. split.
    - destruct md; reflexivity.
    - intros md' Hne. destruct md, md'; try reflexivity; contradiction. }
  split; [exact Hset |]. split; [| split].
  - intros code value now steady s s' H Hmd.
    apply processInputEvent_modifiers in H. rewrite Hmd in H. exact H.
  - apply checkKeyRepeat_modifiers.
  - intros one other md n1 t1 n2 t2 n3 t3 s s' Hone Hother. cbn [run step].
    destruct (processInputEvent names one 1 n1 t1 s) as [s1 |]; [| discriminate].
    destruct (processInputEvent names other 1 n2 t2 s1) as [s2 |];
      [| discriminate].
    destruct (processInputEvent names other 0 n3 t3 s2) as [s3 |] eqn:H3;
      [| discriminate].
    intros [= <-]. apply (Hset _ _ _ _ _ _ _ H3 Hother).
Qed.

Lemma modifier_flag_follows_last_event_witness :
  exists s,
    run key_names [Key KEY_LEFTSHIFT 1 0 0; Key KEY_RIGHTSHIFT 1 1 1;
                   Key KEY_RIGHTSHIFT 0 2 2] Capture_init = Some s
    /\ isModifierActive Modifier.Shift s = false.
Proof.
  destruct (run key_names [Key KEY_LEFTSHIFT 1 0 0; Key KEY_RIGHTSHIFT 1 1 1;
                           Key KEY_RIGHTSHIFT 0 2 2] Capture_init)
    as [s |] eqn:Hrun; [| vm_compute in Hrun; discriminate Hrun].
  exists s. split; [reflexivity |].
  exact (proj2 (proj2 (proj2 (modifier_flag_follows_last_event key_names)))
           KEY_LEFTSHIFT KEY_RIGHTSHIFT Modifier.Shift 0 0 1 1 2 2
           Capture_init s eq_refl eq_refl Hrun).
Defined.

(** *** The queue and the repeat tracker *)

Lemma stopRepeat_keyRepeat code s :
  keyRepeat (stopRepeat code s)
  = if activeKeyCode (keyRepeat s) =? code
    then mkKeyRepeatState (-1) 0 (lastTime (keyRepeat s))
                          (initialDelay (keyRepeat s)) (repeatDelay (keyRepeat s))
    else keyRepeat s.
Proof. unfold stopRepeat. case_match; reflexivity. Qed.

Lemma stopRepeat_twice code s s1 :
  keyRepeat s1 = keyRepeat (stopRepeat code s) ->
  keyRepeat (stopRepeat code s1) = keyRepeat (stopRepeat code s).
Proof.
  intros H. rewrite (stopRepeat_keyRepeat code s1), H.
  rewrite stopRepeat_keyRepeat.
  destruct (activeKeyCode (keyRepeat s) =? code) eqn:Hact; cbn.
  - case_match; reflexivity.
  - rewrite Hact. reflexivity.
Qed.

Lemma processInputEvent_effect names code value now steady s s' :
  processInputEvent names code value now steady s = Some s' ->
  eventQueue s'
  = eventQueue s
    ++ match MODIFIER_MAP code with
       | Some _ =>
           [mkInputEvent EventType.Modifier (names code) code (0 <? value) now 0;
            mkInputEvent EventType.RawKey (names code) code false now value]
       | None =>
           if value =? 1
           then [mkInputEvent EventType.Press (names code) code true now 0]
           else if value =? 0
                then [mkInputEvent EventType.Release (names code) code false now 0]
                else []
       end
  /\ keyRepeat s'
     = if value =? 1
       then match MODIFIER_MAP code with
            | Some _ => keyRepeat s
            | None => mkKeyRepeatState code 0 now (initialDelay (keyRepeat s))
                                       (repeatDelay (keyRepeat s))
            end
       else if value =? 0 then keyRepeat (stopRepeat code s) else keyRepeat s.
Proof.
  unfold processInputEvent.
  destruct (checkEmergencyExit code value steady _) as [s1 |] eqn:Hexit;
    [| discriminate].
  apply checkEmergencyExit_frame in Hexit as (_ & Hk & Hq).
  destruct (MODIFIER_MAP code) as [md |];
    destruct (value =? 1); [| destruct (value =? 0) | | destruct (value =? 0)];
    intros [= <-]; cbn; rewrite ?Hq, ?Hk, <- ?app_assoc;
    try (split; reflexivity).
  - rewrite (proj1 (proj2 (stopRepeat_frame code s))). split; reflexivity.
  - rewrite (proj1 (proj2 (stopRepeat_frame code s1))), Hq.
    rewrite (proj1 (proj2 (stopRepeat_frame code s))).
    split; [reflexivity |]. apply stopRepeat_twice. exact Hk.
  - rewrite app_nil_r. split; reflexivity.
Qed.

Lemma triggerKeyRepeat_effect names now s :
  eventQueue (triggerKeyRepeat names now s)
  = eventQueue s
    ++ [mkInputEvent EventType.Repeat (names (activeKeyCode (keyRepeat s)))
                     (activeKeyCode (keyRepeat s)) true now 0]
  /\ activeKeyCode (keyRepeat (triggerKeyRepeat names now s))
     = activeKeyCode (keyRepeat s)
  /\ count (keyRepeat (triggerKeyRepeat names now s)) = count (keyRepeat s) + 1
  /\ lastTime (keyRepeat (triggerKeyRepeat names now s)) = now
  /\ initialDelay (keyRepeat (triggerKeyRepeat names now s))
     = initialDelay (keyRepeat s)
  /\ (repeatDelay (keyRepeat (triggerKeyRepeat names now s))
      = repeatDelay (keyRepeat s)
      \/ repeatDelay (keyRepeat (triggerKeyRepeat names now s))
         = Z.max (ms 10) (ms 50 - (count (keyRepeat s) + 1) * ms 5)).
Proof.
  unfold triggerKeyRepeat. cbn.
  case_match; cbn; repeat split; auto.
Qed.

Lemma checkKeyRepeat_cases names now s :
  (checkKeyRepeat names now s = s
   /\ (activeKeyCode (keyRepeat s) = -1
       \/ now - lastTime (keyRepeat s)
          < (if count (keyRepeat s) =? 0 then initialDelay (keyRepeat s)
             else repeatDelay (keyRepeat s))))
  \/ (checkKeyRepeat names now s = triggerKeyRepeat names now s
      /\ activeKeyCode (keyRepeat s) <> -1
      /\ (if count (keyRepeat s) =? 0 then initialDelay (keyRepeat s)
          else repeatDelay (keyRepeat s))
         <= now - lastTime (keyRepeat s)).
Proof.
  unfold checkKeyRepeat.
  destruct (Z.eqb_spec (activeKeyCode (keyRepeat s)) (-1)) as [| Hact];
    [left; split; [reflexivity | left; assumption] |].
  destruct (count (keyRepeat s) =? 0).
  - destruct (Z.leb_spec (initialDelay (keyRepeat s))
                (now - lastTime (keyRepeat s)));
      [right | left]; repeat split; auto.
  - destruct (Z.leb_spec (repeatDelay (keyRepeat s))
                (now - lastTime (keyRepeat s)));
      [right | left]; repeat split; auto.
Qed.

Lemma run_app names acts1 acts2 s :
  run names (acts1 ++ acts2) s
  = match run names acts1 s with
    | Some s1 => run names acts2 s1
    | None => None
    end.
Proof.
  revert s. induction acts1 as [| a rest IH]; intros s; cbn; [reflexivity |].
  destruct (step names a s); [apply IH | reflexivity].
Qed.

Lemma step_delays names a s s' n :
  step names a s = Some s' ->
  initialDelay (keyRepeat s) = ms 500
  /\ (repeatDelay (keyRepeat s) = ms 60
      \/ ms 10 <= repeatDelay (keyRepeat s) <= ms 50)
  /\ 0 <= count (keyRepeat s) <= n ->
  initialDelay (keyRepeat s') = ms 500
  /\ (repeatDelay (keyRepeat s') = ms 60
      \/ ms 10 <= repeatDelay (keyRepeat s') <= ms 50)
  /\ 0 <= count (keyRepeat s') <= n + 1.
Proof.
  intros Hstep (Hi & Hr & Hc). destruct a as [code value now steady | now];
    cbn in Hstep.
  - apply processInputEvent_effect in Hstep as [_ ->].
    rewrite stopRepeat_keyRepeat.
    repeat case_match; cbn; repeat split; auto; lia.
  - injection Hstep as <-.
    destruct (checkKeyRepeat_cases names now s) as [[-> _] | [-> _]];
      [split; [exact Hi |]; split; [exact Hr | lia] |].
    destruct (triggerKeyRepeat_effect names now s)
      as (_ & _ & Hc' & _ & Hi' & Hr').
    rewrite Hi', Hc'. split; [exact Hi |]. split; [| lia].
    destruct Hr' as [-> | ->]; [exact Hr |]. right. unfold ms in *. lia.
Qed.

Lemma run_delays names acts s s' n :
  run names acts s = Some s' ->
  initialDelay (keyRepeat s) = ms 500
  /\ (repeatDelay (keyRepeat s) = ms 60
      \/ ms 10 <= repeatDelay (keyRepeat s) <= ms 50)
  /\ 0 <= count (keyRepeat s) <= n ->
  initialDelay (keyRepeat s') = ms 500
  /\ (repeatDelay (keyRepeat s') = ms 60
      \/ ms 10 <= repeatDelay (keyRepeat s') <= ms 50)
  /\ 0 <= count (keyRepeat s') <= n + Z.of_nat (length acts).
Proof.
  revert s n. induction acts as [| a rest IH]; intros s n Hrun Hs; cbn in Hrun.
  - injection Hrun as <-. cbn [length]. rewrite Z.add_0_r. exact Hs.
  - destruct (step names a s) as [s1 |] eqn:Ha; [| discriminate].
    pose proof (IH _ _ Hrun (step_delays _ _ _ _ _ Ha Hs)) as H.
    cbn [length]. rewrite Nat2Z.inj_succ.
    replace (n + Z.succ (Z.of_nat (length rest)))
      with (n + 1 + Z.of_nat (length rest)) by lia.
    exact H.
Qed.

(** X15.  However the capture loop has run, the delay before the first
    repeat is 500 ms, and the delay between repeats is the 60 ms it starts
    with or a value from 10 ms to 50 ms; the repeat count is never negative
    and never more than the number of steps the loop has made. *)
Theorem repeat_delays_stay_in_range names acts s :
  run names acts Capture_init = Some s ->
  initialDelay (keyRepeat s) = ms 500
  /\ (repeatDelay (keyRepeat s) = ms 60
      \/ ms 10 <= repeatDelay (keyRepeat s) <= ms 50)
  /\ 0 <= count (keyRepeat s) <= Z.of_nat (length acts).
Proof.
  intros Hrun.
  apply (run_delays names acts Capture_init s 0 Hrun).
  cbn. split; [reflexivity |]. split; [left; reflexivity | lia].
Qed.

Lemma repeat_delays_stay_in_range_witness :
  run key_names backspace_then_a Capture_init = Some (final backspace_then_a)
  /\ ms 10 <= repeatDelay (keyRepeat (final backspace_then_a)) <= ms 50.
Proof.
  assert (Hrun : run key_names backspace_then_a Capture_init
                 = Some (final backspace_then_a)) by (vm_compute; reflexivity).
  split; [exact Hrun |].
  destruct (repeat_delays_stay_in_range _ _ _ Hrun) as (_ & [H60 | Hrange] & _);
    [vm_compute in H60; discriminate H60 | exact Hrange].
Defined.

Lemma step_queue names a s s' :
  step names a s = Some s' ->
  MODIFIER_MAP (activeKeyCode (keyRepeat s)) = None ->
  MODIFIER_MAP (activeKeyCode (keyRepeat s')) = None
  /\ exists new, eventQueue s' = eventQueue s ++ new
                 /\ Forall kind_matches_code new.
Proof.
  intros Hstep Hact. destruct a as [code value now steady | now]; cbn in Hstep.
  - apply processInputEvent_effect in Hstep as [-> ->].
    rewrite stopRepeat_keyRepeat. split.
    + destruct (MODIFIER_MAP code) eqn:Hmd; repeat case_match; cbn; auto.
    + eexists. split; [reflexivity |].
      destruct (MODIFIER_MAP code) eqn:Hmd; repeat case_match;
        repeat constructor; unfold kind_matches_code; cbn; rewrite Hmd; eauto.
  - injection Hstep as <-.
    destruct (checkKeyRepeat_cases names now s) as [[-> _] | [-> _]].
    + split; [exact Hact |]. exists []. rewrite app_nil_r.
      split; [reflexivity | constructor].
    + destruct (triggerKeyRepeat_effect names now s) as (-> & -> & _).
      split; [exact Hact |]. eexists. split; [reflexivity |].
      repeat constructor. exact Hact.
Qed.

Lemma run_queue names acts s s' :
  run names acts s = Some s' ->
  MODIFIER_MAP (activeKeyCode (keyRepeat s)) = None ->
  MODIFIER_MAP (activeKeyCode (keyRepeat s')) = None
  /\ exists new, eventQueue s' = eventQueue s ++ new
                 /\ Forall kind_matches_code new.
Proof.
  revert s. induction acts as [| a rest IH]; intros s Hrun Hact; cbn in Hrun.
  - injection Hrun as <-. split; [exact Hact |]. exists [].
    rewrite app_nil_r. split; [reflexivity | constructor].
  - destruct (step names a s) as [s1 |] eqn:Ha; [| discriminate].
    destruct (step_queue _ _ _ _ Ha Hact) as (Hact1 & new1 & Hq1 & Hk1).
    destruct (IH _ Hrun Hact1) as (Hact' & new2 & Hq2 & Hk2).
    split; [exact Hact' |]. exists (new1 ++ new2).
    rewrite Hq2, Hq1, app_assoc. split; [reflexivity |].
    apply Forall_app. split; assumption.
Qed.

(** X16.  The capture loop only ever appends to the queue, and the kind of
    every event it appends agrees with the key: Modifier and RawKey events
    are queued for the eight modifier keys only, Press, Release and Repeat
    events for other keys only. *)
Theorem queue_grows_by_kind names acts s :
  run names acts Capture_init = Some s ->
  Forall kind_matches_code (eventQueue s)
  /\ forall more s',
       run names more s = Some s' ->
       exists new, eventQueue s' = eventQueue s ++ new
                   /\ Forall kind_matches_code new.
Proof.
  intros Hrun.
  destruct (run_queue _ _ _ _ Hrun eq_refl) as (Hact & new & Hq & Hk).
  split; [rewrite Hq; exact Hk |].
  intros more s' Hmore. exact (proj2 (run_queue _ _ _ _ Hmore Hact)).
Qed.

Lemma queue_grows_by_kind_witness :
  run key_names hold_a Capture_init = Some (final hold_a)
  /\ Forall kind_matches_code (eventQueue (final hold_a)).
Proof.
  assert (Hrun : run key_names hold_a Capture_init = Some (final hold_a))
    by (vm_compute; reflexivity).
  split; [exact Hrun |]. exact (proj1 (queue_grows_by_kind _ _ _ Hrun)).
Defined.

Lemma dispatch_forward event modifierState layoutManager code value :
  ForwardEvent code value ∈ calls (dispatch event modifierState layoutManager) ->
  ev_type event = EventType.RawKey /\ code = keyCode event
  /\ value = Input.value event.
Proof.
  unfold dispatch.
  destruct (ev_type event); cbn [is_type orb];
    try destruct (processKeyEvent _ _ _ _) as [[[c |] |] m'];
    try destruct (ctrl modifierState || alt modifierState || super modifierState);
    cbn; intros Hcall;
    try (apply list_elem_of_singleton in Hcall);
    try (inversion Hcall; fail);
    try discriminate Hcall.
  all: injection Hcall as -> ->; repeat split; reflexivity.
Qed.

Lemma dispatch_bypass event modifierState layoutManager :
  ev_type event <> EventType.RawKey ->
  ctrl modifierState || alt modifierState || super modifierState = true ->
  calls (dispatch event modifierState layoutManager) = [].
Proof.
  unfold dispatch. intros Hraw ->.
  destruct (ev_type event); cbn [is_type orb];
    try destruct (processKeyEvent _ _ _ _) as [[[c |] |] m'];
    try reflexivity.
  contradiction.
Qed.

(** X17.  Only modifier keys reach the virtual keyboard.  Whatever event
    the capture loop has queued, the dispatch loop forwards it only if its
    key is one of the eight modifier keys; and while Ctrl, Alt or Super is
    active an event of any other key makes no call on the output handler at
    all. *)
Theorem only_modifier_keys_are_forwarded names acts s event :
  run names acts Capture_init = Some s ->
  event ∈ eventQueue s ->
  forall modifierState layoutManager,
    (forall code value,
       ForwardEvent code value
       ∈ calls (dispatch event modifierState layoutManager) ->
       code = keyCode event /\ is_Some (MODIFIER_MAP code))
    /\ (MODIFIER_MAP (keyCode event) = None ->
        ctrl modifierState || alt modifierState || super modifierState = true ->
        calls (dispatch event modifierState layoutManager) = []).
Proof.
  intros Hrun Hin modifierState layoutManager.
  destruct (run_queue _ _ _ _ Hrun eq_refl) as (_ & new & Hq & Hk).
  cbn in Hq. subst new.
  rewrite Forall_forall in Hk. specialize (Hk _ Hin).
  unfold kind_matches_code in Hk. split.
  - intros code value Hcall.
    apply dispatch_forward in Hcall as (Htype & -> & _).
    rewrite Htype in Hk. split; [reflexivity | exact Hk].
  - intros Hnone Hbypass. apply dispatch_bypass; [| exact Hbypass].
    intros Htype. rewrite Htype, Hnone in Hk. destruct Hk as [? [=]].
Qed.

Lemma only_modifier_keys_are_forwarded_witness :
  calls (dispatch (mkInputEvent EventType.Press "key_a" KEY_A true 0 0)
                  (mkModifiers false true false false) Example.demo) = [].
Proof.
  assert (Hrun : run key_names hold_a Capture_init = Some (final hold_a))
    by (vm_compute; reflexivity).
  apply (only_modifier_keys_are_forwarded key_names hold_a (final hold_a)
           (mkInputEvent EventType.Press "key_a" KEY_A true 0 0) Hrun).
  - vm_compute. apply elem_of_cons. left. reflexivity.
  - reflexivity.
  - reflexivity.
Defined.

End CaptureFacts.

(** ** Key repeat and the queue's other end *)

Module RepeatFacts.

Import Layout Input EventQueue InputSpec CaptureSpec InputFacts CaptureFacts.
Local Open Scope Z_scope.

Lemma ticks_idle names (ts : list Z) s :
  activeKeyCode (keyRepeat s) = -1 -> run names (Tick <$> ts) s = Some s.
Proof.
  intros Hidle. induction ts as [| t rest IH]; cbn; [reflexivity |].
  unfold checkKeyRepeat. rewrite Hidle. cbn. exact IH.
Qed.

(** X18.  The release of the key that is repeating stops the repeats: the
    timer checks that follow change nothing and queue nothing.  The
    release of any other key leaves the repeat tracker as it is. *)
Theorem release_stops_repeat names code now steady s s1 :
  processInputEvent names code 0 now steady s = Some s1 ->
  (activeKeyCode (keyRepeat s) = code ->
   activeKeyCode (keyRepeat s1) = -1
   /\ forall ts : list Z, run names (Tick <$> ts) s1 = Some s1)
  /\ (activeKeyCode (keyRepeat s) <> code -> keyRepeat s1 = keyRepeat s).
Proof.
  intros Hrel. apply processInputEvent_effect in Hrel as [_ Hk].
  cbn in Hk. rewrite stopRepeat_keyRepeat in Hk. split.
  - intros Hact. rewrite (proj2 (Z.eqb_eq _ _) Hact) in Hk.
    assert (Hidle : activeKeyCode (keyRepeat s1) = -1)
      by (rewrite Hk; reflexivity).
    split; [exact Hidle |]. intros ts. apply ticks_idle. exact Hidle.
  - intros Hact. rewrite (proj2 (Z.eqb_neq _ _) Hact) in Hk. exact Hk.
Qed.

Lemma release_stops_repeat_witness :
  exists s1,
    processInputEvent key_names KEY_A 0 (ms 700) (ms 700) (final hold_a)
    = Some s1
    /\ activeKeyCode (keyRepeat (final hold_a)) = KEY_A
    /\ run key_names (Tick <$> [ms 800; ms 2000]) s1 = Some s1.
Proof.
  destruct (processInputEvent key_names KEY_A 0 (ms 700) (ms 700)
              (final hold_a)) as [s1 |] eqn:Hrel;
    [| vm_compute in Hrel; discriminate Hrel].
  exists s1. split; [reflexivity |]. split; [reflexivity |].
  exact (proj2 (proj1 (release_stops_repeat _ _ _ _ _ _ Hrel) eq_refl)
           [ms 800; ms 2000]).
Defined.

Lemma ticks_spaced names (ts : list Z) s :
  ms 10 <= repeatDelay (keyRepeat s) ->
  0 <= count (keyRepeat s) ->
  exists s' rs,
    run names (Tick <$> ts) s = Some s'
    /\ eventQueue s' = eventQueue s ++ rs
    /\ Forall (fun e => ev_type e = EventType.Repeat
                        /\ keyCode e = activeKeyCode (keyRepeat s)
                        /\ keyName e = names (activeKeyCode (keyRepeat s)))
              rs
    /\ spaced (lastTime (keyRepeat s)
               + (if count (keyRepeat s) =? 0
                  then initialDelay (keyRepeat s) else ms 10))
              (ms 10) (timestamp <$> rs).
Proof.
  revert s. induction ts as [| t rest IH]; intros s Hdelay Hcount.
  - exists s, []. rewrite app_nil_r. repeat split; constructor.
  - cbn [fmap list_fmap run step].
    destruct (checkKeyRepeat_cases names t s) as [[-> _] | (-> & _ & Hdue)].
    + exact (IH s Hdelay Hcount).
    + destruct (triggerKeyRepeat_effect names t s)
        as (Hq & Hact & Hc & Hl & Hi & Hr).
      assert (Hdelay' : ms 10 <= repeatDelay
                                   (keyRepeat (triggerKeyRepeat names t s)))
        by (destruct Hr as [-> | ->]; lia).
      destruct (IH _ Hdelay' ltac:(lia)) as (s' & rs & Hrun & Hq' & Hall & Hsp).
      exists s'. eexists. split; [exact Hrun |].
      rewrite Hq', Hq, <- app_assoc. split; [reflexivity |].
      rewrite Hact in Hall. split.
      * constructor; [repeat split | exact Hall].
      * cbn. split.
        -- destruct (count (keyRepeat s) =? 0); lia.
        -- rewrite Hl, Hc in Hsp.
           destruct (Z.eqb_spec (count (keyRepeat s) + 1) 0) as [Hz | _];
             [lia | exact Hsp].
Qed.



(** *** Taking events *)

Lemma take_events_all s :
  take_events (length (eventQueue s)) s
  = (eventQueue s,
     mkCapture (modifiers s) (keyRepeat s) (exitSequence s) (exitTimeout s) []).
Proof.
  destruct s as [mods kr seq timeout queue]. cbn.
  induction queue as [| e rest IH]; cbn; [reflexivity |].
  rewrite IH. reflexivity.
Qed.

(** X20.  The queue is first in, first out.  As many calls of [getEvent]
    as the queue has events return those events in the order in which they
    were queued and leave the queue empty; the next call returns nothing.
    A call changes nothing but the queue, and an event queued behind
    others is returned after them. *)
Theorem queue_is_first_in_first_out (s : Capture) :
  let '(events, s') := take_events (length (eventQueue s)) s in
  events = eventQueue s
  /\ eventQueue s' = []
  /\ getEvent s' = (None, s')
  /\ modifiers s' = modifiers s /\ keyRepeat s' = keyRepeat s
  /\ exitSequence s' = exitSequence s /\ exitTimeout s' = exitTimeout s
  /\ forall e,
       fst (take_events (S (length (eventQueue s))) (enqueueEvent e s))
       = eventQueue s ++ [e].
Proof.
  rewrite take_events_all. repeat split.
  intros e.
  pose proof (take_events_all (enqueueEvent e s)) as H.
  cbn [enqueueEvent eventQueue] in H. rewrite length_app in H. cbn in H.
  rewrite Nat.add_1_r in H. rewrite H. reflexivity.
Qed.

End RepeatFacts.

(** ** Choosing the keyboard: order and outcomes *)

Module SelectorFacts.

Import Layout DeviceSelector DeviceSpec SelectorExample DeviceFacts.
Local Open Scope Z_scope.

(** *** The order on names *)

Lemma ltb_lt a b : String.ltb a b = true <-> OrderedTypeEx.String_as_OT.lt a b.
Proof.
  rewrite <- OrderedTypeEx.String_as_OT.cmp_lt.
  unfold String.ltb, OrderedTypeEx.String_as_OT.cmp.
  destruct (String.compare a b); split; congruence.
Qed.

Lemma ltb_irrefl a : String.ltb a a = false.
Proof.
  destruct (String.ltb a a) eqn:H; [| reflexivity].
  apply ltb_lt in H. apply OrderedTypeEx.String_as_OT.lt_not_eq in H.
  exfalso. apply H. reflexivity.
Qed.

Lemma ltb_trans a b c :
  String.ltb a b = true -> String.ltb b c = true -> String.ltb a c = true.
Proof.
  rewrite !ltb_lt. apply OrderedTypeEx.String_as_OT.lt_trans.
Qed.

Lemma ltb_total a b :
  String.ltb a b = false -> String.ltb b a = false -> a = b.
Proof.
  unfold String.ltb. rewrite (String.compare_antisym b a).
  destruct (String.compare a b) eqn:Hc; cbn; try discriminate.
  intros _ _. apply String.compare_eq_iff. exact Hc.
Qed.

(** *** The comparison *)

Lemma before_irrefl a : before a a = false.
Proof.
  unfold before. rewrite !Z.eqb_refl. cbn. apply ltb_irrefl.
Qed.

Lemma before_trans a b c :
  before a b = true -> before b c = true -> before a c = true.
Proof.
  unfold before.
  destruct (Z.eqb_spec (score a) (score b)), (Z.eqb_spec (score b) (score c)),
    (Z.eqb_spec (score a) (score c)); cbn; try lia;
    try (rewrite ?Z.ltb_lt; lia).
  destruct (Z.eqb_spec (endpoint a) (endpoint b)),
    (Z.eqb_spec (endpoint b) (endpoint c)),
    (Z.eqb_spec (endpoint a) (endpoint c)); cbn; try lia;
    try apply ltb_trans;
    repeat match goal with
           | |- context [?x =? -1] => destruct (Z.eqb_spec x (-1))
           end;
    rewrite ?Z.ltb_lt; try lia; try discriminate; auto.
Qed.

Lemma before_total a b :
  before a b = false -> before b a = false ->
  score a = score b /\ endpoint a = endpoint b /\ name a = name b.
Proof.
  unfold before.
  destruct (Z.eqb_spec (score a) (score b)), (Z.eqb_spec (score b) (score a));
    cbn; try lia; try (rewrite !Z.ltb_ge; lia).
  destruct (Z.eqb_spec (endpoint a) (endpoint b)),
    (Z.eqb_spec (endpoint b) (endpoint a)); cbn; try lia.
  - intros H1 H2. repeat split; try assumption. apply ltb_total; assumption.
  - repeat match goal with
           | |- context [?x =? -1] => destruct (Z.eqb_spec x (-1))
           end;
      rewrite ?Z.ltb_ge; try lia; try discriminate.
Qed.

Lemma before_asym a b : before a b = true -> before b a = false.
Proof.
  intros H. destruct (before b a) eqn:H'; [| reflexivity].
  pose proof (before_trans _ _ _ H H') as Haa.
  rewrite before_irrefl in Haa. discriminate.
Qed.

Lemma before_same_key a a' b :
  score a = score a' -> endpoint a = endpoint a' -> name a = name a' ->
  before b a = before b a'.
Proof. unfold before. intros -> -> ->. reflexivity. Qed.

Lemma not_before_trans a b c :
  before b a = false -> before c b = false -> before c a = false.
Proof.
  intros Hba Hcb. destruct (before c a) eqn:Hca; [| reflexivity].
  destruct (before a b) eqn:Hab.
  - rewrite (before_trans _ _ _ Hca Hab) in Hcb. discriminate.
  - destruct (before_total _ _ Hab Hba) as (H1 & H2 & H3).
    rewrite (before_same_key _ _ c H1 H2 H3) in Hca. congruence.
Qed.

(** X21.  The comparison handed to [std::sort] is a strict weak ordering,
    as the sort requires: no candidate comes before itself, the relation
    is transitive, and two candidates neither of which comes before the
    other agree in score, endpoint and name. *)
Theorem before_is_strict_weak_order :
  (forall a, before a a = false)
  /\ (forall a b c, before a b = true -> before b c = true -> before a c = true)
  /\ (forall a b, before a b = false -> before b a = false ->
        score a = score b /\ endpoint a = endpoint b /\ name a = name b)
  /\ (forall a b c, before b a = false -> before c b = false ->
        before c a = false).
Proof.
  split; [exact before_irrefl |]. split; [exact before_trans |].
  split; [exact before_total | exact not_before_trans].
Qed.

Lemma before_is_strict_weak_order_witness :
  before (makeCandidate plain_device) (makeCandidate named_device) = true
  /\ before (makeCandidate named_device) (makeCandidate usb_device) = true
  /\ before (makeCandidate plain_device) (makeCandidate usb_device) = true.
Proof.
  assert (H1 : before (makeCandidate plain_device) (makeCandidate named_device)
               = true) by reflexivity.
  assert (H2 : before (makeCandidate named_device) (makeCandidate usb_device)
               = true) by reflexivity.
  split; [exact H1 |]. split; [exact H2 |].
  exact (proj1 (proj2 before_is_strict_weak_order) _ _ _ H1 H2).
Defined.

(** *** The sort *)

Lemma insert_candidate_perm c l : insert_candidate c l ≡ₚ c :: l.
Proof.
  induction l as [| x rest IH]; cbn; [reflexivity |].
  destruct (before x c); [| reflexivity].
  rewrite IH. apply Permutation_swap.
Qed.

Lemma sort_candidates_perm l : sort_candidates l ≡ₚ l.
Proof.
  induction l as [| c rest IH]; cbn; [reflexivity |].
  rewrite insert_candidate_perm, IH. reflexivity.
Qed.

Lemma insert_candidate_sorted c l :
  StronglySorted (fun x y => before y x = false) l ->
  StronglySorted (fun x y => before y x = false) (insert_candidate c l).
Proof.
  induction 1 as [| x rest Hsorted IH Hall]; cbn.
  - repeat constructor.
  - destruct (before x c) eqn:Hxc.
    + constructor; [exact IH |].
      rewrite Forall_forall. intros e He.
      rewrite insert_candidate_perm in He.
      apply elem_of_cons in He as [-> | He].
      * apply before_asym. exact Hxc.
      * rewrite Forall_forall in Hall. apply Hall. exact He.
    + constructor; [constructor; assumption |].
      constructor; [exact Hxc |].
      eapply Forall_impl; [exact Hall |].
      intros e He. cbn in He. eapply not_before_trans; eassumption.
Qed.

Lemma sort_candidates_sorted l :
  StronglySorted (fun x y => before y x = false) (sort_candidates l).
Proof.
  induction l as [| c rest IH]; cbn; [constructor |].
  apply insert_candidate_sorted. exact IH.
Qed.

(** X22.  The sort keeps every candidate, each as often as it was found,
    and puts them in order: no candidate of the sorted list comes before
    one that stands earlier in the list. *)
Theorem sorted_candidates_are_in_order (l : list KeyboardCandidate) :
  sort_candidates l ≡ₚ l
  /\ forall front x middle y back,
       sort_candidates l = front ++ x :: middle ++ y :: back ->
       before y x = false.
Proof.
  split; [apply sort_candidates_perm |].
  intros front x middle y back Heq.
  pose proof (sort_candidates_sorted l) as Hsorted. rewrite Heq in Hsorted.
  apply StronglySorted_app_1_r in Hsorted.
  apply StronglySorted_inv in Hsorted as [_ Hall].
  rewrite Forall_forall in Hall. apply Hall.
  apply elem_of_app. right. apply elem_of_cons. left. reflexivity.
Qed.

Lemma sorted_candidates_are_in_order_witness :
  before (makeCandidate usb_device) (makeCandidate plain_device) = false.
Proof.
  apply (proj2 (sorted_candidates_are_in_order
                  [makeCandidate usb_device; makeCandidate named_device;
                   makeCandidate plain_device])
           [] (makeCandidate plain_device) [makeCandidate named_device]
           (makeCandidate usb_device) []).
  reflexivity.
Defined.

(** *** The outcomes *)

Lemma sort_candidates_head l best rest :
  sort_candidates l = best :: rest ->
  best ∈ l /\ forall c, c ∈ l -> before c best = false.
Proof.
  intros Heq.
  pose proof (sort_candidates_perm l) as Hperm.
  pose proof (sort_candidates_sorted l) as Hsorted.
  rewrite Heq in Hperm, Hsorted.
  apply StronglySorted_inv in Hsorted as [_ Hall].
  rewrite Forall_forall in Hall. split.
  - rewrite <- Hperm. apply elem_of_cons. left. reflexivity.
  - intros c Hc. rewrite <- Hperm in Hc.
    apply elem_of_cons in Hc as [-> | Hc]; [apply before_irrefl | auto].
Qed.

Lemma candidates_elem devices c :
  c ∈ map makeCandidate (filter (fun d => qualifies d = true) devices)
  <-> exists d, d ∈ devices /\ qualifies d = true /\ c = makeCandidate d.
Proof.
  change (map makeCandidate ?l) with (makeCandidate <$> l).
  rewrite list_elem_of_fmap. split.
  - intros (d & -> & Hd). apply list_elem_of_filter in Hd as [Hq Hd].
    exists d. repeat split; assumption.
  - intros (d & Hd & Hq & ->). exists d. split; [reflexivity |].
    apply list_elem_of_filter. split; assumption.
Qed.

(** X23.  The outcomes of [findPhysicalKeyboard].  When no device passes
    the four tests it reports that there is no keyboard.  Otherwise there
    is one candidate, fixed by the devices alone, before which no other
    candidate comes in the order of the sort; the search returns it when it
    can be grabbed and fails when it cannot, without trying another
    candidate. *)
Theorem keyboard_choice_outcomes (devices : list Device) :
  ((forall d, d ∈ devices -> qualifies d = false) ->
   forall grab, findPhysicalKeyboard devices grab = inl NoKeyboardFound)
  /\ ((exists d, d ∈ devices /\ qualifies d = true) ->
      exists best,
        (exists d, d ∈ devices /\ qualifies d = true /\ best = makeCandidate d)
        /\ (forall d, d ∈ devices -> qualifies d = true ->
              before (makeCandidate d) best = false)
        /\ forall grab,
             findPhysicalKeyboard devices grab
             = if grab (fd best) then inr best else inl GrabFailed).
Proof.
  unfold findPhysicalKeyboard.
  set (candidates := map makeCandidate
                       (filter (fun d => qualifies d = true) devices)).
  destruct (sort_candidates candidates) as [| best rest] eqn:Hsort.
  - assert (Hnone : forall d, d ∈ devices -> qualifies d = false).
    { intros d Hd. destruct (qualifies d) eqn:Hq; [| reflexivity].
      assert (Hc : makeCandidate d ∈ candidates)
        by (apply candidates_elem; eauto).
      rewrite <- (sort_candidates_perm candidates), Hsort in Hc.
      inversion Hc. }
    split; [reflexivity |].
    intros (d & Hd & Hq). rewrite (Hnone d Hd) in Hq. discriminate.
  - destruct (sort_candidates_head _ _ _ Hsort) as [Hin Hmin].
    apply candidates_elem in Hin as (d0 & Hd0 & Hq0 & Hbest).
    split.
    + intros Hnone. rewrite (Hnone d0 Hd0) in Hq0. discriminate.
    + intros _. exists best. split; [eauto |]. split; [| reflexivity].
      intros d Hd Hq. apply Hmin. apply candidates_elem. eauto.
Qed.

Lemma keyboard_choice_outcomes_witness :
  exists best,
    forall grab,
      findPhysicalKeyboard [usb_device; named_device] grab
      = if grab (fd best) then inr best else inl GrabFailed.
Proof.
  destruct (proj2 (keyboard_choice_outcomes [usb_device; named_device]))
    as (best & _ & _ & Hfind).
  - exists named_device. split; [| reflexivity].
    apply elem_of_cons. right. apply elem_of_cons. left. reflexivity.
  - exists best. exact Hfind.
Defined.

(** *** The endpoint *)

Lemma scan_literal_prefix lit str :
  String.prefix lit str = false -> scan_literal lit str = None.
Proof.
  revert str. induction lit as [| a lit IH]; intros [| b str]; cbn;
    try discriminate; try reflexivity.
  destruct (Ascii.eqb_spec a b) as [-> | Hne];
    destruct (ascii_dec _ _) as [Heq | Hneq];
    try contradiction; try congruence; auto.
Qed.

(** X24.  The endpoint is read from the very start of the physical
    address.  A device whose address does not begin with [input], such as
    the path the kernel gives to a USB device, has the endpoint -1 and gets
    no points for it: its score is 10 or 0, by its name alone. *)
Theorem endpoint_needs_leading_input (d : Device) :
  (phys d = None \/ exists p, phys d = Some p /\ String.prefix "input" p = false) ->
  endpoint (makeCandidate d) = -1
  /\ score (makeCandidate d)
     = match devname d with
       | Some n => if strstr n "keyboard" then 10 else 0
       | None => 0
       end.
Proof.
  intros Hphys.
  assert (Hscan : scanEndpoint (phys d) = -1).
  { destruct Hphys as [-> | (p & -> & Hp)]; [reflexivity |].
    unfold scanEndpoint. rewrite scan_literal_prefix by exact Hp. reflexivity. }
  unfold makeCandidate. rewrite Hscan. cbn.
  split; [reflexivity |]. destruct (devname d) as [n |]; [| reflexivity].
  destruct (strstr n "keyboard"); reflexivity.
Qed.

Lemma endpoint_needs_leading_input_witness :
  endpoint (makeCandidate usb_device) = -1
  /\ score (makeCandidate usb_device) = 10.
Proof.
  apply (endpoint_needs_leading_input usb_device).
  right. exists "usb-0000:00:14.0-1/input0". split; reflexivity.
Defined.

End SelectorFacts.

(** ** The dispatch loop over a run of events *)

Module LoopFacts.

Import Layout Input Dispatcher LayoutSpec DispatchSpec Example LayoutFacts.
Local Open Scope Z_scope.

Lemma dispatch_turn event modifierState m :
  well_formed m ->
  left_loop (dispatch event modifierState m) = false
  /\ manager (dispatch event modifierState m)
     = match key_event (event, modifierState) with
       | Some e => handle e m
       | None => m
       end
  /\ omap forwarded (calls (dispatch event modifierState m))
     = option_list (raw_key (event, modifierState)).
Proof.
  intros Hwf. unfold dispatch, key_event, raw_key. cbn [fst].
  destruct (ev_type event) eqn:Htype; cbn [is_type orb handle];
    try (repeat split; reflexivity).
  - destruct (processKeyEvent_returns (keyName event) (keyCode event) "press"
                m Hwf) as [r Hr].
    destruct (processKeyEvent _ _ _ m) as [result m']. cbn in Hr. subst result.
    destruct (ctrl modifierState || alt modifierState || super modifierState);
      [| destruct r]; repeat split; reflexivity.
  - destruct (processKeyEvent_returns (keyName event) (keyCode event) "repeat"
                m Hwf) as [r Hr].
    destruct (processKeyEvent _ _ _ m) as [result m']. cbn in Hr. subst result.
    destruct (ctrl modifierState || alt modifierState || super modifierState);
      [| destruct r]; repeat split; reflexivity.
Qed.

(** X25.  With a manager as the constructor leaves it, the dispatch loop
    handles every event of a run: no call of the manager throws.  The
    manager ends as if it had been given the presses, repeats and releases
    of the run in their order, and the events forwarded to the virtual
    keyboard are the RawKey events of the run, in their order, with their
    codes and values. *)
Theorem loop_handles_every_event events m :
  well_formed m ->
  snd (dispatch_all events m) = handle_all (omap key_event events) m
  /\ well_formed (snd (dispatch_all events m))
  /\ omap forwarded (fst (dispatch_all events m)) = omap raw_key events.
Proof.
  revert m. induction events as [| [event modifierState] rest IH];
    intros m Hwf.
  - cbn. split; [reflexivity | split; [exact Hwf | reflexivity]].
  - cbn [dispatch_all].
    destruct (dispatch_turn event modifierState m Hwf) as (-> & Hm & Hcalls).
    assert (Hwf' : well_formed (manager (dispatch event modifierState m))).
    { rewrite Hm. destruct (key_event (event, modifierState)) as [e |];
        [| exact Hwf].
      apply (handle_all_well_formed [e]). exact Hwf. }
    destruct (IH _ Hwf') as (Hsnd & Hwf'' & Hfwd).
    destruct (dispatch_all rest (manager (dispatch event modifierState m)))
      as [cs m'] eqn:Hrest.
    cbn [fst snd] in *. split; [| split; [exact Hwf'' |]].
    + rewrite Hsnd, Hm. cbn [omap list_omap].
      destruct (key_event (event, modifierState)); reflexivity.
    + rewrite omap_app, Hcalls, Hfwd. cbn [omap list_omap].
      destruct (raw_key (event, modifierState)); reflexivity.
Qed.

Lemma loop_handles_every_event_witness :
  well_formed demo
  /\ omap forwarded
       (fst (dispatch_all
               [(mkInputEvent EventType.RawKey "key_leftctrl" KEY_LEFTCTRL
                              false 0 1, mkModifiers false true false false);
                (mkInputEvent EventType.Press "key_a" KEY_A true 1 0,
                 mkModifiers false false false false)] demo))
     = [(KEY_LEFTCTRL, 1)].
Proof.
  assert (Hwf : well_formed demo)
    by exact (LayoutManager_new_well_formed _ _ _ demo_started).
  split; [exact Hwf |].
  exact (proj2 (proj2 (loop_handles_every_event
                         [(mkInputEvent EventType.RawKey "key_leftctrl"
                                        KEY_LEFTCTRL false 0 1,
                           mkModifiers false true false false);
                          (mkInputEvent EventType.Press "key_a" KEY_A true 1 0,
                           mkModifiers false false false false)] demo Hwf))).
Defined.

End LoopFacts.

(** ** The output handler *)

Module OutputFacts.

Import Bytes Utf8 Layout Input Output Utf8Spec Utf8Facts.
Local Open Scope Z_scope.

(** *** Control characters *)

Lemma isControlChar_cases c :
  isControlChar c = true <-> c = 10 \/ c = 32 \/ c = 8 \/ c = 9 \/ c = 27.
Proof.
  unfold isControlChar. rewrite !orb_true_iff, !Z.eqb_eq. tauto.
Qed.

(** X26.  The five characters the symbol decoder has escapes for are the
    control characters of the output handler, and they are sent as key
    strokes of the virtual keyboard: after the window query, one press,
    one release and one synchronisation of Enter, Space, Backspace, Tab or
    Esc, and no typing command is run.  Every other character is typed by
    exactly one command, run on the character's UTF-8 bytes: xdotool after
    setxkbmap when the window is an Electron one and xdotool is installed,
    wtype otherwise; the result tells whether that command exited with
    0. *)
Theorem control_characters_are_keys isElectron hasXdotool exitCode c :
  (isControlChar c = true <-> c ∈ [10; 32; 8; 9; 27])
  /\ (forall str, str ∈ ["\n"; "\t"; "\b"; "\x1b"; " "]%string ->
        exists ch, stringToChar32 str = Some ch /\ isControlChar ch = true)
  /\ (isControlChar c = true ->
      exists key,
        (c, key) ∈ [(10, KEY_ENTER); (32, KEY_SPACE); (8, KEY_BACKSPACE);
                    (9, KEY_TAB); (27, KEY_ESC)]
        /\ sendUnicode isElectron hasXdotool exitCode c
           = (true, [Execute windowQuery;
                     WriteEvent EV_KEY key 1; WriteEvent EV_KEY key 0;
                     WriteEvent EV_SYN SYN_REPORT 0]))
  /\ (isControlChar c = false ->
      let viaXdotool := isElectron && hasXdotool in
      let command :=
        ((if viaXdotool then "xdotool type --clearmodifiers " else "wtype -- ")
         ++ utf32ToUtf8 c)%string in
      sendUnicode isElectron hasXdotool exitCode c
      = (exitCode command =? 0,
         Execute windowQuery
         :: (if viaXdotool then [Execute "setxkbmap"] else [])
         ++ [Execute command])).
Proof.
  split; [| split; [| split]].
  - rewrite isControlChar_cases, !elem_of_cons, elem_of_nil. tauto.
  - intros str Hstr. rewrite !elem_of_cons, elem_of_nil in Hstr.
    destruct Hstr as [-> | [-> | [-> | [-> | [-> | []]]]]];
      eexists; split; reflexivity.
  - intros Hc. unfold sendUnicode. rewrite Hc.
    apply isControlChar_cases in Hc as [-> | [-> | [-> | [-> | ->]]]];
      eexists; (split; [| reflexivity]);
      rewrite !elem_of_cons; auto 10.
  - intros Hc. cbv zeta. unfold sendUnicode. rewrite Hc.
    destruct (isElectron && hasXdotool); reflexivity.
Qed.

Lemma control_characters_are_keys_witness :
  sendUnicode true true (fun _ => 0) 9
  = (true, [Execute windowQuery;
            WriteEvent EV_KEY KEY_TAB 1; WriteEvent EV_KEY KEY_TAB 0;
            WriteEvent EV_SYN SYN_REPORT 0])
  /\ sendUnicode false true (fun _ => 1) 97
     = (false, [Execute windowQuery; Execute "wtype -- a"]).
Proof.
  split.
  - destruct (proj1 (proj2 (proj2 (control_characters_are_keys
                                     true true (fun _ => 0) 9))) eq_refl)
      as (key & Hkey & Hsend).
    rewrite Hsend. rewrite !elem_of_cons, elem_of_nil in Hkey.
    destruct Hkey as [[=] | [[=] | [[=] | [[= <-] | [[=] | []]]]]].
    reflexivity.
  - exact (proj2 (proj2 (proj2 (control_characters_are_keys
                                  false true (fun _ => 1) 97))) eq_refl).
Defined.

Ltac unfold_release :=
  let effects := eval vm_compute in releaseAllModifiers in
  change releaseAllModifiers with effects.

(** X27.  At shutdown [releaseAllModifiers] releases exactly the keys the
    capture loop tracks as modifiers: a key is in [MODIFIER_MAP] if and
    only if its release is written.  Nothing is pressed, and the last
    write is the synchronisation. *)
Theorem releaseAllModifiers_covers_MODIFIER_MAP :
  (forall code,
     is_Some (MODIFIER_MAP code) <-> WriteEvent EV_KEY code 0 ∈ releaseAllModifiers)
  /\ (forall type code value,
        WriteEvent type code value ∈ releaseAllModifiers -> value = 0)
  /\ (forall command, Execute command ∉ releaseAllModifiers)
  /\ last releaseAllModifiers = Some (WriteEvent EV_SYN SYN_REPORT 0).
Proof.
  split; [| split; [| split]].
  - intros code. unfold MODIFIER_MAP. unfold_release.
    rewrite !elem_of_cons, elem_of_nil. split.
    + repeat match goal with
             | |- context [code =? ?k] => destruct (Z.eqb_spec code k)
             end; intros Hsome;
        try (destruct Hsome as [? Hsome]; discriminate Hsome);
        subst; auto 20.
    + intros H.
      repeat (destruct H as [[= ->] | H]; [vm_compute; eauto |]).
      destruct H as [H | []]. discriminate H.
  - intros type code value. unfold_release.
    rewrite !elem_of_cons, elem_of_nil. intros H.
    repeat (destruct H as [[= _ _ ->] | H]; [reflexivity |]). destruct H.
  - intros command. unfold_release. intros H.
    rewrite !elem_of_cons, elem_of_nil in H.
    repeat (destruct H as [[=] | H]). destruct H.
  - reflexivity.
Qed.

Lemma releaseAllModifiers_covers_MODIFIER_MAP_witness :
  WriteEvent EV_KEY KEY_RIGHTMETA 0 ∈ releaseAllModifiers.
Proof.
  apply (proj1 (proj1 releaseAllModifiers_covers_MODIFIER_MAP KEY_RIGHTMETA)).
  exists Modifier.Super. reflexivity.
Defined.

(** *** The encoder *)

Lemma utf32ToUtf8_length c :
  0 <= c <= 0x10FFFF ->
  String.length (utf32ToUtf8 c)
  = if c <=? 0x7F then 1%nat else if c <=? 0x7FF then 2%nat
    else if c <=? 0xFFFF then 3%nat else 4%nat.
Proof.
  intros Hc. unfold utf32ToUtf8.
  destruct (c <=? 0x7F); [reflexivity |].
  destruct (c <=? 0x7FF); [reflexivity |].
  destruct (c <=? 0xFFFF); [reflexivity |].
  destruct (Z.leb_spec c 0x10FFFF); [reflexivity | lia].
Qed.

(** X28.  The encoder gives different byte sequences to different code
    points up to U+10FFFF, of one to four bytes by the size of the code
    point, and no bytes at all to a larger value.  It does not refuse the
    surrogates: each is written as three bytes, which the symbol decoder
    reads back as the same value. *)
Theorem encoder_is_injective :
  (forall c1 c2, 0 <= c1 <= 0x10FFFF -> 0 <= c2 <= 0x10FFFF ->
     utf32ToUtf8 c1 = utf32ToUtf8 c2 -> c1 = c2)
  /\ (forall c, 0 <= c <= 0x10FFFF ->
        String.length (utf32ToUtf8 c)
        = if c <=? 0x7F then 1%nat else if c <=? 0x7FF then 2%nat
          else if c <=? 0xFFFF then 3%nat else 4%nat)
  /\ (forall c, 0x10FFFF < c -> utf32ToUtf8 c = "")
  /\ (forall c, 0xD800 <= c <= 0xDFFF ->
        String.length (utf32ToUtf8 c) = 3%nat
        /\ stringToChar32 (utf32ToUtf8 c) = Some c).
Proof.
  split; [| split; [| split]].
  - intros c1 c2 H1 H2 Heq.
    pose proof (roundtrip c1 H1) as R1. rewrite Heq, (roundtrip c2 H2) in R1.
    congruence.
  - exact utf32ToUtf8_length.
  - intros c Hc. unfold utf32ToUtf8.
    repeat match goal with
           | |- context [c <=? ?k] => destruct (Z.leb_spec c k); [lia |]
           end.
    reflexivity.
  - intros c Hc. split; [| apply roundtrip; lia].
    rewrite utf32ToUtf8_length by lia.
    repeat match goal with
           | |- context [c <=? ?k] => destruct (Z.leb_spec c k); try lia
           end.
Qed.

Lemma encoder_is_injective_witness :
  String.length (utf32ToUtf8 0xD800) = 3%nat
  /\ stringToChar32 (utf32ToUtf8 0xD800) = Some 0xD800.
Proof.
  apply (proj2 (proj2 (proj2 encoder_is_injective)) 0xD800). lia.
Defined.

End OutputFacts.

(** ** The symbol decoder, once more *)

Module DecoderFacts.

Import Bytes Utf8 Layout Utf8Spec Utf8Facts OutputFacts.
Local Open Scope Z_scope.

Lemma append_cons a s rest :
  (String a s ++ rest)%string = String a (s ++ rest)%string.
Proof. reflexivity. Qed.

Lemma high_lead_is_no_escape a r x lit :
  0x80 <= uchar a -> uchar x < 0x80 ->
  String.eqb (String a r) (String x lit) = false.
Proof. intros Ha Hx. apply eqb_first_differs. lia. Qed.

Ltac compare_all :=
  repeat (match goal with
          | |- context [?x <? ?y] => destruct (Z.ltb_spec x y)
          | |- context [?x <=? ?y] => destruct (Z.leb_spec x y)
          end; cbn [andb]).

Lemma stringToChar32_ignores_rest a s rest c :
  0x80 <= uchar a ->
  stringToChar32 (String a s) = Some c ->
  stringToChar32 (String a s ++ rest) = Some c.
Proof.
  intros Ha. rewrite append_cons. unfold stringToChar32.
  change (String.eqb (String a ?r) "") with false. cbv iota.
  rewrite !(high_lead_is_no_escape a) by (assumption || (vm_compute; reflexivity)).
  unfold str_size.
  destruct s as [| b [| b2 [| b3 s3]]]; rewrite ?append_cons;
    cbn [at_uchar String.get String.length];
    range_tests; compare_all;
    intros Hdecoded;
    first [discriminate Hdecoded | exact Hdecoded | exfalso; lia].
Qed.

Lemma low_lead_is_small a s v :
  uchar a < 0x80 -> stringToChar32 (String a s) = Some v -> v < 0x80.
Proof.
  intros Ha. unfold stringToChar32.
  change (String.eqb (String a s) "") with false. cbv iota.
  repeat match goal with
         | |- context [String.eqb (String a s) ?lit] =>
             destruct (String.eqb (String a s) lit); [intros [= <-]; lia |]
         end.
  cbn [at_uchar String.get]. range_tests.
  rewrite (proj2 (Z.ltb_lt _ _) Ha). intros [= <-]. exact Ha.
Qed.

(** X29.  The symbol decoder reads one character and ignores what follows
    it.  An entry that starts with an ASCII character and is none of the
    five escapes gives that character, however long the entry is; and
    bytes that follow a complete multi-byte sequence do not change the
    result. *)
Theorem decoder_reads_one_character :
  (forall a rest,
     uchar a < 0x80 ->
     String a rest ∉ ["\n"; "\t"; "\b"; "\x1b"; " "]%string ->
     stringToChar32 (String a rest) = Some (uchar a))
  /\ (forall a s rest c,
        0x80 <= uchar a ->
        stringToChar32 (String a s) = Some c ->
        stringToChar32 (String a s ++ rest) = Some c)
  /\ (forall c rest,
        0x80 <= c <= 0x10FFFF ->
        stringToChar32 (utf32ToUtf8 c ++ rest) = Some c).
Proof.
  split; [| split].
  - intros a rest Ha Hesc. rewrite !not_elem_of_cons in Hesc.
    destruct Hesc as (H1 & H2 & H3 & H4 & H5 & _).
    unfold stringToChar32.
    change (String.eqb (String a rest) "") with false. cbv iota.
    rewrite (proj2 (String.eqb_neq _ _) H1), (proj2 (String.eqb_neq _ _) H2),
      (proj2 (String.eqb_neq _ _) H3), (proj2 (String.eqb_neq _ _) H4),
      (proj2 (String.eqb_neq _ _) H5).
    cbn [at_uchar String.get]. range_tests.
    rewrite (proj2 (Z.ltb_lt _ _) Ha). reflexivity.
  - exact stringToChar32_ignores_rest.
  - intros c rest Hc.
    pose proof (roundtrip c ltac:(lia)) as Hround.
    pose proof (utf32ToUtf8_length c ltac:(lia)) as Hlen.
    destruct (utf32ToUtf8 c) as [| a s] eqn:Henc.
    + exfalso. revert Hlen. cbn. repeat case_match; discriminate.
    + destruct (Z.lt_ge_cases (uchar a) 0x80) as [Hlow | Hhigh].
      * pose proof (low_lead_is_small _ _ _ Hlow Hround). lia.
      * apply stringToChar32_ignores_rest; assumption.
Qed.

Lemma decoder_reads_one_character_witness :
  stringToChar32 "ly9" = Some 108
  /\ stringToChar32 (utf32ToUtf8 0x20AC ++ "!") = Some 0x20AC.
Proof.
  split.
  - apply (proj1 decoder_reads_one_character "l"%char "y9").
    + vm_compute. reflexivity.
    + rewrite !not_elem_of_cons. repeat split; try discriminate.
      apply not_elem_of_nil.
  - apply (proj2 (proj2 decoder_reads_one_character) 0x20AC "!"). lia.
Defined.

End DecoderFacts.

(** ** The commands of the output handler *)

Module CommandFacts.

Import Bytes Utf8 Layout Input Output Utf8Spec Utf8Facts OutputFacts.
Local Open Scope Z_scope.

Lemma append_String a s rest :
  (String a s ++ rest)%string = String a (s ++ rest)%string.
Proof. reflexivity. Qed.

Lemma append_nil_r s : (s ++ "")%string = s.
Proof.
  induction s as [| a s IH]; [reflexivity |].
  rewrite append_String, IH. reflexivity.
Qed.

Lemma append_assoc s1 s2 s3 :
  ((s1 ++ s2) ++ s3)%string = (s1 ++ (s2 ++ s3))%string.
Proof.
  induction s1 as [| a s IH]; [reflexivity |].
  rewrite !append_String, IH. reflexivity.
Qed.

Lemma isspace_uchar ch :
  isspace ch = (uchar ch =? 32) || ((9 <=? uchar ch) && (uchar ch <=? 13)).
Proof.
  unfold isspace, uchar. set (n := N_of_ascii ch).
  destruct (N.eqb_spec n 32), (N.leb_spec 9 n), (N.leb_spec n 13),
    (Z.eqb_spec (Z.of_N n) 32), (Z.leb_spec 9 (Z.of_N n)),
    (Z.leb_spec (Z.of_N n) 13); cbn; try reflexivity; lia.
Qed.

Lemma tokens_word w rest token :
  Forall (fun ch => 32 < uchar ch) (list_ascii_of_string w) ->
  tokens_from (w ++ rest) token = tokens_from rest (token ++ w).
Proof.
  revert token. induction w as [| a w IH]; intros token Hw.
  - rewrite append_nil_r. reflexivity.
  - cbn [list_ascii_of_string] in Hw. apply Forall_cons in Hw as [Ha Hw].
    rewrite append_String. cbn [tokens_from].
    rewrite isspace_uchar.
    rewrite (proj2 (Z.eqb_neq (uchar a) 32)) by lia.
    rewrite (proj2 (Z.leb_gt (uchar a) 13)) by lia.
    rewrite andb_false_r. cbn [orb].
    rewrite IH by exact Hw. rewrite append_assoc. reflexivity.
Qed.

Lemma c_str_plain w :
  Forall (fun ch => 32 < uchar ch) (list_ascii_of_string w) -> c_str w = w.
Proof.
  induction w as [| a w IH]; intros Hw; [reflexivity |].
  cbn [list_ascii_of_string] in Hw. apply Forall_cons in Hw as [Ha Hw].
  cbn [c_str]. unfold uchar in Ha.
  destruct (N.eqb_spec (N_of_ascii a) 0) as [Hz | _];
    [rewrite Hz in Ha; cbn in Ha; lia |].
  rewrite IH by exact Hw. reflexivity.
Qed.

Lemma marker_byte hi k x :
  0 <= k -> hi mod 2 ^ k = 0 -> 0x80 <= hi -> hi + 2 ^ k <= 256 ->
  32 < uchar (to_char (Z.lor hi (Z.land x (Z.ones k)))).
Proof.
  intros Hk Hhi Hlow Hmax. rewrite land_low by exact Hk.
  assert (Hp : 0 < 2 ^ k) by (apply Z.pow_pos_nonneg; lia).
  pose proof (Z.mod_pos_bound x (2 ^ k) Hp) as Hy.
  destruct (leading_byte hi k (x mod 2 ^ k)) as (B & R & _);
    try assumption; try lia.
  rewrite uchar_to_char by exact R. lia.
Qed.

Lemma utf32ToUtf8_plain c :
  32 < c <= 0x10FFFF ->
  Forall (fun ch => 32 < uchar ch) (list_ascii_of_string (utf32ToUtf8 c)).
Proof.
  intros Hc. unfold utf32ToUtf8.
  destruct (Z.leb_spec c 0x7F).
  { repeat constructor. rewrite uchar_to_char by lia. lia. }
  repeat match goal with
         | |- context [c <=? ?k] => destruct (Z.leb_spec c k)
         end; try lia;
    cbn [list_ascii_of_string]; repeat constructor;
    first [ apply (marker_byte 0x80 6)
          | apply (marker_byte 0xC0 5)
          | apply (marker_byte 0xE0 4)
          | apply (marker_byte 0xF0 3) ];
    first [ reflexivity | lia ].
Qed.

(** X30.  A typed character reaches the tool as one argument.  For a
    character above the space up to U+10FFFF, the command line that
    [sendUnicodeWtype] or [sendUnicodeXdotool] builds is split by
    [executeCommand] into the tool's words followed by the character's
    UTF-8 bytes as the last argument.  Vertical tab, form feed and
    carriage return are no control characters for the handler, but they
    are white space for the split, so the tool is run without them. *)
Theorem typed_character_is_one_argument :
  (forall c, 32 < c <= 0x10FFFF ->
     args ("wtype -- " ++ utf32ToUtf8 c) = ["wtype"; "--"; utf32ToUtf8 c]
     /\ args ("xdotool type --clearmodifiers " ++ utf32ToUtf8 c)
        = ["xdotool"; "type"; "--clearmodifiers"; utf32ToUtf8 c])
  /\ (forall c, c ∈ [11; 12; 13] ->
        isControlChar c = false
        /\ args ("wtype -- " ++ utf32ToUtf8 c) = ["wtype"; "--"]).
Proof.
  split.
  - intros c Hc. pose proof (utf32ToUtf8_plain c Hc) as Hplain.
    pose proof (utf32ToUtf8_length c ltac:(lia)) as Hlen.
    assert (Hne : String.eqb (utf32ToUtf8 c) "" = false).
    { destruct (utf32ToUtf8 c); [| reflexivity].
      exfalso. revert Hlen. cbn. repeat case_match; discriminate. }
    assert (Hlast : forall token,
              tokens_from (String " " (utf32ToUtf8 c)) token
              = (if String.eqb token "" then [] else [token])
                ++ [utf32ToUtf8 c]).
    { intros token.
      pose proof (tokens_word (utf32ToUtf8 c) "" "" Hplain) as Hword.
      rewrite append_nil_r in Hword. cbn [tokens_from] in Hword.
      change ("" ++ utf32ToUtf8 c)%string with (utf32ToUtf8 c) in Hword.
      rewrite Hne in Hword.
      cbn [tokens_from]. change (isspace " ") with true. cbv iota.
      rewrite Hword. destruct (String.eqb token ""); reflexivity. }
    unfold args. split.
    + change ("wtype -- " ++ utf32ToUtf8 c)%string
        with ("wtype" ++ String " " ("--" ++ String " " (utf32ToUtf8 c)))%string.
      rewrite (tokens_word "wtype") by (repeat constructor).
      cbn [tokens_from]. change (isspace " ") with true. cbv iota.
      change (String.eqb ("" ++ "wtype") "") with false. cbv iota.
      rewrite (tokens_word "--") by (repeat constructor).
      rewrite Hlast. cbn [map app].
      change (String.eqb ("" ++ "--") "") with false. cbv iota.
      cbn [map app]. rewrite (c_str_plain _ Hplain). reflexivity.
    + change ("xdotool type --clearmodifiers " ++ utf32ToUtf8 c)%string
        with ("xdotool" ++ String " " ("type" ++ String " "
                ("--clearmodifiers" ++ String " " (utf32ToUtf8 c))))%string.
      rewrite (tokens_word "xdotool") by (repeat constructor).
      cbn [tokens_from]. change (isspace " ") with true. cbv iota.
      change (String.eqb ("" ++ "xdotool") "") with false. cbv iota.
      rewrite (tokens_word "type") by (repeat constructor).
      cbn [tokens_from]. change (isspace " ") with true. cbv iota.
      change (String.eqb ("" ++ "type") "") with false. cbv iota.
      rewrite (tokens_word "--clearmodifiers") by (repeat constructor).
      rewrite Hlast.
      change (String.eqb ("" ++ "--clearmodifiers") "") with false. cbv iota.
      cbn [map app]. rewrite (c_str_plain _ Hplain). reflexivity.
  - intros c Hc. rewrite !elem_of_cons, elem_of_nil in Hc.
    destruct Hc as [-> | [-> | [-> | []]]]; split; reflexivity.
Qed.

Lemma typed_character_is_one_argument_witness :
  args ("wtype -- " ++ utf32ToUtf8 0x20AC) = ["wtype"; "--"; utf32ToUtf8 0x20AC].
Proof.
  apply (proj1 typed_character_is_one_argument 0x20AC). lia.
Defined.

End CommandFacts.

